(** * Auto-reply supervisor

    A shallow embedding of the reply-dispatch engine
    ([AutoReplyHandler], the event-driven [AutoReplyRealtimeService] and
    the polling variant's [sendReplyWithDelay]) together with the
    properties its specification states about cooldowns, the in-flight
    guard, message classification and the two background loops.

    Layout: the JavaScript value layer, then the handler, the service
    loops and the polling sender, then concrete scenarios; after them
    the store keys, what the handler may send, the polling service with
    its last-seen store and schedule, the registry of connected
    accounts, the service's stop and restarts, and the configuration
    lists; then the lemmas and theorems, in the same order.

    Conventions. Times are milliseconds since the epoch ([Z]), durations
    are [N]. The runtime is single-threaded: code between two [await]s
    runs alone, so an [async] function is a sequence of segments, and a
    pending [setTimeout] or [setInterval] callback runs when the clock
    reaches its due time. Whatever the transport, the settings service
    and the database answer is an input: a record of functions that
    return a value or throw. *)

From Stdlib Require Import ZArith QArith Qround Lia List Bool Ascii String.
From stdpp Require Import gmap strings list pretty.

Local Close Scope Q_scope.
Local Open Scope Z_scope.

(* ===================================================================== *)
(** ** JavaScript values *)
(* ===================================================================== *)

Module Js.

(** The result of awaiting a promise or calling a method that may throw. *)
Inductive Outcome (A : Type) : Type :=
  | Returned (a : A)
  | Threw.
Arguments Returned {A} a.
Arguments Threw {A}.

(** Text is kept as its UTF-16 code units: [trim()] and the regular
    expression classes are defined on code units. Map keys, class names
    and decimal renderings are ASCII and kept as [string]. *)
Definition js (s : string) : list N :=
  map N_of_ascii (list_ascii_of_string s).

(** WhiteSpace and LineTerminator code units, the set [String.prototype.trim]
    strips. *)
Definition isWhiteSpace (c : N) : bool :=
  ((9 <=? c) && (c <=? 13) || (c =? 32) || (c =? 160) || (c =? 5760)
   || (8192 <=? c) && (c <=? 8202) || (c =? 8232) || (c =? 8233)
   || (c =? 8239) || (c =? 8287) || (c =? 12288) || (c =? 65279))%N.

Fixpoint dropWhile {A} (p : A -> bool) (l : list A) : list A :=
  match l with
  | [] => []
  | x :: l' => if p x then dropWhile p l' else l
  end.

Definition trim (s : list N) : list N :=
  rev (dropWhile isWhiteSpace (rev (dropWhile isWhiteSpace s))).

(** Truthiness of a possibly missing string: present and non-empty. *)
Definition truthy (s : option (list N)) : bool :=
  match s with
  | Some (_ :: _) => true
  | _ => false
  end.

(** Identifiers arrive either as a [bigint] or as a [number]; the code
    tells them apart with [typeof]. *)
Inductive Id : Type :=
  | BigInt (z : Z)
  | Num (z : Z).

(** [Number(b)] for a bigint [b]: exact below 2^53, otherwise rounded to
    53 significant bits, ties to even. *)
Definition Number (z : Z) : Z :=
  let a := Z.abs z in
  if a <? 2 ^ 53 then z
  else
    let e := Z.log2 a - 52 in
    let q := Z.shiftr a e in
    let r := Z.land a (Z.ones e) in
    let half := Z.shiftl 1 (e - 1) in
    let q' := if (half <? r) || ((r =? half) && Z.odd q) then q + 1 else q in
    Z.sgn z * Z.shiftl q' e.

(** [typeof x === 'bigint' ? Number(x) : x] *)
Definition toNumber (x : Id) : Z :=
  match x with
  | BigInt z => Number z
  | Num z => z
  end.

(** The integer an identifier denotes. *)
Definition valueOf (x : Id) : Z :=
  match x with
  | BigInt z => z
  | Num z => z
  end.

(** Truthiness of an identifier: [0] and [0n] are falsy. *)
Definition truthyId (x : Id) : bool := negb (valueOf x =? 0).

(** [String(x)] / [x.toString()]: the decimal rendering. *)
Definition toString (x : Id) : string := pretty (valueOf x).

(** Word characters of [\b] (no unicode flag): [A-Za-z0-9_]. *)
Definition isWordChar (c : N) : bool :=
  ((48 <=? c) && (c <=? 57) || (65 <=? c) && (c <=? 90)
   || (97 <=? c) && (c <=? 122) || (c =? 95))%N.

(** Case folding of the [i] flag on the ASCII range; a code unit outside
    it never folds into it. *)
Definition canonicalize (c : N) : N :=
  if ((97 <=? c) && (c <=? 122))%N then (c - 32)%N else c.

(** The patterns the code builds: literal code units and [\b]. *)
Inductive Atom : Type :=
  | Lit (c : N)
  | WordBoundary.

Definition wordBefore (prev : option N) : bool :=
  match prev with
  | Some c => isWordChar c
  | None => false
  end.

Definition wordAt (s : list N) : bool :=
  match s with
  | c :: _ => isWordChar c
  | [] => false
  end.

(** The code unit that ends a matched stretch, or the one before it. *)
Definition lastOr (prev : option N) (found : list N) : option N :=
  match last found with
  | Some x => Some x
  | None => prev
  end.

(** Match the pattern at the current position; [prev] is the code unit
    just before it. *)
Fixpoint matchHere (p : list Atom) (prev : option N) (s : list N) : bool :=
  match p with
  | [] => true
  | Lit c :: p' =>
      match s with
      | x :: s' => (canonicalize x =? canonicalize c)%N && matchHere p' (Some x) s'
      | [] => false
      end
  | WordBoundary :: p' => xorb (wordBefore prev) (wordAt s) && matchHere p' prev s
  end.

Fixpoint search (p : list Atom) (prev : option N) (s : list N) : bool :=
  matchHere p prev s
  || match s with
     | [] => false
     | x :: s' => search p (Some x) s'
     end.

(** [pattern.test(s)] with the [i] flag. *)
Definition test (p : list Atom) (s : list N) : bool := search p None s.

End Js.

(* ===================================================================== *)
(** ** The auto-reply handler *)
(* ===================================================================== *)

Module Handler.
Import Js.

(** *** Objects received from the transport *)

Record Entity : Type := { bot : bool }.

(** A peer reference ([message.fromId], [message.senderId]); [equals] is
    present on some representations and may throw. *)
Record Peer : Type := {
  className : string;
  userId : option Id;
  equals : option (Id -> Outcome bool)
}.

Record MessageEntity : Type := {
  entity_className : string;
  entity_userId : option Id
}.

Record Message : Type := {
  msg_out : bool;
  msg_id : option Z;
  msg_text : option (list N);
  msg_senderId : option Peer;
  msg_fromId : option Peer;
  msg_sender : option Entity;
  msg_entities : option (list MessageEntity);
  msg_replyTo : bool;
  msg_replyToMsgId : option Z
}.

Record Me : Type := {
  me_id : Id;
  me_username : option (list N)
}.

Record Chat : Type := {
  chat_className : string;
  chat_megagroup : bool;
  chat_gigagroup : bool;
  chat_id : option Id
}.

Record Settings : Type := {
  autoReplyDmEnabled : bool;
  autoReplyDmMessage : option (list N);
  autoReplyGroupsEnabled : bool;
  autoReplyGroupsMessage : option (list N)
}.

(** The second argument of [client.sendMessage]. *)
Record SendOptions : Type := {
  message : list N;
  replyTo : option Message
}.

(** The suspension points of [handleIncomingMessage], in source order. *)
Inductive Request : Type :=
  | GetMe
  | IsSenderBot
  | GetChat
  | GetAccountSettings
  | IsAccountMentioned
  | IsReplyToAccount
  | SendMessage (chat : Chat) (opts : SendOptions).

(** What the client and the settings service answer to one handler
    invocation, and how long each awaited call takes (milliseconds). *)
Record Transport : Type := {
  getMe : Outcome Me;
  getEntity : Z -> Outcome (option Entity);
  getChat : Message -> Outcome (option Chat);
  getReplyMessage : Message -> Outcome (option Message);
  getMessages : option Chat -> Z -> Outcome (list Message);
  getAccountSettings : Z -> Outcome (option Settings);
  sendMessage : Chat -> SendOptions -> Outcome unit;
  latency : Request -> N
}.

(** *** Handler state

    [repliedChats] and [processingMessages] are the two fields of the
    class; [timeouts] holds the pending [setTimeout] clean-ups (due time
    and key), [now] is [Date.now()], and [calls] records every awaited
    call in the order it was issued, tagged with the account. *)
Record World : Type := {
  repliedChats : gmap string Z;
  processingMessages : gset string;
  timeouts : list (Z * string);
  now : Z;
  calls : list (Z * Request)
}.

Definition set_repliedChats (f : gmap string Z -> gmap string Z) (w : World) : World :=
  {| repliedChats := f (repliedChats w);
     processingMessages := processingMessages w;
     timeouts := timeouts w; now := now w; calls := calls w |}.

Definition set_processing (f : gset string -> gset string)
    (g : list (Z * string) -> list (Z * string)) (w : World) : World :=
  {| repliedChats := repliedChats w;
     processingMessages := f (processingMessages w);
     timeouts := g (timeouts w); now := now w; calls := calls w |}.

Definition call (accountId : Z) (r : Request) (w : World) : World :=
  {| repliedChats := repliedChats w;
     processingMessages := processingMessages w;
     timeouts := timeouts w; now := now w;
     calls := calls w ++ [(accountId, r)] |}.

(** Time passes: the clock advances by [d] and every clean-up that has
    come due runs (it deletes its key) and leaves the timer list. *)
Definition isDue (t : Z) (e : Z * string) : bool := fst e <=? t.

Definition tick (d : N) (w : World) : World :=
  let t := now w + Z.of_N d in
  {| repliedChats := repliedChats w;
     processingMessages :=
       processingMessages w ∖ list_to_set (map snd (List.filter (isDue t) (timeouts w)));
     timeouts := List.filter (fun e => negb (isDue t e)) (timeouts w);
     now := t;
     calls := calls w |}.

(** *** Cooldown store and in-flight guard *)

Definition getChatKey (accountId : Z) (chatId : string) : string :=
  pretty accountId +:+ "_" +:+ chatId.

Definition getMessageKey (accountId : Z) (chatId messageId : string) : string :=
  pretty accountId +:+ "_" +:+ chatId +:+ "_" +:+ messageId.

Definition cooldown : Z := 30 * 60 * 1000.

Definition hasRepliedToChatRecently (accountId : Z) (chatId : string) (w : World)
    : bool * World :=
  let key := getChatKey accountId chatId in
  match repliedChats w !! key with
  | None => (false, w)
  | Some lastReplyTime =>
      let thirtyMinutesAgo := now w - cooldown in
      if lastReplyTime <? thirtyMinutesAgo
      then (false, set_repliedChats (delete key) w)
      else (true, w)
  end.

Definition markChatAsReplied (accountId : Z) (chatId : string) (w : World) : World :=
  set_repliedChats (<[getChatKey accountId chatId := now w]>) w.

Definition isProcessingMessage (accountId : Z) (chatId messageId : string) (w : World)
    : bool :=
  bool_decide (getMessageKey accountId chatId messageId ∈ processingMessages w).

Definition autoCleanup : Z := 30000.

Definition markMessageProcessing (accountId : Z) (chatId messageId : string) (w : World)
    : World :=
  let msgKey := getMessageKey accountId chatId messageId in
  set_processing (fun s => {[msgKey]} ∪ s)
                 (fun ts => ts ++ [(now w + autoCleanup, msgKey)]) w.

Definition clearMessageProcessing (accountId : Z) (chatId messageId : string) (w : World)
    : World :=
  set_processing (fun s => s ∖ {[getMessageKey accountId chatId messageId]})
                 (fun ts => ts) w.

(** *** Classification helpers *)

(** The extraction both sender checks share:
    [className === 'PeerUser'] takes [userId] as it is, any other object
    only a truthy [userId]. *)
Definition peerUserId (p : Peer) : option Id :=
  if String.eqb (className p) "PeerUser" then userId p
  else match userId p with
       | Some u => if truthyId u then Some u else None
       | None => None
       end.

Definition sameNumber (a b : Id) : bool := toNumber a =? toNumber b.

Definition isMessageFromSelf (m : Message) (meId : Id) : bool :=
  let bySenderId :=
    match msg_senderId m with
    | Some p =>
        match peerUserId p with
        | Some senderId => sameNumber senderId meId
        | None => false
        end
    | None => false
    end in
  if bySenderId then true
  else
    match msg_fromId m with
    | None => false
    | Some p =>
        let byEquals :=
          match equals p with
          | Some eq => eq meId
          | None => Threw
          end in
        match byEquals with
        | Returned b => b
        | Threw =>
            match peerUserId p with
            | Some senderId => sameNumber senderId meId
            | None => false
            end
        end
    end.

(** One of the two entity look-ups of [isSenderBot]: [Some b] when the
    function returns [b] there, [None] when it falls through. *)
Definition botByPeer (tr : Transport) (p : option Peer) : option bool :=
  match p with
  | None => None
  | Some p =>
      match peerUserId p with
      | None => None
      | Some senderId =>
          match getEntity tr (toNumber senderId) with
          | Returned (Some sender) => if bot sender then Some true else None
          | Returned None => None
          | Threw => Some false
          end
      end
  end.

Definition isSenderBot (tr : Transport) (m : Message) : bool :=
  match msg_sender m with
  | Some sender => bot sender
  | None =>
      match botByPeer tr (msg_fromId m) with
      | Some b => b
      | None =>
          match botByPeer tr (msg_senderId m) with
          | Some b => b
          | None => false
          end
      end
  end.

(** [!message.text || message.text.trim().length === 0] *)
Definition textIsEmpty (m : Message) : bool :=
  match msg_text m with
  | None => true
  | Some s => negb (truthy (Some s)) || (length (trim s) =? 0)%nat
  end.

Definition isMentionEntity (e : MessageEntity) : bool :=
  String.eqb (entity_className e) "MessageEntityMentionName"
  || String.eqb (entity_className e) "MessageEntityMention"
  || match entity_userId e with Some _ => true | None => false end.

Definition entityNames (meId : Id) (e : MessageEntity) : bool :=
  isMentionEntity e
  && match entity_userId e with
     | Some mentionedUserId => sameNumber mentionedUserId meId
     | None => false
     end.

(** [new RegExp(`@${meUsername}\\b`, 'i')]; usernames are made of word
    characters, so the interpolated text is literal. *)
Definition mentionPattern (meUsername : list N) : list Atom :=
  Lit 64 :: map Lit meUsername ++ [WordBoundary].

Definition isAccountMentioned (m : Message) (meId : Id) (meUsername : option (list N))
    : bool :=
  match msg_entities m with
  | Some entities => existsb (entityNames meId) entities
  | None => false
  end
  || match msg_text m, meUsername with
     | Some text, Some username =>
         truthy (Some text) && truthy (Some username)
         && test (mentionPattern username) text
     | _, _ => false
     end.

Definition truthyNumber (z : option Z) : bool :=
  match z with
  | Some n => negb (n =? 0)
  | None => false
  end.

(** The fallback fetch by [replyToMsgId]: [Threw] stands for the inner
    [catch] that makes [isReplyToAccount] return [false]. *)
Definition fetchReplied (tr : Transport) (m : Message) (msgId : Z)
    : Outcome (option Message) :=
  match getChat tr m with
  | Threw => Threw
  | Returned chat =>
      match getMessages tr chat msgId with
      | Threw => Threw
      | Returned messages => Returned (head messages)
      end
  end.

Definition repliedToMessage (tr : Transport) (m : Message) : Outcome (option Message) :=
  if msg_replyTo m then
    match getReplyMessage tr m with
    | Returned r => Returned r
    | Threw =>
        match msg_replyToMsgId m with
        | Some msgId => if truthyNumber (Some msgId) then fetchReplied tr m msgId
                        else Returned None
        | None => Returned None
        end
    end
  else
    match msg_replyToMsgId m with
    | Some msgId => if truthyNumber (Some msgId) then fetchReplied tr m msgId
                    else Returned None
    | None => Returned None
    end.

Definition isReplyToAccount (tr : Transport) (m : Message) : bool :=
  if negb (msg_replyTo m) && negb (truthyNumber (msg_replyToMsgId m)) then false
  else
    match repliedToMessage tr m with
    | Threw => false
    | Returned None => false
    | Returned (Some replied) =>
        match getMe tr with
        | Threw => false
        | Returned me => isMessageFromSelf replied (me_id me)
        end
    end.

Definition isDM (chat : Chat) : bool := String.eqb (chat_className chat) "User".

Definition isGroup (chat : Chat) : bool :=
  String.eqb (chat_className chat) "Chat"
  || String.eqb (chat_className chat) "Channel"
  || chat_megagroup chat || chat_gigagroup chat.

Definition nonEmpty (s : string) : option string :=
  if String.eqb s "" then None else Some s.

Definition chatIdOf (chat : Chat) : option string :=
  match chat_id chat with
  | Some x => nonEmpty (toString x)
  | None => None
  end.

Definition messageIdOf (m : Message) : option string :=
  match msg_id m with
  | Some n => if n =? 0 then None else nonEmpty (pretty n)
  | None => None
  end.

(** The two guards of the dispatch blocks and the options of their
    sends. *)
Definition dmConfigured (chat : Chat) (settings : Settings) : bool :=
  isDM chat && autoReplyDmEnabled settings && truthy (autoReplyDmMessage settings).

Definition groupConfigured (chat : Chat) (settings : Settings) : bool :=
  isGroup chat && autoReplyGroupsEnabled settings
  && truthy (autoReplyGroupsMessage settings).

Definition dmOptions (settings : Settings) : SendOptions :=
  {| message := default [] (autoReplyDmMessage settings); replyTo := None |}.

Definition groupOptions (settings : Settings) : SendOptions :=
  {| message := default [] (autoReplyGroupsMessage settings); replyTo := None |}.

(** *** [handleIncomingMessage] as a resumable task

    The function is [async]: it runs synchronously up to an [await],
    suspends, and is resumed with the awaited result. A [Task] is the
    suspended function: the await it is parked on and the locals that
    are still live. Anything thrown by an awaited call outside the two
    send [try] blocks reaches the outer [catch], which ends the task. *)
Inductive Task : Type :=
  | Invoked (event : option Message)
  | AwaitGetMe (m : Message)
  | AwaitIsSenderBot (m : Message) (me : Me)
  | AwaitGetChat (m : Message) (me : Me)
  | AwaitGetAccountSettings (m : Message) (me : Me) (chat : Chat)
      (chatId messageId : string)
  | AwaitIsAccountMentioned (m : Message) (me : Me) (chat : Chat)
      (chatId messageId : string) (settings : Settings)
  | AwaitIsReplyToAccount (m : Message) (me : Me) (chat : Chat)
      (chatId messageId : string) (settings : Settings) (isMentioned : bool)
  | AwaitSendDm (chat : Chat) (chatId messageId : string) (opts : SendOptions)
  | AwaitSendGroup (chat : Chat) (chatId messageId : string) (opts : SendOptions)
  | Finished.

(** The call a task is parked on. *)
Definition request (t : Task) : option Request :=
  match t with
  | Invoked _ | Finished => None
  | AwaitGetMe _ => Some GetMe
  | AwaitIsSenderBot _ _ => Some IsSenderBot
  | AwaitGetChat _ _ => Some GetChat
  | AwaitGetAccountSettings _ _ _ _ _ => Some GetAccountSettings
  | AwaitIsAccountMentioned _ _ _ _ _ _ => Some IsAccountMentioned
  | AwaitIsReplyToAccount _ _ _ _ _ _ _ => Some IsReplyToAccount
  | AwaitSendDm chat _ _ opts => Some (SendMessage chat opts)
  | AwaitSendGroup chat _ _ opts => Some (SendMessage chat opts)
  end.

(** The synchronous code between two suspension points. *)
Definition segment (tr : Transport) (accountId : Z) (w : World) (t : Task)
    : World * Task :=
  match t with
  | Invoked None => (w, Finished)
  | Invoked (Some m) =>
      if msg_out m then (w, Finished) else (w, AwaitGetMe m)
  | AwaitGetMe m =>
      match getMe tr with
      | Threw => (w, Finished)
      | Returned me =>
          if isMessageFromSelf m (me_id me) then (w, Finished)
          else (w, AwaitIsSenderBot m me)
      end
  | AwaitIsSenderBot m me =>
      if isSenderBot tr m then (w, Finished)
      else if textIsEmpty m then (w, Finished)
      else (w, AwaitGetChat m me)
  | AwaitGetChat m me =>
      match getChat tr m with
      | Threw | Returned None => (w, Finished)
      | Returned (Some chat) =>
          match chatIdOf chat with
          | None => (w, Finished)
          | Some chatId =>
              match messageIdOf m with
              | None => (w, Finished)
              | Some messageId =>
                  if isProcessingMessage accountId chatId messageId w
                  then (w, Finished)
                  else (w, AwaitGetAccountSettings m me chat chatId messageId)
              end
          end
      end
  | AwaitGetAccountSettings m me chat chatId messageId =>
      match getAccountSettings tr accountId with
      | Threw | Returned None => (w, Finished)
      | Returned (Some settings) =>
          if dmConfigured chat settings then
            let '(recently, w1) := hasRepliedToChatRecently accountId chatId w in
            if recently then (w1, Finished)
            else
              (markMessageProcessing accountId chatId messageId w1,
               AwaitSendDm chat chatId messageId (dmOptions settings))
          else if groupConfigured chat settings
          then (w, AwaitIsAccountMentioned m me chat chatId messageId settings)
          else (w, Finished)
      end
  | AwaitIsAccountMentioned m me chat chatId messageId settings =>
      (w, AwaitIsReplyToAccount m me chat chatId messageId settings
            (isAccountMentioned m (me_id me) (me_username me)))
  | AwaitIsReplyToAccount m me chat chatId messageId settings isMentioned =>
      if negb isMentioned && negb (isReplyToAccount tr m) then (w, Finished)
      else
        (markMessageProcessing accountId chatId messageId w,
         AwaitSendGroup chat chatId messageId (groupOptions settings))
  | AwaitSendDm chat chatId messageId opts =>
      match sendMessage tr chat opts with
      | Returned _ =>
          (clearMessageProcessing accountId chatId messageId
             (markChatAsReplied accountId chatId w), Finished)
      | Threw => (clearMessageProcessing accountId chatId messageId w, Finished)
      end
  | AwaitSendGroup chat chatId messageId opts =>
      (clearMessageProcessing accountId chatId messageId w, Finished)
  | Finished => (w, Finished)
  end.

(** Resume a parked task: run its next segment and issue the call it
    stops on. *)
Definition resume (tr : Transport) (accountId : Z) (w : World) (t : Task)
    : World * Task :=
  let '(w1, t1) := segment tr accountId w t in
  (match request t1 with
   | Some r => call accountId r w1
   | None => w1
   end, t1).

(** One invocation left alone: each awaited call takes its latency, then
    the task is resumed, until it returns. *)
Fixpoint run (fuel : nat) (tr : Transport) (accountId : Z) (w : World) (t : Task)
    : World * Task :=
  match fuel with
  | O => (w, t)
  | S fuel' =>
      match t with
      | Finished => (w, t)
      | _ =>
          let w1 := match request t with
                    | Some r => tick (latency tr r) w
                    | None => w
                    end in
          let '(w2, t2) := resume tr accountId w1 t in
          run fuel' tr accountId w2 t2
      end
  end.

(** Eight segments cover the longest path (seven awaits). *)
Definition handleIncomingMessage (tr : Transport) (accountId : Z)
    (event : option Message) (w : World) : World :=
  fst (run 8 tr accountId w (Invoked event)).

(** The replies among a list of calls. *)
Definition isSend (c : Z * Request) : bool :=
  match snd c with
  | SendMessage _ _ => true
  | _ => false
  end.

Definition replies (cs : list (Z * Request)) : list (Z * Request) :=
  List.filter isSend cs.

(** The calls an invocation added to the record. *)
Definition issued (before after : World) : list (Z * Request) :=
  drop (length (calls before)) (calls after).

(** *** Several invocations in flight

    The runtime is single-threaded and cooperative: between two
    suspension points a task runs alone, and at a suspension point any
    other parked task may be resumed, or time may pass. *)
Record Job : Type := {
  job_transport : Transport;
  job_account : Z;
  job_task : Task
}.

Inductive Step : Type :=
  | Elapse (d : N)
  | Resume (i : nat).

Definition step (s : Step) (st : World * list Job) : World * list Job :=
  match s with
  | Elapse d => (tick d (fst st), snd st)
  | Resume i =>
      match snd st !! i with
      | None => st
      | Some j =>
          let '(w1, t1) :=
            resume (job_transport j) (job_account j) (fst st) (job_task j) in
          (w1, <[i := {| job_transport := job_transport j;
                         job_account := job_account j;
                         job_task := t1 |}]> (snd st))
      end
  end.

Definition exec (schedule : list Step) (st : World * list Job) : World * list Job :=
  foldl (fun acc s => step s acc) st schedule.

(** The narrow operations through which every segment touches the two
    stores, as labels, for statements over arbitrary interleavings. *)
Inductive Op : Type :=
  | OpElapse (d : N)
  | OpHasReplied (accountId : Z) (chatId : string)
  | OpMarkReplied (accountId : Z) (chatId : string)
  | OpMarkProcessing (accountId : Z) (chatId messageId : string)
  | OpClearProcessing (accountId : Z) (chatId messageId : string).

Definition applyOp (o : Op) (w : World) : World :=
  match o with
  | OpElapse d => tick d w
  | OpHasReplied a c => snd (hasRepliedToChatRecently a c w)
  | OpMarkReplied a c => markChatAsReplied a c w
  | OpMarkProcessing a c m => markMessageProcessing a c m w
  | OpClearProcessing a c m => clearMessageProcessing a c m w
  end.

Definition applyOps (ops : list Op) (w : World) : World :=
  foldl (fun acc o => applyOp o acc) w ops.

(** Does the operation acquire the marker [key]? *)
Definition acquires (key : string) (o : Op) : bool :=
  match o with
  | OpMarkProcessing a c m => String.eqb (getMessageKey a c m) key
  | _ => false
  end.

(** *** Reaching the dispatch decision

    The world when the in-flight check runs (three awaits in) and when
    the dispatch decision is taken (after the settings have arrived). *)
Definition atCheck (tr : Transport) (accountId : Z) (w : World) : World :=
  tick (latency tr GetChat)
    (call accountId GetChat
       (tick (latency tr IsSenderBot)
          (call accountId IsSenderBot
             (tick (latency tr GetMe) (call accountId GetMe w))))).

Definition atDecision (tr : Transport) (accountId : Z) (w : World) : World :=
  tick (latency tr GetAccountSettings)
    (call accountId GetAccountSettings (atCheck tr accountId w)).

(** The world when the group block tests its two triggers. *)
Definition atGate (tr : Transport) (accountId : Z) (w : World) : World :=
  tick (latency tr IsReplyToAccount)
    (call accountId IsReplyToAccount
       (tick (latency tr IsAccountMentioned)
          (call accountId IsAccountMentioned (atDecision tr accountId w)))).

(** An inbound message that passes every check ahead of the dispatch
    blocks: not outgoing, not from the session itself, not from a bot,
    with text, in a chat whose id and whose own id can be rendered, not
    being processed already, for an account that has settings. *)
Record Eligible (tr : Transport) (accountId : Z) (m : Message) (w : World)
    (me : Me) (chat : Chat) (chatId messageId : string) (settings : Settings)
    : Prop := {
  el_incoming : msg_out m = false;
  el_me : getMe tr = Returned me;
  el_notSelf : isMessageFromSelf m (me_id me) = false;
  el_notBot : isSenderBot tr m = false;
  el_text : textIsEmpty m = false;
  el_chat : getChat tr m = Returned (Some chat);
  el_chatId : chatIdOf chat = Some chatId;
  el_messageId : messageIdOf m = Some messageId;
  el_idle : isProcessingMessage accountId chatId messageId w = false;
  el_settings : getAccountSettings tr accountId = Returned (Some settings)
}.

(** The world in which an issued send completes: the marker has been
    acquired from [w], the send was issued and took its latency. *)
Definition whenSent (tr : Transport) (accountId : Z) (chat : Chat)
    (chatId messageId : string) (opts : SendOptions) (w : World) : World :=
  tick (latency tr (SendMessage chat opts))
    (call accountId (SendMessage chat opts)
       (markMessageProcessing accountId chatId messageId w)).

(** Remaining segments of a task, at most. *)
Definition rank (t : Task) : nat :=
  match t with
  | Invoked _ => 8
  | AwaitGetMe _ => 7
  | AwaitIsSenderBot _ _ => 6
  | AwaitGetChat _ _ => 5
  | AwaitGetAccountSettings _ _ _ _ _ => 4
  | AwaitIsAccountMentioned _ _ _ _ _ _ => 3
  | AwaitIsReplyToAccount _ _ _ _ _ _ _ => 2
  | AwaitSendDm _ _ _ _ => 1
  | AwaitSendGroup _ _ _ _ => 1
  | Finished => 0
  end.

(** Either the clean-up of [key] is still pending and due by the
    deadline, or [key] is not marked. *)
Definition bounded (key : string) (deadline : Z) (w : World) : Prop :=
  (∃ due, In (due, key) (timeouts w) ∧ now w < due ∧ due <= deadline)
  ∨ key ∉ processingMessages w.

(** Every marker that is held has a clean-up pending, due within the
    next 30 seconds. *)
Definition covered (w : World) : Prop :=
  ∀ k, k ∈ processingMessages w →
       ∃ due, In (due, k) (timeouts w) ∧ now w < due ∧ due <= now w + autoCleanup.

(** A task that can no longer enter the direct-message block of the
    invocation on [tr]: its chat, once known, is not a [User] chat. *)
Definition offDm (tr : Transport) (t : Task) : Prop :=
  match t with
  | Invoked (Some m) | AwaitGetMe m | AwaitIsSenderBot m _ | AwaitGetChat m _ =>
      ∀ chat, getChat tr m = Returned (Some chat) → isDM chat = false
  | AwaitGetAccountSettings _ _ chat _ _ => isDM chat = false
  | AwaitSendDm _ _ _ _ => False
  | _ => True
  end.

End Handler.

(* ===================================================================== *)
(** ** The triggers, read declaratively *)
(* ===================================================================== *)

Module Classifier.
Import Js Handler.

(** A peer that names the user [who]. *)
Definition Names (p : Peer) (who : Id) : Prop :=
  className p = "PeerUser" ∧ ∃ u, userId p = Some u ∧ valueOf u = valueOf who.

(** The message was written by [who]: its [senderId] names [who], or its
    [fromId] does and carries no [equals] method that denies it. *)
Definition AuthoredBy (m : Message) (who : Id) : Prop :=
  (∃ p, msg_senderId m = Some p ∧ Names p who)
  ∨ (∃ p, msg_fromId m = Some p ∧ Names p who
          ∧ ∀ eq, equals p = Some eq → eq who ≠ Returned false).

(** Identifiers the two numeric representations agree on. *)
Definition Safe (who : Id) : Prop := Z.abs (valueOf who) < 2 ^ 53.

(** The sender is flagged as a bot: on the inlined sender, or else on
    the entity its [fromId] resolves to. *)
Definition FlaggedBot (tr : Transport) (m : Message) : Prop :=
  (∃ sender, msg_sender m = Some sender ∧ bot sender = true)
  ∨ (msg_sender m = None
     ∧ ∃ p u sender, msg_fromId m = Some p ∧ peerUserId p = Some u
         ∧ getEntity tr (toNumber u) = Returned (Some sender) ∧ bot sender = true).

(** No text, or nothing but white space. *)
Definition Blank (m : Message) : Prop :=
  match msg_text m with
  | None => True
  | Some s => Forall (fun c => isWhiteSpace c = true) s
  end.

(** A structured mention entity carries the user id [who]. *)
Definition EntityMention (m : Message) (who : Id) : Prop :=
  ∃ entities e u,
    msg_entities m = Some entities ∧ e ∈ entities
    ∧ entity_userId e = Some u ∧ toNumber u = toNumber who.

Definition sameLetters (x y : list N) : Prop :=
  map canonicalize x = map canonicalize y.

(** The text contains [@username], in any letter case, not followed by
    a word character. *)
Definition TextMention (m : Message) (username : option (list N)) : Prop :=
  ∃ text name before found after,
    msg_text m = Some text ∧ username = Some name ∧ name ≠ []
    ∧ text = before ++ 64%N :: found ++ after
    ∧ sameLetters found name ∧ wordAt after = false.

(** How the referenced message is obtained: from [getReplyMessage] when
    the reply header is inlined, otherwise (no header, or that call
    failed) fetched from the chat by [replyToMsgId]. *)
Definition Resolves (tr : Transport) (m replied : Message) : Prop :=
  (msg_replyTo m = true ∧ getReplyMessage tr m = Returned (Some replied))
  ∨ ((msg_replyTo m = false ∨ getReplyMessage tr m = Threw)
     ∧ ∃ msgId chat rest,
         msg_replyToMsgId m = Some msgId ∧ msgId ≠ 0
         ∧ getChat tr m = Returned chat
         ∧ getMessages tr chat msgId = Returned (replied :: rest)).

(** The message replies to one the session wrote. *)
Definition ReplyToSelf (tr : Transport) (m : Message) : Prop :=
  ∃ replied me,
    Resolves tr m replied ∧ getMe tr = Returned me
    ∧ isMessageFromSelf replied (me_id me) = true.

(** Usernames are made of word characters. *)
Definition wellFormed (username : option (list N)) : bool :=
  match username with
  | Some name => forallb isWordChar name
  | None => true
  end.

End Classifier.

(* ===================================================================== *)
(** ** The event-driven service: registry and background loops *)
(* ===================================================================== *)

Module Service.
Import Js.

Definition OFFLINE_INTERVAL_MIN : Z := 8000.
Definition OFFLINE_INTERVAL_MAX : Z := 12000.
Definition HEALTH_CHECK_INTERVAL : Z := 120000.

(** [Math.floor(Math.random() * (MAX - MIN + 1)) + MIN], for the value
    [random] that [Math.random()] returned, a rational in [0, 1). *)
Definition getRandomOfflineInterval (random : Q) : Z :=
  Qfloor (random * inject_Z (OFFLINE_INTERVAL_MAX - OFFLINE_INTERVAL_MIN + 1))
  + OFFLINE_INTERVAL_MIN.

Record Client : Type := { connected : bool }.

Record Account : Type := {
  client : option Client;
  accountId : Z;
  lastHealthCheck : Z
}.

(** [account.client && account.client.connected] *)
Definition isConnected (a : Account) : bool :=
  match client a with
  | Some c => connected c
  | None => false
  end.

(** What [connectAccount] leaves in the registry for its account: a fresh
    entry ([connectedAccounts.set]), no entry ([disconnectAccount]) or the
    old one (the connect attempt failed and it returned [false]). *)
Inductive Connected : Type :=
  | Registered (c : Client)
  | Removed
  | Unchanged.

(** The collaborators, as the loops see them. Answers may depend on the
    time of the call. [connectAccount] reads the settings, the database
    and the account linker; the loops only depend on what it does to the
    registry entry of its account and on whether it throws. *)
Record Env : Type := {
  random : nat -> Q;
  enabledAccounts : Outcome (list Z);
  connectAccount : Z -> Z -> Outcome Connected;
  updateStatus : Z -> Z -> nat -> Outcome unit;
  verifyHandlerRegistered : Z -> Z -> bool;
  setupAutoReply : Z -> Z -> Outcome unit;
  walkDuration : nat -> N
}.

(** Calls the service makes, recorded with the time they were made. *)
Inductive Call : Type :=
  | PerformHealthCheck
  | OfflineWalk
  | UpdateStatus (accountId : Z)
  | ConnectAccount (accountId : Z)
  | SetupAutoReply (accountId : Z).

(** What a pending entry of the event loop runs when it comes due: the
    two timer callbacks, and the rest of the offline callback after its
    walk has finished. *)
Inductive Callback : Type :=
  | HealthCheckCallback
  | OfflineCallback
  | OfflineCallbackRest.

Record Timer : Type := {
  timer_id : nat;
  timer_due : Z;
  timer_callback : Callback;
  timer_repeat : option Z
}.

(** The service instance and the runtime it lives in. The registry is a
    [Map] keyed by the decimal rendering of the account id; it is kept in
    insertion order under the id itself ([toString] and [parseInt] are
    inverse on these keys). *)
Record Runtime : Type := {
  connectedAccounts : list (Z * Account);
  offlineInterval : option nat;
  healthCheckInterval : option nat;
  timers : list Timer;
  nextTimerId : nat;
  clock : Z;
  randoms : nat;
  walks : nat;
  log : list (Z * Call)
}.

(** The constructor's state, at time [t]. *)
Definition boot (t : Z) : Runtime :=
  {| connectedAccounts := []; offlineInterval := None;
     healthCheckInterval := None; timers := []; nextTimerId := 0;
     clock := t; randoms := 0; walks := 0; log := [] |}.

Definition record (c : Call) (rt : Runtime) : Runtime :=
  {| connectedAccounts := connectedAccounts rt;
     offlineInterval := offlineInterval rt;
     healthCheckInterval := healthCheckInterval rt;
     timers := timers rt; nextTimerId := nextTimerId rt; clock := clock rt;
     randoms := randoms rt; walks := walks rt;
     log := log rt ++ [(clock rt, c)] |}.

Definition set_accounts (f : list (Z * Account) -> list (Z * Account))
    (rt : Runtime) : Runtime :=
  {| connectedAccounts := f (connectedAccounts rt);
     offlineInterval := offlineInterval rt;
     healthCheckInterval := healthCheckInterval rt;
     timers := timers rt; nextTimerId := nextTimerId rt; clock := clock rt;
     randoms := randoms rt; walks := walks rt; log := log rt |}.

Definition set_timers (f : list Timer -> list Timer) (rt : Runtime) : Runtime :=
  {| connectedAccounts := connectedAccounts rt;
     offlineInterval := offlineInterval rt;
     healthCheckInterval := healthCheckInterval rt;
     timers := f (timers rt); nextTimerId := nextTimerId rt; clock := clock rt;
     randoms := randoms rt; walks := walks rt; log := log rt |}.

(** [setTimeout] / [setInterval]: a new pending entry, due one delay
    from now; the handle is its id. *)
Definition addTimer (cb : Callback) (delay : Z) (repeat : option Z) (rt : Runtime)
    : nat * Runtime :=
  (nextTimerId rt,
   {| connectedAccounts := connectedAccounts rt;
      offlineInterval := offlineInterval rt;
      healthCheckInterval := healthCheckInterval rt;
      timers := timers rt ++ [{| timer_id := nextTimerId rt;
                                 timer_due := clock rt + delay;
                                 timer_callback := cb;
                                 timer_repeat := repeat |}];
      nextTimerId := S (nextTimerId rt); clock := clock rt;
      randoms := randoms rt; walks := walks rt; log := log rt |}).

(** [clearTimeout] / [clearInterval] *)
Definition clearTimer (handle : nat) (rt : Runtime) : Runtime :=
  set_timers (List.filter (fun t => negb (timer_id t =? handle)%nat)) rt.

(** *** Registry updates *)

Fixpoint mapSet (k : Z) (a : Account) (m : list (Z * Account)) : list (Z * Account) :=
  match m with
  | [] => [(k, a)]
  | (k', a') :: m' => if k' =? k then (k, a) :: m' else (k', a') :: mapSet k a m'
  end.

Definition mapDelete (k : Z) (m : list (Z * Account)) : list (Z * Account) :=
  List.filter (fun e => negb (fst e =? k)) m.

Definition applyConnected (k : Z) (t : Z) (r : Connected) (m : list (Z * Account))
    : list (Z * Account) :=
  match r with
  | Registered c =>
      mapSet k {| client := Some c; accountId := k; lastHealthCheck := t |} m
  | Removed => mapDelete k m
  | Unchanged => m
  end.

(** [await this.connectAccount(id)]: [false] when the call throws. *)
Definition doConnect (env : Env) (id : Z) (rt : Runtime) : bool * Runtime :=
  let rt1 := record (ConnectAccount id) rt in
  match connectAccount env (clock rt) id with
  | Returned r => (true, set_accounts (applyConnected id (clock rt) r) rt1)
  | Threw => (false, rt1)
  end.

(** [setOfflineStatus]: three [UpdateStatus({offline: true})] calls on a
    connected client; the first one that throws ends the attempt, and
    the error is swallowed. The oracle is asked per attempt. *)
Definition setOfflineStatus (env : Env) (a : Account) (id : Z) (rt : Runtime) : Runtime :=
  if isConnected a then
    let rt1 := record (UpdateStatus id) rt in
    match updateStatus env (clock rt) id 0 with
    | Threw => rt1
    | Returned _ =>
        let rt2 := record (UpdateStatus id) rt1 in
        match updateStatus env (clock rt) id 1 with
        | Threw => rt2
        | Returned _ => record (UpdateStatus id) rt2
        end
    end
  else rt.

(** *** The offline-status loop *)

(** The body of the [for] loop in the timer callback; its [try]/[catch]
    swallows whatever the two calls throw. *)
Definition visitOffline (env : Env) (e : Z * Account) (rt : Runtime) : Runtime :=
  let '(id, account) := e in
  if isConnected account then setOfflineStatus env account (accountId account) rt
  else snd (doConnect env id rt).

Definition offlineWalk (env : Env) (rt : Runtime) : Runtime :=
  foldl (fun acc e => visitOffline env e acc) rt (connectedAccounts rt).

Definition set_offline (handle : option nat) (consumed : nat) (rt : Runtime) : Runtime :=
  {| connectedAccounts := connectedAccounts rt;
     offlineInterval := handle;
     healthCheckInterval := healthCheckInterval rt;
     timers := timers rt; nextTimerId := nextTimerId rt; clock := clock rt;
     randoms := randoms rt + consumed; walks := walks rt; log := log rt |}.

(** [scheduleNext]: draw a delay, arm a one-shot timer with it. *)
Definition scheduleNext (env : Env) (rt : Runtime) : Runtime :=
  let nextInterval := getRandomOfflineInterval (random env (randoms rt)) in
  let '(handle, rt1) := addTimer OfflineCallback nextInterval None rt in
  set_offline (Some handle) 1 rt1.

Definition startOfflineStatusLoop (env : Env) (rt : Runtime) : Runtime :=
  let rt1 := match offlineInterval rt with
             | Some handle => clearTimer handle rt
             | None => rt
             end in
  scheduleNext env rt1.

(** *** The health-check loop *)

Definition touch (id : Z) (t : Z) (m : list (Z * Account)) : list (Z * Account) :=
  map (fun e => if fst e =? id
                then (fst e, {| client := client (snd e);
                                accountId := accountId (snd e);
                                lastHealthCheck := t |})
                else e) m.

(** A reconnect inside the per-account [try]: if it throws, the outer
    [catch] tries once more and ignores a second failure. *)
Definition reconnect (env : Env) (id : Z) (rt : Runtime) : Runtime :=
  let '(ok, rt1) := doConnect env id rt in
  if ok then rt1 else snd (doConnect env id rt1).

Definition checkAccount (env : Env) (now : Z) (e : Z * Account) (rt : Runtime) : Runtime :=
  let '(id, account) := e in
  if negb (isConnected account) then reconnect env id rt
  else if negb (verifyHandlerRegistered env (clock rt) id) then
    match setupAutoReply env (clock rt) id with
    | Returned _ =>
        set_accounts (touch id now)
          (setOfflineStatus env account id (record (SetupAutoReply id) rt))
    | Threw => reconnect env id (record (SetupAutoReply id) rt)
    end
  else set_accounts (touch id now) rt.

Definition performHealthCheck (env : Env) (rt : Runtime) : Runtime :=
  let rt1 := record PerformHealthCheck rt in
  foldl (fun acc e => checkAccount env (clock rt) e acc) rt1 (connectedAccounts rt1).

Definition set_health (handle : option nat) (rt : Runtime) : Runtime :=
  {| connectedAccounts := connectedAccounts rt;
     offlineInterval := offlineInterval rt;
     healthCheckInterval := handle;
     timers := timers rt; nextTimerId := nextTimerId rt; clock := clock rt;
     randoms := randoms rt; walks := walks rt; log := log rt |}.

Definition startHealthCheckLoop (rt : Runtime) : Runtime :=
  let rt1 := match healthCheckInterval rt with
             | Some handle => clearTimer handle rt
             | None => rt
             end in
  let '(handle, rt2) :=
    addTimer HealthCheckCallback HEALTH_CHECK_INTERVAL (Some HEALTH_CHECK_INTERVAL) rt1 in
  set_health (Some handle) rt2.

(** *** Service start *)

(** The [for] loop over the rows inside [start]'s [try]: a throw leaves
    it, and the loops below it are then never started. *)
Fixpoint connectAll (env : Env) (rows : list Z) (rt : Runtime) : bool * Runtime :=
  match rows with
  | [] => (true, rt)
  | id :: rows' =>
      let '(ok, rt1) := doConnect env id rt in
      if ok then connectAll env rows' rt1 else (false, rt1)
  end.

Definition start (env : Env) (rt : Runtime) : Runtime :=
  match enabledAccounts env with
  | Threw => rt
  | Returned rows =>
      let '(ok, rt1) := connectAll env rows rt in
      if ok then startHealthCheckLoop (startOfflineStatusLoop env rt1) else rt1
  end.

(** *** The event loop *)

(** The pending entry that fires next: the earliest due, the oldest
    among equals. *)
Fixpoint earliest (ts : list Timer) : option Timer :=
  match ts with
  | [] => None
  | t :: ts' =>
      match earliest ts' with
      | Some t' => if timer_due t' <? timer_due t then Some t' else Some t
      | None => Some t
      end
  end.

Definition set_clock (t : Z) (rt : Runtime) : Runtime :=
  {| connectedAccounts := connectedAccounts rt;
     offlineInterval := offlineInterval rt;
     healthCheckInterval := healthCheckInterval rt;
     timers := timers rt; nextTimerId := nextTimerId rt; clock := t;
     randoms := randoms rt; walks := walks rt; log := log rt |}.

Definition countWalk (rt : Runtime) : Runtime :=
  {| connectedAccounts := connectedAccounts rt;
     offlineInterval := offlineInterval rt;
     healthCheckInterval := healthCheckInterval rt;
     timers := timers rt; nextTimerId := nextTimerId rt; clock := clock rt;
     randoms := randoms rt; walks := S (walks rt); log := log rt |}.

Definition rearm (t : Timer) (period : Z) (now : Z) : Timer :=
  {| timer_id := timer_id t; timer_due := now + period;
     timer_callback := timer_callback t; timer_repeat := Some period |}.

(** One turn: the clock reaches the next due entry and its callback
    runs. An interval entry stays armed one period later; a one-shot
    entry is spent. The offline callback walks the registry and, once
    the walk's awaited calls have completed, schedules its successor. *)
Definition turn (env : Env) (rt : Runtime) : Runtime :=
  match earliest (timers rt) with
  | None => rt
  | Some t =>
      let now := Z.max (clock rt) (timer_due t) in
      let others := List.filter (fun t' => negb (timer_id t' =? timer_id t)%nat) in
      let rt1 := set_clock now rt in
      match timer_callback t with
      | HealthCheckCallback =>
          let rt2 :=
            match timer_repeat t with
            | Some period =>
                set_timers (map (fun t' => if (timer_id t' =? timer_id t)%nat
                                           then rearm t' period now else t')) rt1
            | None => set_timers others rt1
            end in
          performHealthCheck env rt2
      | OfflineCallback =>
          let rt2 := offlineWalk env (record OfflineWalk (set_timers others rt1)) in
          let '(_, rt3) :=
            addTimer OfflineCallbackRest (Z.of_N (walkDuration env (walks rt2))) None rt2 in
          countWalk rt3
      | OfflineCallbackRest => scheduleNext env (set_timers others rt1)
      end
  end.

Fixpoint turns (n : nat) (env : Env) (rt : Runtime) : Runtime :=
  match n with
  | O => rt
  | S n' => turns n' env (turn env rt)
  end.

(** The times at which a call was made, oldest first. *)
Definition timesOf (p : Call -> bool) (l : list (Z * Call)) : list Z :=
  map fst (List.filter (fun e => p (snd e)) l).

Definition isHealthCheck (c : Call) : bool :=
  match c with PerformHealthCheck => true | _ => false end.

Definition isWalk (c : Call) : bool :=
  match c with OfflineWalk => true | _ => false end.

(** *** The schedules the two loops follow

    The [j]-th health check (from 0) falls [j + 1] intervals after the
    loops were started at [t0]. The first walk falls one drawn delay
    after [t0], each later walk one freshly drawn delay after the walk
    before it has finished. *)
Definition healthTime (t0 : Z) (j : nat) : Z :=
  t0 + (Z.of_nat j + 1) * HEALTH_CHECK_INTERVAL.

Fixpoint walkTime (env : Env) (t0 : Z) (i : nat) : Z :=
  match i with
  | O => t0 + getRandomOfflineInterval (random env 0)
  | S j =>
      walkTime env t0 j + Z.of_N (walkDuration env j)
      + getRandomOfflineInterval (random env (S j))
  end.

Definition healthTimer (t0 : Z) (h : nat) : Timer :=
  {| timer_id := 1; timer_due := healthTime t0 h;
     timer_callback := HealthCheckCallback;
     timer_repeat := Some HEALTH_CHECK_INTERVAL |}.

Definition walkTimer (env : Env) (t0 : Z) (k id : nat) : Timer :=
  {| timer_id := id; timer_due := walkTime env t0 k;
     timer_callback := OfflineCallback; timer_repeat := None |}.

Definition restTimer (env : Env) (t0 : Z) (j id : nat) : Timer :=
  {| timer_id := id;
     timer_due := walkTime env t0 j + Z.of_N (walkDuration env j);
     timer_callback := OfflineCallbackRest; timer_repeat := None |}.

Definition isOffline (t : Timer) : bool :=
  match timer_callback t with
  | HealthCheckCallback => false
  | _ => true
  end.

(** The call a walk owes an entry of the registry. *)
Definition owed (e : Z * Account) : Call :=
  if isConnected (snd e) then UpdateStatus (accountId (snd e))
  else ConnectAccount (fst e).

(** [Math.random()] answers in [0, 1). *)
Definition Fair (env : Env) : Prop :=
  ∀ i, (0 <= random env i)%Q ∧ (random env i < 1)%Q.

(** The state of a started service after [h] health checks and [k]
    walks: the interval timer armed for the next check, and one pending
    entry of the offline chain, either the timer of walk [k] or the
    rest of the callback of walk [k - 1]. *)
Definition Running (env : Env) (t0 : Z) (rt : Runtime) (h k : nat) : Prop :=
  ∃ (id : nat) (o : Timer),
    (timers rt = [o; healthTimer t0 h] ∨ timers rt = [healthTimer t0 h; o])
    ∧ (o = walkTimer env t0 k id ∧ randoms rt = S k ∧ offlineInterval rt = Some id
       ∨ ∃ j, k = S j ∧ o = restTimer env t0 j id ∧ randoms rt = k)
    ∧ walks rt = k
    ∧ id ≠ 1%nat ∧ (id < nextTimerId rt)%nat ∧ (1 < nextTimerId rt)%nat
    ∧ clock rt <= timer_due o ∧ clock rt <= healthTime t0 h
    ∧ healthCheckInterval rt = Some 1%nat
    ∧ timesOf isHealthCheck (log rt) = map (healthTime t0) (seq 0 h)
    ∧ timesOf isWalk (log rt) = map (walkTime env t0) (seq 0 k).

(** [rt'] is [rt] after calls that touch the registry and the record
    only, none of them a health check or the start of a walk. *)
Definition Quiet (rt rt' : Runtime) : Prop :=
  timers rt' = timers rt ∧ clock rt' = clock rt
  ∧ nextTimerId rt' = nextTimerId rt ∧ randoms rt' = randoms rt
  ∧ walks rt' = walks rt ∧ offlineInterval rt' = offlineInterval rt
  ∧ healthCheckInterval rt' = healthCheckInterval rt
  ∧ ∃ l, log rt' = log rt ++ l
         ∧ Forall (fun e => isHealthCheck (snd e) = false ∧ isWalk (snd e) = false) l.

End Service.

(* ===================================================================== *)
(** ** The polling variant's sender *)
(* ===================================================================== *)

Module Polling.
Import Js Handler.

(** The options [sendReplyWithDelay] passes to [client.sendMessage]:
    [replyTo] is set exactly when an original message is given. *)
Definition sendReplyWithDelay (replyMessage : list N) (originalMessage : option Message)
    : SendOptions :=
  {| message := replyMessage; replyTo := originalMessage |}.

(** The two call sites in [pollAccount]: a direct message passes [null],
    a group trigger passes the triggering message. *)
Definition dmReply (settings : Settings) : SendOptions :=
  sendReplyWithDelay (default [] (autoReplyDmMessage settings)) None.

Definition groupReply (settings : Settings) (lastMessage : Message) : SendOptions :=
  sendReplyWithDelay (default [] (autoReplyGroupsMessage settings)) (Some lastMessage).

End Polling.

(* ===================================================================== *)
(** ** Concrete scenarios *)
(* ===================================================================== *)

Module Scenario.
Import Js Handler.

Definition userPeer (u : Z) : Peer :=
  {| className := "PeerUser"; userId := Some (BigInt u); equals := None |}.

(** The session's own identity: user 1001, [@alice]. *)
Definition alice : Me := {| me_id := BigInt 1001; me_username := Some (js "alice") |}.

Definition dmChat : Chat :=
  {| chat_className := "User"; chat_megagroup := false; chat_gigagroup := false;
     chat_id := Some (BigInt 555) |}.

Definition groupChat : Chat :=
  {| chat_className := "Channel"; chat_megagroup := true; chat_gigagroup := false;
     chat_id := Some (BigInt (-1001234)) |}.

Definition settings : Settings :=
  {| autoReplyDmEnabled := true;
     autoReplyDmMessage := Some (js "Away right now");
     autoReplyGroupsEnabled := true;
     autoReplyGroupsMessage := Some (js "Busy, back later") |}.

(** An inbound text message [n] from user [from]. *)
Definition textMessage (n from : Z) (text : string) : Message :=
  {| msg_out := false; msg_id := Some n; msg_text := Some (js text);
     msg_senderId := None; msg_fromId := Some (userPeer from);
     msg_sender := Some {| bot := false |}; msg_entities := None;
     msg_replyTo := false; msg_replyToMsgId := None |}.

(** The same identity with its id as a [number]. *)
Definition aliceNarrow : Me := {| me_id := Num 1001; me_username := Some (js "alice") |}.

(** A client of the session [me] whose messages live in [chat]; every
    call takes [ms] milliseconds and [sendMessage] succeeds iff [sendOk]. *)
Definition clientOf (me : Me) (chat : Chat) (sendOk : bool) (ms : N) : Transport :=
  {| getMe := Returned me;
     getEntity := fun _ => Returned (Some {| bot := false |});
     getChat := fun _ => Returned (Some chat);
     getReplyMessage := fun _ => Returned None;
     getMessages := fun _ _ => Returned [];
     getAccountSettings := fun _ => Returned (Some settings);
     sendMessage := fun _ _ => if sendOk then Returned tt else Threw;
     latency := fun _ => ms |}.

Definition client : Chat -> bool -> N -> Transport := clientOf alice.

(** A message sent by a bot account, with the sender inlined. *)
Definition botMessage (n from : Z) (text : string) : Message :=
  {| msg_out := false; msg_id := Some n; msg_text := Some (js text);
     msg_senderId := None; msg_fromId := Some (userPeer from);
     msg_sender := Some {| bot := true |}; msg_entities := None;
     msg_replyTo := false; msg_replyToMsgId := None |}.

(** One update delivered twice: two invocations for the same message. *)
Definition duplicate : list Job :=
  let job := {| job_transport := client dmChat true 10; job_account := 123;
                job_task := Invoked (Some (textMessage 7 42 "hi")) |} in
  [job; job].

(** The two invocations advance in lockstep: each awaited call of the
    first completes just before the same call of the second. *)
Definition lockstep : list Step :=
  [Resume 0; Resume 1; Resume 0; Resume 1; Resume 0; Resume 1;
   Resume 0; Resume 1; Resume 0; Resume 1; Resume 0; Resume 1]%nat.

(** The first invocation runs up to its send and is never resumed: the
    explicit release does not happen. *)
Definition parked : list Step :=
  [Resume 0; Resume 0; Resume 0; Resume 0; Resume 0]%nat.

(** The second invocation starts only once the first is parked on its
    send, holding the marker. *)
Definition staggered : list Step :=
  [Resume 0; Resume 0; Resume 0; Resume 0; Resume 0;
   Resume 1; Resume 1; Resume 1; Resume 1; Resume 0]%nat.

Definition idle (t : Z) : World :=
  {| repliedChats := ∅; processingMessages := ∅; timeouts := []; now := t;
     calls := [] |}.

(** A service environment: accounts 1 and 2 are enabled, every connect
    registers a live client, every call succeeds, [Math.random()] keeps
    returning 1/2 and a walk takes 300 ms. *)
Definition calm : Service.Env :=
  {| Service.random := fun _ => (1 # 2)%Q;
     Service.enabledAccounts := Returned [1; 2];
     Service.connectAccount :=
       fun _ _ => Returned (Service.Registered {| Service.connected := true |});
     Service.updateStatus := fun _ _ _ => Returned tt;
     Service.verifyHandlerRegistered := fun _ _ => true;
     Service.setupAutoReply := fun _ _ => Returned tt;
     Service.walkDuration := fun _ => 300%N |}.

(** Nothing works: every status update and every connect throws. *)
Definition stormy : Service.Env :=
  {| Service.random := fun _ => (1 # 2)%Q;
     Service.enabledAccounts := Returned [1; 2];
     Service.connectAccount := fun _ _ => Threw;
     Service.updateStatus := fun _ _ _ => Threw;
     Service.verifyHandlerRegistered := fun _ _ => false;
     Service.setupAutoReply := fun _ _ => Threw;
     Service.walkDuration := fun _ => 300%N |}.

(** A registry with a live session, a dropped one and another live one. *)
Definition session (id : Z) (live : bool) : Z * Service.Account :=
  (id, {| Service.client := Some {| Service.connected := live |};
          Service.accountId := id; Service.lastHealthCheck := 0 |}).

Definition registry : list (Z * Service.Account) :=
  [session 1 true; session 2 false; session 3 true].

End Scenario.

(* ===================================================================== *)
(** ** Store keys and justified sends *)
(* ===================================================================== *)

Module Keys.

(** Does the character [c] stay out of [s]? *)
Fixpoint avoids (c : ascii) (s : string) : bool :=
  match s with
  | EmptyString => true
  | String x s' => negb (Ascii.eqb x c) && avoids c s'
  end.

End Keys.

Module Dispatch.
Import Js Handler.

(** The message passed the screening at the head of the handler. *)
Definition Screened (tr : Transport) (m : Message) (me : Me) : Prop :=
  msg_out m = false ∧ getMe tr = Returned me
  ∧ isMessageFromSelf m (me_id me) = false
  ∧ isSenderBot tr m = false ∧ textIsEmpty m = false.

(** A send that the event, the chat and the settings account for: the
    direct-message text to a configured [User] chat, or the group text
    to a configured group chat whose message mentions the session or
    replies to it; in both cases without [replyTo]. *)
Definition Justified (tr : Transport) (accountId : Z) (event : option Message)
    (chat : Chat) (opts : SendOptions) : Prop :=
  ∃ m me settings,
    event = Some m ∧ Screened tr m me
    ∧ getChat tr m = Returned (Some chat)
    ∧ getAccountSettings tr accountId = Returned (Some settings)
    ∧ (dmConfigured chat settings = true ∧ opts = dmOptions settings
       ∨ dmConfigured chat settings = false ∧ groupConfigured chat settings = true
         ∧ isAccountMentioned m (me_id me) (me_username me) || isReplyToAccount tr m = true
         ∧ opts = groupOptions settings).

(** What the calls [l] issued so far must look like for an invocation
    on [event] that is parked as [t]. *)
Definition Trail (tr : Transport) (accountId : Z) (event : option Message)
    (t : Task) (l : list (Z * Request)) : Prop :=
  match t with
  | Invoked ev => ev = event ∧ l = []
  | AwaitGetMe m => event = Some m ∧ msg_out m = false ∧ replies l = []
  | AwaitIsSenderBot m me =>
      event = Some m ∧ msg_out m = false ∧ getMe tr = Returned me
      ∧ isMessageFromSelf m (me_id me) = false ∧ replies l = []
  | AwaitGetChat m me => event = Some m ∧ Screened tr m me ∧ replies l = []
  | AwaitGetAccountSettings m me chat _ _ =>
      event = Some m ∧ Screened tr m me
      ∧ getChat tr m = Returned (Some chat) ∧ replies l = []
  | AwaitIsAccountMentioned m me chat _ _ settings =>
      event = Some m ∧ Screened tr m me
      ∧ getChat tr m = Returned (Some chat)
      ∧ getAccountSettings tr accountId = Returned (Some settings)
      ∧ dmConfigured chat settings = false ∧ groupConfigured chat settings = true
      ∧ replies l = []
  | AwaitIsReplyToAccount m me chat _ _ settings isMentioned =>
      event = Some m ∧ Screened tr m me
      ∧ getChat tr m = Returned (Some chat)
      ∧ getAccountSettings tr accountId = Returned (Some settings)
      ∧ dmConfigured chat settings = false ∧ groupConfigured chat settings = true
      ∧ isMentioned = isAccountMentioned m (me_id me) (me_username me)
      ∧ replies l = []
  | AwaitSendDm chat _ _ opts | AwaitSendGroup chat _ _ opts =>
      replies l = [(accountId, SendMessage chat opts)]
      ∧ Justified tr accountId event chat opts
  | Finished =>
      replies l = []
      ∨ ∃ chat opts, replies l = [(accountId, SendMessage chat opts)]
                     ∧ Justified tr accountId event chat opts
  end.

End Dispatch.

(* ===================================================================== *)
(** ** The polling service *)
(* ===================================================================== *)

Module Poller.
Import Js Handler.

Definition MIN_DELAY_SECONDS : Z := 2.
Definition MAX_DELAY_SECONDS : Z := 10.

(** [Math.floor(Math.random() * (maxMs - minMs + 1)) + minMs], for the
    value [random] that [Math.random()] returned. *)
Definition getRandomDelay (random : Q) : Z :=
  let minMs := MIN_DELAY_SECONDS * 1000 in
  let maxMs := MAX_DELAY_SECONDS * 1000 in
  Qfloor (random * inject_Z (maxMs - minMs + 1)) + minMs.

(** *** Last seen messages

    [lastSeenMessages] is a [Map] from ["accountId_chatId"] to a message
    id, kept here in insertion order. The chat id is a number, [None]
    standing for [NaN] (a chat without an id); the stored value is
    whatever [lastMessage.id] was, [None] standing for [undefined].
    Numbers print as their decimal digits (ids stay below 10^21). *)
Definition numberToString (x : option Z) : string :=
  match x with
  | Some z => pretty z
  | None => "NaN"
  end.

Definition Seen : Type := list (string * option Z).

Fixpoint seenSet (k : string) (v : option Z) (m : Seen) : Seen :=
  match m with
  | [] => [(k, v)]
  | (k', v') :: m' =>
      if String.eqb k' k then (k, v) :: m' else (k', v') :: seenSet k v m'
  end.

Fixpoint seenGet (k : string) (m : Seen) : option (option Z) :=
  match m with
  | [] => None
  | (k', v') :: m' => if String.eqb k' k then Some v' else seenGet k m'
  end.

Definition lastSeenKey (accountId : Z) (chatId : option Z) : string :=
  getChatKey accountId (numberToString chatId).

(** [this.lastSeenMessages.get(key) || 0] *)
Definition getLastSeenMessageId (accountId : Z) (chatId : option Z) (seen : Seen) : Z :=
  match seenGet (lastSeenKey accountId chatId) seen with
  | Some (Some v) => v
  | _ => 0
  end.

(** Past 500 entries the map is rebuilt from its last 250. *)
Definition setLastSeenMessageId (accountId : Z) (chatId : option Z)
    (messageId : option Z) (seen : Seen) : Seen :=
  let seen1 := seenSet (lastSeenKey accountId chatId) messageId seen in
  if (500 <? length seen1)%nat then
    let entries := drop (length seen1 - 250) seen1 in
    foldl (fun m e => seenSet (fst e) (snd e) m) [] entries
  else seen1.

(** *** One dialog of a poll *)

(** [toLowerCase] on code units. Outside ASCII only the two code units
    that lower-case into ASCII are mapped (U+0130 to [i] and a combining
    dot, U+212A to [k]); any other is kept as it is, so the result of
    comparing with, or searching for, an ASCII string is the one
    JavaScript gives. *)
Definition lower (c : N) : list N :=
  if ((65 <=? c) && (c <=? 90))%N then [(c + 32)%N]
  else if (c =? 304)%N then [105; 775]%N
  else if (c =? 8490)%N then [107%N]
  else [c].

Definition toLowerCase (s : list N) : list N := flat_map lower s.

Fixpoint startsWith (needle s : list N) : bool :=
  match needle, s with
  | [], _ => true
  | _ :: _, [] => false
  | x :: needle', y :: s' => (x =? y)%N && startsWith needle' s'
  end.

(** [s.includes(needle)] *)
Fixpoint includes (needle s : list N) : bool :=
  startsWith needle s
  || match s with
     | [] => false
     | _ :: s' => includes needle s'
     end.

(** [s.substring(offset, offset + length)] *)
Definition substring (offset length : nat) (s : list N) : list N :=
  take length (drop offset s).

(** What one iteration of the loop over the dialogs is given: the
    answers of the calls it awaits, where each entity of the last
    message lies in the text (offset and length, in the order of the
    entities; a missing one reads as 0), whether the client is connected
    when the reply is due, and the random number of the delay. *)
Record Dialog : Type := {
  dialog_chat : Outcome (option Chat);
  dialog_messages : Outcome (option (list Message));
  dialog_extents : list (nat * nat);
  dialog_replied : Outcome (option Message);
  dialog_connected : bool;
  dialog_connect : Outcome unit;
  dialog_random : Q
}.

(** A call of [client.sendMessage], with the delay waited before it. *)
Record Sent : Type := {
  sent_delay : Z;
  sent_chat : Chat;
  sent_options : SendOptions
}.

Definition isDM (chat : Chat) : bool := String.eqb (chat_className chat) "User".

(** Unlike the handler, the poller does not take a plain [Channel] for a
    group. *)
Definition isGroup (chat : Chat) : bool :=
  String.eqb (chat_className chat) "Chat" || chat_megagroup chat || chat_gigagroup chat.

(** [settings.autoReplyDmEnabled && settings.autoReplyDmMessage] *)
Definition hasDmReply (settings : Settings) : bool :=
  autoReplyDmEnabled settings && truthy (autoReplyDmMessage settings).

Definition hasGroupReply (settings : Settings) : bool :=
  autoReplyGroupsEnabled settings && truthy (autoReplyGroupsMessage settings).

(** [Number(chat.id)] *)
Definition chatNumber (chat : Chat) : option Z :=
  match chat_id chat with
  | Some x => Some (toNumber x)
  | None => None
  end.

(** [Number(lastMessage.fromId.userId || lastMessage.fromId) === meId];
    a peer without a truthy [userId] converts to [NaN]. *)
Definition fromSelf (m : Message) (meId : Z) : bool :=
  match msg_fromId m with
  | Some p =>
      match userId p with
      | Some u => truthyId u && (toNumber u =? meId)
      | None => false
      end
  | None => false
  end.

Definition senderIsBot (m : Message) : bool :=
  match msg_sender m with
  | Some sender => bot sender
  | None => false
  end.

(** The body of the loop over [lastMessage.entities]. *)
Definition entityNames (meId : Z) (needle text : list N)
    (e : MessageEntity) (extent : nat * nat) : bool :=
  String.eqb (entity_className e) "MessageEntityMention"
  && truthy (Some text)
  && bool_decide (toLowerCase (substring (fst extent) (snd extent) text) = needle)
  || String.eqb (entity_className e) "MessageEntityMentionName"
     && match entity_userId e with
        | Some u => truthyId u && (toNumber u =? meId)
        | None => false
        end.

Fixpoint anyEntity (meId : Z) (needle text : list N)
    (es : list MessageEntity) (extents : list (nat * nat)) : bool :=
  match es with
  | [] => false
  | e :: es' =>
      entityNames meId needle text e (List.hd (0%nat, 0%nat) extents)
      || anyEntity meId needle text es' (List.tl extents)
  end.

(** [`@${me.username.toLowerCase()}`] *)
Definition atName (username : list N) : list N := 64%N :: toLowerCase username.

Definition mentioned (d : Dialog) (me : Me) (m : Message) : bool :=
  let meId := toNumber (me_id me) in
  let text := default [] (msg_text m) in
  match me_username me with
  | Some username =>
      truthy (Some username)
      && (match msg_entities m with
          | Some es => anyEntity meId (atName username) text es (dialog_extents d)
          | None => false
          end
          || truthy (msg_text m) && includes (atName username) (toLowerCase text))
  | None => false
  end.

(** [replyMsg && replyMsg.out === true], [false] when the fetch throws. *)
Definition repliesToOwn (d : Dialog) (m : Message) : bool :=
  (msg_replyTo m || truthyNumber (msg_replyToMsgId m))
  && match dialog_replied d with
     | Returned (Some replyMsg) => msg_out replyMsg
     | _ => false
     end.

Definition shouldReply (d : Dialog) (me : Me) (m : Message) : bool :=
  mentioned d me m || repliesToOwn d m.

(** [sendReplyWithDelay]: the send is made unless the client is
    disconnected and cannot reconnect; whatever the send throws is
    swallowed. *)
Definition deliver (d : Dialog) (chat : Chat) (opts : SendOptions) : list Sent :=
  let sent := {| sent_delay := getRandomDelay (dialog_random d);
                 sent_chat := chat; sent_options := opts |} in
  if dialog_connected d then [sent]
  else match dialog_connect d with
       | Returned _ => [sent]
       | Threw => []
       end.

(** [messageId <= lastSeenId]; [undefined] compares [false]. *)
Definition alreadySeen (messageId : option Z) (lastSeenId : Z) : bool :=
  match messageId with
  | Some n => n <=? lastSeenId
  | None => false
  end.

(** One iteration of the [for] loop of [pollAccount]; whatever it throws
    is caught and the loop goes on. *)
Definition pollDialog (accountId : Z) (settings : Settings) (me : Me)
    (d : Dialog) (seen : Seen) : Seen * list Sent :=
  match dialog_chat d with
  | Threw | Returned None => (seen, [])
  | Returned (Some chat) =>
      if isDM chat && negb (hasDmReply settings) then (seen, [])
      else if isGroup chat && negb (hasGroupReply settings) then (seen, [])
      else if negb (isDM chat) && negb (isGroup chat) then (seen, [])
      else
        let meId := toNumber (me_id me) in
        let chatId := chatNumber chat in
        if bool_decide (chatId = Some meId) then (seen, [])
        else
          match dialog_messages d with
          | Threw | Returned None | Returned (Some []) => (seen, [])
          | Returned (Some (lastMessage :: _)) =>
              let messageId := msg_id lastMessage in
              let lastSeenId := getLastSeenMessageId accountId chatId seen in
              if alreadySeen messageId lastSeenId then (seen, [])
              else
                let seen1 := setLastSeenMessageId accountId chatId messageId seen in
                if msg_out lastMessage then (seen1, [])
                else if textIsEmpty lastMessage then (seen1, [])
                else if fromSelf lastMessage meId then (seen1, [])
                else if senderIsBot lastMessage then (seen1, [])
                else if isDM chat
                then (seen1, deliver d chat (Polling.dmReply settings))
                else if isGroup chat && shouldReply d me lastMessage
                then (seen1, deliver d chat (Polling.groupReply settings lastMessage))
                else (seen1, [])
          end
  end.

(** The loop over the dialogs. *)
Fixpoint pollDialogs (accountId : Z) (settings : Settings) (me : Me)
    (ds : list Dialog) (seen : Seen) : Seen * list Sent :=
  match ds with
  | [] => (seen, [])
  | d :: ds' =>
      let '(seen1, sent1) := pollDialog accountId settings me d seen in
      let '(seen2, sent2) := pollDialogs accountId settings me ds' seen1 in
      (seen2, sent1 ++ sent2)
  end.

(** What one poll of an account is answered from outside. *)
Record Feed : Type := {
  feed_settings : Outcome (option Settings);
  feed_rows : Outcome (list Z);
  feed_client : Outcome (option Service.Client);
  feed_me : Outcome Me;
  feed_dialogs : Outcome (list Dialog)
}.

Record Polled : Type := {
  polled_seen : Seen;
  polled_sent : list Sent;
  polled_stop : bool
}.

Definition idlePoll (seen : Seen) (stop : bool) : Polled :=
  {| polled_seen := seen; polled_sent := []; polled_stop := stop |}.

(** [pollAccount]; [polled_stop] tells that it called [stopPolling] for
    the account. *)
Definition pollAccount (accountId : Z) (f : Feed) (seen : Seen) : Polled :=
  match feed_settings f with
  | Threw | Returned None => idlePoll seen false
  | Returned (Some settings) =>
      if negb (hasDmReply settings) && negb (hasGroupReply settings)
      then idlePoll seen true
      else
        match feed_rows f with
        | Threw | Returned [] => idlePoll seen false
        | Returned (_ :: _) =>
            match feed_client f with
            | Threw | Returned None => idlePoll seen false
            | Returned (Some client) =>
                if negb (Service.connected client) then idlePoll seen false
                else
                  match feed_me f, feed_dialogs f with
                  | Returned me, Returned ds =>
                      let '(seen1, sent) := pollDialogs accountId settings me ds seen in
                      {| polled_seen := seen1; polled_sent := sent; polled_stop := false |}
                  | _, _ => idlePoll seen false
                  end
            end
        end
  end.

(** *** Polling intervals

    [pollingAccounts] maps an account to the handle of its interval;
    [intervals] are the armed [setInterval] timers (handle and account),
    [polls] the immediate polls requested. *)
Record Schedule : Type := {
  pollingAccounts : list (Z * nat);
  intervals : list (nat * Z);
  nextHandle : nat;
  polls : list Z
}.

Definition initial : Schedule :=
  {| pollingAccounts := []; intervals := []; nextHandle := 0; polls := [] |}.

Definition handleOf (accountId : Z) (s : Schedule) : option nat :=
  snd <$> List.find (fun e => fst e =? accountId) (pollingAccounts s).

Definition stopPolling (accountId : Z) (s : Schedule) : Schedule :=
  match handleOf accountId s with
  | Some intervalId =>
      {| pollingAccounts :=
           List.filter (fun e => negb (fst e =? accountId)) (pollingAccounts s);
         intervals := List.filter (fun t => negb (fst t =? intervalId)%nat) (intervals s);
         nextHandle := nextHandle s; polls := polls s |}
  | None => s
  end.

Fixpoint assign (accountId : Z) (h : nat) (m : list (Z * nat)) : list (Z * nat) :=
  match m with
  | [] => [(accountId, h)]
  | (k, v) :: m' =>
      if k =? accountId then (accountId, h) :: m' else (k, v) :: assign accountId h m'
  end.

Definition startPolling (accountId : Z) (s : Schedule) : Schedule :=
  let s1 := stopPolling accountId s in
  let intervalId := nextHandle s1 in
  {| pollingAccounts := assign accountId intervalId (pollingAccounts s1);
     intervals := intervals s1 ++ [(intervalId, accountId)];
     nextHandle := S intervalId;
     polls := polls s1 ++ [accountId] |}.

(** [connectAccount] of the polling service: [false] without settings
    or without a configured reply. *)
Definition connectAccount (settings : option Settings) (accountId : Z) (s : Schedule)
    : bool * Schedule :=
  match settings with
  | None => (false, s)
  | Some st =>
      if hasDmReply st || hasGroupReply st then (true, startPolling accountId s)
      else (false, stopPolling accountId s)
  end.

Definition disconnectAccount (accountId : Z) (s : Schedule) : Schedule :=
  stopPolling accountId s.

(** [stop]: every polled account is stopped. *)
Definition stop (s : Schedule) : Schedule :=
  foldl (fun acc e => stopPolling (fst e) acc) s (pollingAccounts s).

(** [refresh] for the rows the query returned: accounts that are no
    longer enabled are stopped, enabled ones not yet polled are
    started. *)
Definition refresh (rows : list Z) (s : Schedule) : Schedule :=
  let s1 :=
    foldl (fun acc e =>
             if existsb (fun r => r =? fst e) rows then acc
             else stopPolling (fst e) acc) s (pollingAccounts s) in
  foldl (fun acc r =>
           if existsb (fun e => fst e =? r) (pollingAccounts acc) then acc
           else startPolling r acc) s1 rows.

(** [start] for the rows the query returned. *)
Definition start (rows : list Z) (s : Schedule) : Schedule :=
  foldl (fun acc r => startPolling r acc) s rows.

(** The accounts being polled. *)
Definition polled (s : Schedule) : list Z := map fst (pollingAccounts s).

(** The calls the supervisor makes on the polling service. *)
Inductive Command : Type :=
  | Start (rows : list Z)
  | Stop
  | Refresh (rows : list Z)
  | Connect (settings : option Settings) (accountId : Z)
  | Disconnect (accountId : Z).

Definition command (c : Command) (s : Schedule) : Schedule :=
  match c with
  | Start rows => start rows s
  | Stop => stop s
  | Refresh rows => refresh rows s
  | Connect settings accountId => snd (connectAccount settings accountId s)
  | Disconnect accountId => disconnectAccount accountId s
  end.

(** One armed interval per polled account, under the handle on record,
    and no other interval. *)
Definition Tidy (s : Schedule) : Prop :=
  NoDup (map fst (pollingAccounts s))
  ∧ NoDup (map fst (intervals s))
  ∧ (∀ h a, In (h, a) (intervals s) ↔ In (a, h) (pollingAccounts s))
  ∧ (∀ h a, In (h, a) (intervals s) → (h < nextHandle s)%nat).

(** The store as the service keeps it: one entry per key, at most 500. *)
Definition Sane (seen : Seen) : Prop :=
  NoDup (map fst seen) ∧ (length seen <= 500)%nat.

(** The chat and the last message of a dialog that reaches the
    comparison with the last seen id: the chat is of a kind with a
    configured reply, is not Saved Messages, and has a last message. *)
Definition candidate (settings : Settings) (me : Me) (d : Dialog)
    : option (Chat * Message) :=
  match dialog_chat d with
  | Returned (Some chat) =>
      if isDM chat && negb (hasDmReply settings)
         || isGroup chat && negb (hasGroupReply settings)
         || negb (isDM chat) && negb (isGroup chat)
         || bool_decide (chatNumber chat = Some (toNumber (me_id me)))
      then None
      else match dialog_messages d with
           | Returned (Some (lastMessage :: _)) => Some (chat, lastMessage)
           | _ => None
           end
  | _ => None
  end.

(** The id on record under a key, 0 without one. *)
Definition seenValue (k : string) (seen : Seen) : Z :=
  match seenGet k seen with
  | Some (Some v) => v
  | _ => 0
  end.

(** No id on record in the first store is above the one in the second. *)
Definition below (seen seen' : Seen) : Prop :=
  ∀ k, seenValue k seen <= seenValue k seen'.

(** The dialog has nothing new for the store: it does not reach the
    comparison, or its last message is at or below the id on record. *)
Definition Settled (accountId : Z) (settings : Settings) (me : Me)
    (d : Dialog) (seen : Seen) : Prop :=
  match candidate settings me d with
  | Some (chat, m) =>
      alreadySeen (msg_id m) (getLastSeenMessageId accountId (chatNumber chat) seen) = true
  | None => True
  end.

(** Every last message carries an id. *)
Definition Numbered (settings : Settings) (me : Me) (ds : list Dialog) : Prop :=
  ∀ d chat m, In d ds → candidate settings me d = Some (chat, m) → msg_id m ≠ None.

(** A send the dialog accounts for: a new inbound message with text,
    not the session's own and not a bot's, answered with the
    direct-message text in a [User] chat and, in a group chat, with the
    group text as a reply to the message that mentions the session or
    replies to an outgoing message. *)
Definition Due (accountId : Z) (settings : Settings) (me : Me)
    (d : Dialog) (seen : Seen) (x : Sent) : Prop :=
  ∃ chat m,
    candidate settings me d = Some (chat, m)
    ∧ alreadySeen (msg_id m) (getLastSeenMessageId accountId (chatNumber chat) seen) = false
    ∧ msg_out m = false ∧ textIsEmpty m = false
    ∧ fromSelf m (toNumber (me_id me)) = false ∧ senderIsBot m = false
    ∧ sent_chat x = chat
    ∧ sent_delay x = getRandomDelay (dialog_random d)
    ∧ (isDM chat = true ∧ hasDmReply settings = true
       ∧ sent_options x = {| message := default [] (autoReplyDmMessage settings);
                             replyTo := None |}
       ∨ isDM chat = false ∧ isGroup chat = true ∧ hasGroupReply settings = true
         ∧ shouldReply d me m = true
         ∧ sent_options x = {| message := default [] (autoReplyGroupsMessage settings);
                               replyTo := Some m |}).

End Poller.

(* ===================================================================== *)
(** ** The registry of connected accounts *)
(* ===================================================================== *)

Module Registry.
Import Js Service.

(** What [connectAccount] and [disconnectAccount] do outside the
    registry, recorded with the time of the call. Handler calls are
    recorded under the account whose client they act on. *)
Inductive Effect : Type :=
  | AskSettings (accountId : Z)
  | AskOwner (accountId : Z)
  | Link (userId : option Z) (accountId : Z)
  | Unhook (accountId : Z)
  | Hook (accountId : Z)
  | ListHandlers (accountId : Z)
  | Offline (accountId : Z).

(** The collaborators: the settings service, the [accounts] table (the
    [user_id] of each row found, or no [rows] at all), the account
    linker, and the client's handler and status calls. Each is asked at
    the time of the call and may throw; [took] is how long an awaited
    call takes. *)
Record Backend : Type := {
  settingsAt : Z -> Z -> Outcome (option Handler.Settings);
  ownerAt : Z -> Z -> Outcome (option (list (option Z)));
  linkAt : Z -> option Z -> Z -> Outcome (option Client);
  hookAt : Z -> Z -> Outcome unit;
  listedAt : Z -> Z -> Outcome (option nat);
  statusAt : Z -> Z -> Outcome unit;
  took : Effect -> N
}.

(** The registry, the clock and the record of effects. The [userId] and
    [lastActivity] fields of an entry are written and never read; they
    are left out. *)
Record State : Type := {
  accounts : list (Z * Account);
  time : Z;
  effects : list (Z * Effect)
}.

(** A computation that may throw; the state survives the throw. *)
Definition M (A : Type) : Type := State -> Outcome A * State.

Definition ret {A} (a : A) : M A := fun st => (Returned a, st).

Definition throw {A} : M A := fun st => (Threw, st).

Definition bind {A B} (m : M A) (f : A -> M B) : M B :=
  fun st =>
    match m st with
    | (Returned a, st1) => f a st1
    | (Threw, st1) => (Threw, st1)
    end.

(** [try { m } catch { handler }] *)
Definition try {A} (m : M A) (handler : M A) : M A :=
  fun st =>
    match m st with
    | (Returned a, st1) => (Returned a, st1)
    | (Threw, st1) => handler st1
    end.

Notation "x <- m ;; f" := (bind m (fun x => f))
  (at level 100, m at next level, right associativity).
Notation "m ;;; f" := (bind m (fun _ => f))
  (at level 100, right associativity).

Definition note (e : Effect) : M unit :=
  fun st =>
    (Returned tt,
     {| accounts := accounts st; time := time st;
        effects := effects st ++ [(time st, e)] |}).

(** [await new Promise(resolve => setTimeout(resolve, ms))] *)
Definition sleep (ms : N) : M unit :=
  fun st =>
    (Returned tt,
     {| accounts := accounts st; time := time st + Z.of_N ms;
        effects := effects st |}).

(** An awaited call: recorded, answered as of the time it is made, and
    resumed once it has taken its time. *)
Definition await {A} (b : Backend) (e : Effect) (answer : Z -> Outcome A) : M A :=
  fun st =>
    match note e st with
    | (_, st1) =>
        match sleep (took b e) st1 with
        | (_, st2) => (answer (time st), st2)
        end
    end.

Definition mapGet (k : Z) (m : list (Z * Account)) : option Account :=
  snd <$> List.find (fun e => fst e =? k) m.

Definition update (f : list (Z * Account) -> list (Z * Account)) : M unit :=
  fun st =>
    (Returned tt,
     {| accounts := f (accounts st); time := time st; effects := effects st |}).

(** [removeAutoReply(client)]: nothing without a client; errors of the
    handler calls are swallowed inside. *)
Definition removeAutoReply (client : option Client) (accountId : Z) : M unit :=
  match client with
  | Some _ => note (Unhook accountId)
  | None => ret tt
  end.

(** [setupAutoReply(client, accountId)]: the old handlers are removed,
    then [addEventHandler] is called, which may throw. *)
Definition setupAutoReply (b : Backend) (client : option Client) (accountId : Z)
    : M unit :=
  match client with
  | Some _ =>
      removeAutoReply client accountId ;;;
      await b (Hook accountId) (fun t => hookAt b t accountId)
  | None => ret tt
  end.

(** [handlers && handlers.length > 0], [false] when listing throws. *)
Definition verifyHandlerRegistered (b : Backend) (accountId : Z) : M bool :=
  try (handlers <- await b (ListHandlers accountId) (fun t => listedAt b t accountId) ;;
       ret match handlers with
           | Some (S _) => true
           | _ => false
           end)
      (ret false).

Definition invoke (b : Backend) (accountId : Z) : M unit :=
  await b (Offline accountId) (fun t => statusAt b t accountId).

(** Three status updates, 100 ms and 50 ms apart; the first that
    throws ends the attempt and the error is swallowed. *)
Definition setOfflineStatus (b : Backend) (client : option Client) (accountId : Z)
    : M unit :=
  try (match client with
       | Some c =>
           if connected c then
             invoke b accountId ;;; sleep 100 ;;;
             invoke b accountId ;;; sleep 50 ;;;
             invoke b accountId
           else ret tt
       | None => ret tt
       end)
      (ret tt).

Definition disconnectAccount (accountId : Z) : M unit :=
  fun st =>
    match mapGet accountId (accounts st) with
    | Some account =>
        (try (removeAutoReply (client account) accountId) (ret tt) ;;;
         update (mapDelete accountId)) st
    | None => (Returned tt, st)
    end.

(** [enabled && message && message.trim().length > 0] *)
Definition hasReply (enabled : bool) (text : option (list N)) : bool :=
  enabled && truthy text
  && match text with
     | Some s => (0 <? length (trim s))%nat
     | None => false
     end.

Definition hasAutoReply (settings : Handler.Settings) : bool :=
  hasReply (Handler.autoReplyDmEnabled settings) (Handler.autoReplyDmMessage settings)
  || hasReply (Handler.autoReplyGroupsEnabled settings)
       (Handler.autoReplyGroupsMessage settings).

(** The handler registration of [connectAccount]: set up, verify, and
    on a failed verification wait, set up and verify once more; a second
    failure throws. *)
Definition register (b : Backend) (client : option Client) (accountId : Z) : M unit :=
  setupAutoReply b client accountId ;;;
  handlerExists <- verifyHandlerRegistered b accountId ;;
  if handlerExists then ret tt
  else
    sleep 200 ;;;
    setupAutoReply b client accountId ;;;
    handlerExists <- verifyHandlerRegistered b accountId ;;
    if handlerExists then ret tt else throw.

Definition entry (client : option Client) (accountId : Z) : M unit :=
  fun st =>
    update (mapSet accountId {| client := client; accountId := accountId;
                                lastHealthCheck := time st |}) st.

(** The part of [connectAccount] that follows the settings check. *)
Definition attach (b : Backend) (accountId : Z) (client : option Client) : M bool :=
  setOfflineStatus b client accountId ;;;
  try (removeAutoReply client accountId ;;; sleep 100) (ret tt) ;;;
  register b client accountId ;;;
  setOfflineStatus b client accountId ;;;
  entry client accountId ;;;
  ret true.

Definition obtain (b : Backend) (accountId : Z) (userId : option Z)
    (existing : option Account) : M (option Client) :=
  match existing with
  | Some account =>
      if isConnected account then
        try (removeAutoReply (client account) accountId) (ret tt) ;;;
        ret (client account)
      else await b (Link userId accountId) (fun t => linkAt b t userId accountId)
  | None => await b (Link userId accountId) (fun t => linkAt b t userId accountId)
  end.

Definition live (client : option Client) : bool :=
  match client with
  | Some c => connected c
  | None => false
  end.

Definition connectAccount (b : Backend) (accountId : Z) : M bool :=
  try (settings <- await b (AskSettings accountId) (fun t => settingsAt b t accountId) ;;
       match settings with
       | None => disconnectAccount accountId ;;; ret false
       | Some settings =>
           if negb (hasAutoReply settings)
           then disconnectAccount accountId ;;; ret false
           else
             rows <- await b (AskOwner accountId) (fun t => ownerAt b t accountId) ;;
             match rows with
             | None | Some [] => disconnectAccount accountId ;;; ret false
             | Some (userId :: _) =>
                 fun st =>
                   (client <- obtain b accountId userId (mapGet accountId (accounts st)) ;;
                    if live client then attach b accountId client
                    else ret false) st
             end
       end)
      (try (disconnectAccount accountId) (ret tt) ;;; ret false).

(** What a call left behind, and what it recorded. *)
Definition after {A} (m : M A) (st : State) : State := snd (m st).

Definition recorded {A} (m : M A) (st : State) : list (Z * Effect) :=
  drop (length (effects st)) (effects (after m st)).

Definition isLink (e : Z * Effect) : bool :=
  match snd e with
  | Link _ _ => true
  | _ => false
  end.

(** The calls the supervisor and the loops make on the registry. *)
Inductive Command : Type :=
  | Connect (b : Backend) (accountId : Z)
  | Disconnect (accountId : Z).

Definition command (c : Command) (st : State) : State :=
  match c with
  | Connect b accountId => after (connectAccount b accountId) st
  | Disconnect accountId => after (disconnectAccount accountId) st
  end.

Definition empty (t : Z) : State := {| accounts := []; time := t; effects := [] |}.

(** A computation that leaves the registry alone, lets time pass and
    records only effects that satisfy [P]. *)
Definition Keeps {A} (P : Effect -> Prop) (m : M A) : Prop :=
  ∀ st, accounts (snd (m st)) = accounts st
        ∧ time st <= time (snd (m st))
        ∧ ∃ l, effects (snd (m st)) = effects st ++ l ∧ Forall (fun e => P (snd e)) l.

Definition notLink (e : Effect) : Prop :=
  match e with
  | Link _ _ => False
  | _ => True
  end.

(** The handler of the account was listed, not empty, at some time
    between [t0] and [t1]. *)
Definition Verified (b : Backend) (accountId : Z) (t0 t1 : Z) : Prop :=
  ∃ t n, t0 <= t ∧ t <= t1 ∧ listedAt b t accountId = Returned (Some (S n)).

(** What a call of [connectAccount] amounts to. *)
Definition Outcome_of (b : Backend) (id : Z) (st : State) (r : Outcome bool)
    (st' : State) : Prop :=
  time st <= time st'
  ∧ ∃ (c : Connected) l,
      r = Returned (match c with Registered _ => true | _ => false end)
      ∧ accounts st' = applyConnected id (time st') c (accounts st)
      ∧ effects st' = effects st ++ l
      ∧ (∀ cl, c = Registered cl →
           connected cl = true ∧ Verified b id (time st) (time st')
           ∧ ∃ s, settingsAt b (time st) id = Returned (Some s) ∧ hasAutoReply s = true)
      ∧ (∀ acc, mapGet id (accounts st) = Some acc → isConnected acc = true →
           Forall (fun e => notLink (snd e)) l
           ∧ ∀ cl, c = Registered cl → client acc = Some cl).

End Registry.

(* ===================================================================== *)
(** ** Concrete stores, feeds and backends *)
(* ===================================================================== *)

Module Examples.
Import Js Handler Poller Scenario.

(** A full last-seen store: chats 0 to 499 of account 1, each seen up
    to message 5. *)
Definition crowded : Seen :=
  map (fun i => (lastSeenKey 1 (Some (Z.of_nat i)), Some 5)) (seq 0 500).

(** A dialog whose chat and last message are fetched without trouble,
    polled over a connected client. *)
Definition dialogOf (chat : Chat) (m : Message) : Dialog :=
  {| dialog_chat := Returned (Some chat);
     dialog_messages := Returned (Some [m]);
     dialog_extents := [];
     dialog_replied := Returned None;
     dialog_connected := true;
     dialog_connect := Returned tt;
     dialog_random := (1 # 2)%Q |}.

(** One poll of an account of user 77, session [@alice], both replies
    configured. *)
Definition feedOf (ds : list Dialog) : Feed :=
  {| feed_settings := Returned (Some settings);
     feed_rows := Returned [77];
     feed_client := Returned (Some {| Service.connected := true |});
     feed_me := Returned alice;
     feed_dialogs := Returned ds |}.

(** A backend where everything works: account settings as in
    [settings], owner 77, a linker that connects, a handler that is
    listed once set up; every awaited call takes 20 ms. *)
Definition steady : Registry.Backend :=
  {| Registry.settingsAt := fun _ _ => Returned (Some settings);
     Registry.ownerAt := fun _ _ => Returned (Some [Some 77]);
     Registry.linkAt := fun _ _ _ => Returned (Some {| Service.connected := true |});
     Registry.hookAt := fun _ _ => Returned tt;
     Registry.listedAt := fun _ _ => Returned (Some 1%nat);
     Registry.statusAt := fun _ _ => Returned tt;
     Registry.took := fun _ => 20%N |}.

(** A registry that holds account 5 with a live client. *)
Definition attached : Registry.State :=
  {| Registry.accounts := [session 5 true]; Registry.time := 1000;
     Registry.effects := [] |}.

End Examples.

(* ===================================================================== *)
(** ** Stopping and restarting the service *)
(* ===================================================================== *)

Module Lifecycle.
Import Js Service.

Definition set_handles (offline health : option nat) (rt : Runtime) : Runtime :=
  {| connectedAccounts := connectedAccounts rt;
     offlineInterval := offline;
     healthCheckInterval := health;
     timers := timers rt; nextTimerId := nextTimerId rt; clock := clock rt;
     randoms := randoms rt; walks := walks rt; log := log rt |}.

Definition hasClient (e : Z * Account) : bool :=
  match client (snd e) with
  | Some _ => true
  | None => false
  end.

(** [stop] of the event-driven service: the timer behind each handle is
    cleared and the handle dropped, then every entry of the registry is
    disconnected and the registry emptied. The second component lists
    the accounts whose client had its handlers removed on the way. *)
Definition stop (rt : Runtime) : Runtime * list Z :=
  let rt1 := match offlineInterval rt with
             | Some handle => set_handles None (healthCheckInterval rt) (clearTimer handle rt)
             | None => rt
             end in
  let rt2 := match healthCheckInterval rt1 with
             | Some handle => set_handles (offlineInterval rt1) None (clearTimer handle rt1)
             | None => rt1
             end in
  (set_accounts (fun _ => []) rt2,
   map fst (List.filter hasClient (connectedAccounts rt))).

(** Timer ids are handed out in increasing order, and the handle the
    service keeps for the offline loop never names the pending rest of a
    walk: that entry is created by the callback of the timer the handle
    names. *)
Definition Handles (rt : Runtime) : Prop :=
  (∀ t, In t (timers rt) → (timer_id t < nextTimerId rt)%nat)
  ∧ (∀ i, offlineInterval rt = Some i → (i < nextTimerId rt)%nat)
  ∧ (∀ t i, In t (timers rt) → timer_callback t = OfflineCallbackRest →
            offlineInterval rt = Some i → i ≠ timer_id t).

(** No health-check timer is pending. *)
Definition NoHealth (rt : Runtime) : Prop :=
  ∀ t, In t (timers rt) → timer_callback t ≠ HealthCheckCallback.

(** What can happen to the service: it is started (again), the event
    loop takes a turn, it is stopped, or one of its loops is started
    again. *)
Inductive Event : Type :=
  | Started (env : Env)
  | Turned (env : Env)
  | Stopped
  | HealthRestarted
  | OfflineRestarted (env : Env).

Definition advance (e : Event) (rt : Runtime) : Runtime :=
  match e with
  | Started env => start env rt
  | Turned env => turn env rt
  | Stopped => fst (stop rt)
  | HealthRestarted => startHealthCheckLoop rt
  | OfflineRestarted env => startOfflineStatusLoop env rt
  end.

(** Pending entries have distinct ids below the next one, and every
    health-check timer is the one the service holds the handle of. *)
Definition Owned (rt : Runtime) : Prop :=
  NoDup (map timer_id (timers rt))
  ∧ (∀ t, In t (timers rt) → (timer_id t < nextTimerId rt)%nat)
  ∧ (∀ t, In t (timers rt) → timer_callback t = HealthCheckCallback →
          healthCheckInterval rt = Some (timer_id t)).

(** The account's entry with its health stamp set to [t]. *)
Definition stamped (t : Z) (e : Z * Account) : Z * Account :=
  (fst e, {| client := client (snd e); accountId := accountId (snd e);
             lastHealthCheck := t |}).

End Lifecycle.

(* ===================================================================== *)
(** ** Configuration lists *)
(* ===================================================================== *)

Module Config.
Import Js.

(** [s.split(sep)] for a separator of one code unit. *)
Fixpoint split (sep : N) (s : list N) : list (list N) :=
  match s with
  | [] => [[]]
  | c :: s' =>
      if (c =? sep)%N then [] :: split sep s'
      else match split sep s' with
           | field :: fields => (c :: field) :: fields
           | [] => [[c]]
           end
  end.

Definition comma : N := 44.

Definition isDigit (c : N) : bool := ((48 <=? c) && (c <=? 57))%N.

(** The value of the longest prefix of decimal digits, continuing from
    [acc]. *)
Fixpoint digitsFrom (acc : Z) (s : list N) : Z :=
  match s with
  | c :: s' => if isDigit c then digitsFrom (acc * 10 + (Z.of_N c - 48)) s' else acc
  | [] => acc
  end.

(** [parseInt(s, 10)]: leading white space is skipped, a sign is read,
    then the longest prefix of digits; [None] stands for [NaN] (no
    digit). The value is exact below 2^53 and rounded to the nearest
    double beyond; strings of more than 20 digits, whose value the
    standard leaves to the implementation, are outside the model. *)
Definition parseInt (s : list N) : option Z :=
  let s1 := dropWhile isWhiteSpace s in
  let '(sign, s2) :=
    match s1 with
    | c :: r => if (c =? 45)%N then (-1, r)
                else if (c =? 43)%N then (1, r) else (1, s1)
    | [] => (1, s1)
    end in
  match s2 with
  | c :: _ => if isDigit c then Some (Number (sign * digitsFrom 0 s2)) else None
  | [] => None
  end.

(** [(value || '').split(',').filter(x => x).map(x => parseInt(x, 10))
    .filter(x => !isNaN(x))], the expression behind [adminIds] and
    [adminChatIds]; [value] is the environment variable, if set. *)
Definition idList (value : option (list N)) : list Z :=
  let text := if truthy value then default [] value else [] in
  omap parseInt (List.filter (fun x => truthy (Some x)) (split comma text)).

Definition adminIds (ADMIN_IDS : option (list N)) : list Z := idList ADMIN_IDS.

Definition adminChatIds (ADMIN_CHAT_IDS : option (list N)) : list Z :=
  idList ADMIN_CHAT_IDS.

(** [process.env.UPDATES_CHANNEL || 'BeigeBotUpdates'] *)
Definition updatesChannel (UPDATES_CHANNEL : option (list N)) : list N :=
  if truthy UPDATES_CHANNEL then default [] UPDATES_CHANNEL else js "BeigeBotUpdates".

Definition getUpdatesChannels (updatesChannel : list N) : list (list N) :=
  if negb (truthy (Some updatesChannel)) then []
  else List.filter (fun ch => truthy (Some ch)) (map trim (split comma updatesChannel)).

(** [fields.join(',')] *)
Fixpoint join (sep : N) (fields : list (list N)) : list N :=
  match fields with
  | [] => []
  | [field] => field
  | field :: fields' => field ++ sep :: join sep fields'
  end.

(** One entry as an operator may write it: blanks, the id in decimal,
    and any text that does not go on with a digit and holds no comma. *)
Record Entry : Type := {
  entry_pad : list N;
  entry_id : Z;
  entry_rest : list N
}.

Definition written (e : Entry) : list N :=
  entry_pad e ++ js (pretty (entry_id e)) ++ entry_rest e.

Definition wellWritten (e : Entry) : bool :=
  forallb isWhiteSpace (entry_pad e)
  && (Z.abs (entry_id e) <? 2 ^ 53)
  && forallb (fun c => negb (c =? comma)%N) (entry_rest e)
  && match entry_rest e with
     | c :: _ => negb (isDigit c)
     | [] => true
     end.

(** A field of the list: an entry, or nothing between two commas. *)
Definition writtenField (f : option Entry) : list N :=
  match f with
  | Some e => written e
  | None => []
  end.

Definition wellWrittenField (f : option Entry) : bool :=
  match f with
  | Some e => wellWritten e
  | None => true
  end.

(** Nothing to trim at the head. *)
Definition Trimmed (s : list N) : Prop :=
  match s with
  | c :: _ => isWhiteSpace c = false
  | [] => True
  end.

End Config.

(* ===================================================================== *)
(** ** Handler: store lemmas *)
(* ===================================================================== *)

Section HandlerFacts.
Import Js Handler.

Lemma tick_repliedChats d w : repliedChats (tick d w) = repliedChats w.
Proof. reflexivity. Qed.

Lemma tick_calls d w : calls (tick d w) = calls w.
Proof. reflexivity. Qed.

Lemma tick_now d w : now (tick d w) = now w + Z.of_N d.
Proof. reflexivity. Qed.

Lemma tick_processing d w : processingMessages (tick d w) ⊆ processingMessages w.
Proof.
  intros k Hk. unfold tick in Hk; simpl in Hk.
  by apply elem_of_difference in Hk as [? _].
Qed.

Lemma idle_tick a c m d w :
  isProcessingMessage a c m w = false → isProcessingMessage a c m (tick d w) = false.
Proof.
  unfold isProcessingMessage. intros Hfree.
  apply bool_decide_eq_false in Hfree. apply bool_decide_eq_false.
  intros Hin. apply Hfree. by apply (tick_processing d w).
Qed.

Lemma idle_call a c m a' r w :
  isProcessingMessage a c m (call a' r w) = isProcessingMessage a c m w.
Proof. reflexivity. Qed.

Lemma idle_atCheck tr a c m w :
  isProcessingMessage a c m w = false → isProcessingMessage a c m (atCheck tr a w) = false.
Proof.
  intros H. unfold atCheck.
  apply idle_tick. rewrite idle_call. apply idle_tick. rewrite idle_call.
  apply idle_tick. rewrite idle_call. exact H.
Qed.

Lemma idle_atDecision tr a c m w :
  isProcessingMessage a c m w = false →
  isProcessingMessage a c m (atDecision tr a w) = false.
Proof.
  intros H. unfold atDecision. apply idle_tick. rewrite idle_call.
  by apply idle_atCheck.
Qed.

Lemma idle_atGate tr a c m w :
  isProcessingMessage a c m w = false →
  isProcessingMessage a c m (atGate tr a w) = false.
Proof.
  intros H. unfold atGate.
  apply idle_tick. rewrite idle_call. apply idle_tick. rewrite idle_call.
  by apply idle_atDecision.
Qed.

Lemma calls_atDecision tr a w :
  calls (atDecision tr a w) =
  calls w ++ [(a, GetMe); (a, IsSenderBot); (a, GetChat); (a, GetAccountSettings)].
Proof. unfold atDecision, atCheck; simpl. by rewrite <- !app_assoc. Qed.

Lemma calls_atGate tr a w :
  calls (atGate tr a w) =
  calls w ++ [(a, GetMe); (a, IsSenderBot); (a, GetChat); (a, GetAccountSettings);
              (a, IsAccountMentioned); (a, IsReplyToAccount)].
Proof. unfold atGate, atDecision, atCheck; simpl. by rewrite <- !app_assoc. Qed.

Lemma repliedChats_atDecision tr a w :
  repliedChats (atDecision tr a w) = repliedChats w.
Proof. reflexivity. Qed.

Lemma now_atDecision tr a w :
  now (atDecision tr a w) =
  now w + Z.of_N (latency tr GetMe) + Z.of_N (latency tr IsSenderBot)
  + Z.of_N (latency tr GetChat) + Z.of_N (latency tr GetAccountSettings).
Proof. reflexivity. Qed.

(** The cooldown lookup, case by case. *)
Lemma hasReplied_absent a c w :
  repliedChats w !! getChatKey a c = None →
  hasRepliedToChatRecently a c w = (false, w).
Proof. intros H. unfold hasRepliedToChatRecently. by rewrite H. Qed.

Lemma hasReplied_fresh a c w t0 :
  repliedChats w !! getChatKey a c = Some t0 → now w <= t0 + cooldown →
  hasRepliedToChatRecently a c w = (true, w).
Proof.
  intros H Hle. unfold hasRepliedToChatRecently. rewrite H.
  destruct (Z.ltb_spec t0 (now w - cooldown)); [lia | done].
Qed.

Lemma hasReplied_expired a c w t0 :
  repliedChats w !! getChatKey a c = Some t0 → t0 + cooldown < now w →
  hasRepliedToChatRecently a c w =
  (false, set_repliedChats (delete (getChatKey a c)) w).
Proof.
  intros H Hlt. unfold hasRepliedToChatRecently. rewrite H.
  destruct (Z.ltb_spec t0 (now w - cooldown)); [done | lia].
Qed.

(** A lookup that answers [false] leaves no entry behind. *)
Lemma hasReplied_false_clears a c w w1 :
  hasRepliedToChatRecently a c w = (false, w1) →
  repliedChats w1 !! getChatKey a c = None ∧
  repliedChats w1 = delete (getChatKey a c) (repliedChats w) ∧
  processingMessages w1 = processingMessages w ∧ timeouts w1 = timeouts w ∧
  now w1 = now w ∧ calls w1 = calls w.
Proof.
  unfold hasRepliedToChatRecently.
  destruct (repliedChats w !! getChatKey a c) as [t0|] eqn:E.
  - destruct (t0 <? now w - cooldown); [|discriminate].
    intros [= <-]. simpl. by rewrite lookup_delete_eq.
  - intros [= <-]. by rewrite delete_id.
Qed.

Lemma hasReplied_true_keeps a c w w1 :
  hasRepliedToChatRecently a c w = (true, w1) → w1 = w.
Proof.
  unfold hasRepliedToChatRecently.
  destruct (repliedChats w !! getChatKey a c) as [t0|]; [|discriminate].
  destruct (t0 <? now w - cooldown); [discriminate|]. by intros [= <-].
Qed.

(** *** Every invocation returns *)

Lemma segment_rank tr a w t :
  t ≠ Finished → (rank (snd (segment tr a w t)) < rank t)%nat.
Proof.
  intros Ht. destruct t; try congruence; simpl;
    repeat (case_match; simpl; try lia); lia.
Qed.

Lemma resume_task tr a w t : snd (resume tr a w t) = snd (segment tr a w t).
Proof. unfold resume. by destruct (segment tr a w t). Qed.

(** The world in which a parked task is resumed. *)
Lemma run_unfold n tr a w t :
  t ≠ Finished →
  run (S n) tr a w t =
  let w1 := match request t with
            | Some r => tick (latency tr r) w
            | None => w
            end in
  run n tr a (fst (resume tr a w1 t)) (snd (resume tr a w1 t)).
Proof.
  intros Hne. destruct t; try congruence; cbn [run request];
    match goal with
    | |- context [resume tr a ?w1 ?t] => by destruct (resume tr a w1 t)
    end.
Qed.

Lemma run_finishes n tr a w t :
  (rank t <= n)%nat → snd (run n tr a w t) = Finished.
Proof.
  revert w t. induction n as [|n IH]; intros w t Hr.
  - destruct t; simpl in Hr; try lia. reflexivity.
  - destruct t; try reflexivity;
      (rewrite run_unfold by discriminate; cbv zeta; apply IH;
       rewrite resume_task;
       match goal with
       | |- context [segment tr a ?w1 ?t] =>
           pose proof (segment_rank tr a w1 t ltac:(discriminate)); lia
       end).
Qed.

(** [handleIncomingMessage] always returns: its eight segments suffice. *)
Lemma handler_returns tr a event w :
  snd (run 8 tr a w (Invoked event)) = Finished.
Proof. by apply run_finishes. Qed.

End HandlerFacts.

(* ===================================================================== *)
(** ** Handler: the paths of one invocation *)
(* ===================================================================== *)

Section HandlerPaths.
Import Js Handler.

Context (tr : Transport) (a : Z) (m : Message) (w : World)
        (me : Me) (chat : Chat) (chatId mid : string) (s : Settings).
Hypothesis El : Eligible tr a m w me chat chatId mid s.

(** An eligible message reaches the dispatch decision. *)
Lemma run_to_decision :
  run 8 tr a w (Invoked (Some m)) =
  run 4 tr a (call a GetAccountSettings (atCheck tr a w))
    (AwaitGetAccountSettings m me chat chatId mid).
Proof.
  destruct El as [Hout Hme Hself Hbot Htext Hchat Hcid Hmid Hidle Hset].
  rewrite run_unfold by discriminate. cbn [request]. cbv zeta.
  unfold resume at 1 2. cbn [segment]. rewrite Hout. cbn [request fst snd].
  rewrite run_unfold by discriminate. cbn [request]. cbv zeta.
  unfold resume at 1 2. cbn [segment]. rewrite Hme, Hself. cbn [request fst snd].
  rewrite run_unfold by discriminate. cbn [request]. cbv zeta.
  unfold resume at 1 2. cbn [segment]. rewrite Hbot, Htext. cbn [request fst snd].
  rewrite run_unfold by discriminate. cbn [request]. cbv zeta.
  unfold resume at 1 2. cbn [segment]. rewrite Hchat, Hcid, Hmid.
  fold (atCheck tr a w). rewrite (idle_atCheck _ _ _ _ _ Hidle).
  reflexivity.
Qed.

Lemma dm_on_cooldown :
  dmConfigured chat s = true →
  fst (hasRepliedToChatRecently a chatId (atDecision tr a w)) = true →
  handleIncomingMessage tr a (Some m) w = atDecision tr a w.
Proof.
  intros Hdm Hrec. unfold handleIncomingMessage. rewrite run_to_decision.
  rewrite run_unfold by discriminate. cbn [request]. cbv zeta.
  fold (atDecision tr a w).
  unfold resume at 1 2. cbn [segment]. rewrite (el_settings _ _ _ _ _ _ _ _ _ El), Hdm.
  destruct (hasRepliedToChatRecently a chatId (atDecision tr a w)) as [r w1] eqn:E.
  simpl in Hrec; subst r. apply hasReplied_true_keeps in E as ->.
  reflexivity.
Qed.

Lemma dm_dispatched w1 :
  dmConfigured chat s = true →
  hasRepliedToChatRecently a chatId (atDecision tr a w) = (false, w1) →
  handleIncomingMessage tr a (Some m) w =
  match sendMessage tr chat (dmOptions s) with
  | Returned _ =>
      clearMessageProcessing a chatId mid
        (markChatAsReplied a chatId (whenSent tr a chat chatId mid (dmOptions s) w1))
  | Threw =>
      clearMessageProcessing a chatId mid
        (whenSent tr a chat chatId mid (dmOptions s) w1)
  end.
Proof.
  intros Hdm E. unfold handleIncomingMessage. rewrite run_to_decision.
  rewrite run_unfold by discriminate. cbn [request]. cbv zeta.
  fold (atDecision tr a w).
  unfold resume at 1 2. cbn [segment]. rewrite (el_settings _ _ _ _ _ _ _ _ _ El), Hdm, E.
  cbn [request fst snd].
  rewrite run_unfold by discriminate. cbn [request]. cbv zeta.
  fold (whenSent tr a chat chatId mid (dmOptions s) w1).
  unfold resume at 1 2. cbn [segment].
  destruct (sendMessage tr chat (dmOptions s)); reflexivity.
Qed.

Lemma group_decided :
  dmConfigured chat s = false → groupConfigured chat s = true →
  handleIncomingMessage tr a (Some m) w =
  if isAccountMentioned m (me_id me) (me_username me) || isReplyToAccount tr m
  then clearMessageProcessing a chatId mid
         (whenSent tr a chat chatId mid (groupOptions s) (atGate tr a w))
  else atGate tr a w.
Proof.
  intros Hdm Hgr. unfold handleIncomingMessage. rewrite run_to_decision.
  rewrite run_unfold by discriminate. cbn [request]. cbv zeta.
  fold (atDecision tr a w).
  unfold resume at 1 2. cbn [segment].
  rewrite (el_settings _ _ _ _ _ _ _ _ _ El), Hdm, Hgr. cbn [request fst snd].
  rewrite run_unfold by discriminate. cbn [request]. cbv zeta.
  unfold resume at 1 2. cbn [segment]. cbn [request fst snd].
  rewrite run_unfold by discriminate. cbn [request]. cbv zeta.
  unfold resume at 1 2. cbn [segment].
  destruct (isAccountMentioned m (me_id me) (me_username me)); cbn [negb andb orb].
  - cbn [request fst snd]. rewrite run_unfold by discriminate. reflexivity.
  - destruct (isReplyToAccount tr m); cbn [negb andb orb request fst snd].
    + rewrite run_unfold by discriminate. reflexivity.
    + reflexivity.
Qed.

Lemma neither_configured :
  dmConfigured chat s = false → groupConfigured chat s = false →
  handleIncomingMessage tr a (Some m) w = atDecision tr a w.
Proof.
  intros Hdm Hgr. unfold handleIncomingMessage. rewrite run_to_decision.
  rewrite run_unfold by discriminate. cbn [request]. cbv zeta.
  fold (atDecision tr a w).
  unfold resume at 1 2. cbn [segment].
  rewrite (el_settings _ _ _ _ _ _ _ _ _ El), Hdm, Hgr. reflexivity.
Qed.

End HandlerPaths.

(* ===================================================================== *)
(** ** Handler: what an invocation issues *)
(* ===================================================================== *)

Section HandlerCalls.
Import Js Handler.

Lemma issued_app w w' l : calls w' = calls w ++ l → issued w w' = l.
Proof. intros H. unfold issued. rewrite H. apply drop_app_length. Qed.

Lemma issued_atDecision tr a w :
  issued w (atDecision tr a w) =
  [(a, GetMe); (a, IsSenderBot); (a, GetChat); (a, GetAccountSettings)].
Proof. apply issued_app, calls_atDecision. Qed.

Lemma calls_whenSent tr a chat c mid opts w :
  calls (whenSent tr a chat c mid opts w) = calls w ++ [(a, SendMessage chat opts)].
Proof. reflexivity. Qed.

Lemma repliedChats_whenSent tr a chat c mid opts w :
  repliedChats (whenSent tr a chat c mid opts w) = repliedChats w.
Proof. reflexivity. Qed.

(** Releasing a marker leaves it absent. *)
Lemma cleared a c mid w :
  isProcessingMessage a c mid (clearMessageProcessing a c mid w) = false.
Proof.
  unfold isProcessingMessage, clearMessageProcessing; simpl.
  apply bool_decide_eq_false. intros Hin.
  apply elem_of_difference in Hin as [_ Hn]. apply Hn. by apply elem_of_singleton.
Qed.

Lemma calls_clear a c mid w : calls (clearMessageProcessing a c mid w) = calls w.
Proof. reflexivity. Qed.

Lemma calls_markReplied a c w : calls (markChatAsReplied a c w) = calls w.
Proof. reflexivity. Qed.

Lemma calls_call a r w : calls (call a r w) = calls w ++ [(a, r)].
Proof. reflexivity. Qed.

Lemma idle_set_repliedChats a c mid f w :
  isProcessingMessage a c mid (set_repliedChats f w) = isProcessingMessage a c mid w.
Proof. reflexivity. Qed.

Lemma Eligible_set_repliedChats tr a m w me chat c mid s f :
  Eligible tr a m w me chat c mid s →
  Eligible tr a m (set_repliedChats f w) me chat c mid s.
Proof. intros []. by constructor. Qed.

Context (tr : Transport) (a : Z) (m : Message) (w : World)
        (me : Me) (chat : Chat) (chatId mid : string) (s : Settings).
Hypothesis El : Eligible tr a m w me chat chatId mid s.

(** The direct-message block, by what the cooldown lookup answers. *)
Lemma dm_suppressed t0 :
  dmConfigured chat s = true →
  repliedChats w !! getChatKey a chatId = Some t0 →
  now (atDecision tr a w) <= t0 + cooldown →
  let w' := handleIncomingMessage tr a (Some m) w in
  replies (issued w w') = [] ∧ repliedChats w' = repliedChats w.
Proof.
  intros Hdm Hk Hle w'. subst w'.
  rewrite (dm_on_cooldown _ _ _ _ _ _ _ _ _ El Hdm).
  - by rewrite issued_atDecision.
  - by rewrite (hasReplied_fresh _ _ _ t0).
Qed.

Lemma dm_replies w1 :
  dmConfigured chat s = true →
  hasRepliedToChatRecently a chatId (atDecision tr a w) = (false, w1) →
  let w' := handleIncomingMessage tr a (Some m) w in
  replies (issued w w') = [(a, SendMessage chat (dmOptions s))]
  ∧ isProcessingMessage a chatId mid w' = false
  ∧ match sendMessage tr chat (dmOptions s) with
    | Returned _ =>
        repliedChats w' = <[getChatKey a chatId := now w']> (repliedChats w1)
    | Threw => repliedChats w' = repliedChats w1
    end.
Proof.
  intros Hdm E w'. subst w'.
  rewrite (dm_dispatched _ _ _ _ _ _ _ _ _ El _ Hdm E).
  destruct (hasReplied_false_clears _ _ _ _ E) as (_ & _ & _ & _ & _ & Hc).
  destruct (sendMessage tr chat (dmOptions s)); (split; [|split]).
  - erewrite issued_app;
      [|rewrite calls_clear, ?calls_markReplied, calls_whenSent, Hc, calls_atDecision,
          <- app_assoc; reflexivity].
    reflexivity.
  - apply cleared.
  - reflexivity.
  - erewrite issued_app;
      [|rewrite calls_clear, ?calls_markReplied, calls_whenSent, Hc, calls_atDecision,
          <- app_assoc; reflexivity].
    reflexivity.
  - apply cleared.
  - reflexivity.
Qed.

(** The group block. *)
Lemma group_replies :
  dmConfigured chat s = false → groupConfigured chat s = true →
  let w' := handleIncomingMessage tr a (Some m) w in
  replies (issued w w') =
    (if isAccountMentioned m (me_id me) (me_username me) || isReplyToAccount tr m
     then [(a, SendMessage chat (groupOptions s))] else [])
  ∧ repliedChats w' = repliedChats w
  ∧ isProcessingMessage a chatId mid w' = false.
Proof.
  intros Hdm Hgr w'. subst w'.
  rewrite (group_decided _ _ _ _ _ _ _ _ _ El Hdm Hgr).
  destruct (isAccountMentioned m (me_id me) (me_username me) || isReplyToAccount tr m).
  - split; [|split].
    + erewrite issued_app;
        [|rewrite calls_clear, calls_whenSent, calls_atGate, <- !app_assoc;
          reflexivity].
      reflexivity.
    + reflexivity.
    + apply cleared.
  - split; [|split].
    + erewrite issued_app;
        [|apply calls_atGate].
      reflexivity.
    + reflexivity.
    + apply idle_atGate, El.
Qed.

(** Whatever path an eligible message takes, its marker is not held when
    the handler returns. *)
Lemma released_on_return :
  isProcessingMessage a chatId mid (handleIncomingMessage tr a (Some m) w) = false.
Proof.
  destruct (dmConfigured chat s) eqn:Hdm.
  - destruct (hasRepliedToChatRecently a chatId (atDecision tr a w)) as [[] w1] eqn:E.
    + rewrite (dm_on_cooldown _ _ _ _ _ _ _ _ _ El Hdm) by (by rewrite E).
      apply idle_atDecision, El.
    + apply (dm_replies w1 Hdm E).
  - destruct (groupConfigured chat s) eqn:Hgr.
    + apply (group_replies Hdm Hgr).
    + rewrite (neither_configured _ _ _ _ _ _ _ _ _ El Hdm Hgr).
      apply idle_atDecision, El.
Qed.

End HandlerCalls.

(* ===================================================================== *)
(** ** The direct-message cooldown *)
(* ===================================================================== *)

Section Cooldown.
Import Js Handler Scenario.

(** A reply that was issued by the direct-message block and delivered
    stamps the chat with the time the handler returned. *)
Lemma dm_reply_stamps tr a m w me chat chatId mid s :
  Eligible tr a m w me chat chatId mid s →
  dmConfigured chat s = true →
  replies (issued w (handleIncomingMessage tr a (Some m) w)) ≠ [] →
  sendMessage tr chat (dmOptions s) = Returned tt →
  repliedChats (handleIncomingMessage tr a (Some m) w) !! getChatKey a chatId
  = Some (now (handleIncomingMessage tr a (Some m) w)).
Proof.
  intros El Hdm Hrep Hok.
  destruct (hasRepliedToChatRecently a chatId (atDecision tr a w)) as [[] w1] eqn:E.
  - exfalso. apply Hrep.
    rewrite (dm_on_cooldown _ _ _ _ _ _ _ _ _ El Hdm) by (by rewrite E).
    by rewrite issued_atDecision.
  - destruct (dm_replies _ _ _ _ _ _ _ _ _ El w1 Hdm E) as (_ & _ & Hst).
    rewrite Hok in Hst. rewrite Hst. apply lookup_insert_eq.
Qed.




(** C10. When the send of a direct-message reply throws, the chat is not
    stamped: the cooldown map is what it was when the send was issued,
    it holds no entry for the chat, and the next direct message in that
    chat is answered. *)
Theorem failed_send_keeps_chat_eligible
    (tr tr2 : Transport) (a : Z) (m m2 : Message) (w : World)
    (me me2 : Me) (chat chat2 : Chat) (chatId mid mid2 : string)
    (s s2 : Settings) (d : N)
    (El : Eligible tr a m w me chat chatId mid s)
    (Dm : dmConfigured chat s = true)
    (Free : fst (hasRepliedToChatRecently a chatId (atDecision tr a w)) = false)
    (Fails : sendMessage tr chat (dmOptions s) = Threw)
    (El2 : Eligible tr2 a m2 (tick d (handleIncomingMessage tr a (Some m) w))
             me2 chat2 chatId mid2 s2)
    (Dm2 : dmConfigured chat2 s2 = true) :
  let w1 := handleIncomingMessage tr a (Some m) w in
  let w2 := handleIncomingMessage tr2 a (Some m2) (tick d w1) in
  replies (issued w w1) = [(a, SendMessage chat (dmOptions s))]
  ∧ repliedChats w1
    = repliedChats (snd (hasRepliedToChatRecently a chatId (atDecision tr a w)))
  ∧ repliedChats w1 = delete (getChatKey a chatId) (repliedChats w)
  ∧ repliedChats w1 !! getChatKey a chatId = None
  ∧ replies (issued (tick d w1) w2) = [(a, SendMessage chat2 (dmOptions s2))].
Proof.
  intros w1 w2.
  destruct (hasRepliedToChatRecently a chatId (atDecision tr a w)) as [r wl] eqn:E.
  simpl in Free; subst r.
  destruct (dm_replies _ _ _ _ _ _ _ _ _ El wl Dm E) as (Hr & _ & Hst).
  rewrite Fails in Hst.
  destruct (hasReplied_false_clears _ _ _ _ E) as (Hnone & Hdel & _).
  assert (Hk : repliedChats w1 !! getChatKey a chatId = None)
    by (subst w1; by rewrite Hst).
  repeat split.
  - exact Hr.
  - exact Hst.
  - subst w1. by rewrite Hst, Hdel.
  - exact Hk.
  - assert (E2 : hasRepliedToChatRecently a chatId (atDecision tr2 a (tick d w1))
                 = (false, atDecision tr2 a (tick d w1)))
      by (by apply hasReplied_absent).
    apply (dm_replies _ _ _ _ _ _ _ _ _ El2 _ Dm2 E2).
Qed.

Lemma failed_send_keeps_chat_eligible_witness :
  let tr := client dmChat false 10 in
  let tr2 := client dmChat true 10 in
  let m := textMessage 7 42 "hi" in
  let m2 := textMessage 8 42 "hello?" in
  let w1 := handleIncomingMessage tr 123 (Some m) (idle 0) in
  let w2 := handleIncomingMessage tr2 123 (Some m2) (tick 1000 w1) in
  Eligible tr 123 m (idle 0) alice dmChat "555" "7" settings
  ∧ sendMessage tr dmChat (dmOptions settings) = Threw
  ∧ repliedChats w1 !! getChatKey 123 "555" = None
  ∧ replies (issued (tick 1000 w1) w2) = [(123, SendMessage dmChat (dmOptions settings))].
Proof.
  intros tr tr2 m m2 w1 w2.
  assert (El : Eligible tr 123 m (idle 0) alice dmChat "555" "7" settings)
    by (constructor; vm_compute; reflexivity).
  assert (El2 : Eligible tr2 123 m2 (tick 1000 w1) alice dmChat "555" "8" settings)
    by (constructor; vm_compute; reflexivity).
  assert (Dm : dmConfigured dmChat settings = true) by reflexivity.
  assert (Free : fst (hasRepliedToChatRecently 123 "555" (atDecision tr 123 (idle 0))) = false)
    by (vm_compute; reflexivity).
  assert (Fails : sendMessage tr dmChat (dmOptions settings) = Threw) by reflexivity.
  destruct (failed_send_keeps_chat_eligible tr tr2 123 m m2 (idle 0) alice alice
              dmChat dmChat "555" "7" "8" settings settings 1000
              El Dm Free Fails El2 Dm) as (_ & _ & _ & Hnone & Hnext).
  split; [exact El|]. split; [exact Fails|]. split; [exact Hnone|exact Hnext].
Defined.

End Cooldown.

(* ===================================================================== *)
(** ** Group replies and the cooldown store *)
(* ===================================================================== *)

Section GroupFrame.
Import Js Handler Scenario.

(** Outside the direct-message block no segment touches the cooldown
    map, and no segment leads back into that block. *)
Lemma segment_offDm tr a w t :
  offDm tr t →
  offDm tr (snd (segment tr a w t))
  ∧ repliedChats (fst (segment tr a w t)) = repliedChats w.
Proof.
  intros Hoff. destruct t as [[m|]|m|m me|m me|m me chat c mid|m me chat c mid s
                              |m me chat c mid s b|chat c mid o|chat c mid o|];
    simpl in *; try done.
  - by destruct (msg_out m).
  - destruct (getMe tr) as [me|]; [|done].
    by destruct (isMessageFromSelf m (me_id me)).
  - destruct (isSenderBot tr m); [done|]. by destruct (textIsEmpty m).
  - destruct (getChat tr m) as [[chat|]|] eqn:E; try done.
    destruct (chatIdOf chat) as [c|]; [|done].
    destruct (messageIdOf m) as [mid|]; [|done].
    destruct (isProcessingMessage a c mid w); [done|]. simpl. split; [|done].
    by apply Hoff.
  - destruct (getAccountSettings tr a) as [[s|]|]; try done.
    unfold dmConfigured. rewrite Hoff. simpl.
    by destruct (groupConfigured chat s).
  - by destruct (negb b && negb (isReplyToAccount tr m)).
Qed.

Lemma run_offDm n tr a w t :
  offDm tr t → repliedChats (fst (run n tr a w t)) = repliedChats w.
Proof.
  revert w t. induction n as [|n IH]; intros w t Hoff; [done|].
  destruct t; try reflexivity;
    (rewrite run_unfold by discriminate; cbv zeta;
     match goal with
     | |- context [resume tr a ?w1 ?t] =>
         destruct (segment_offDm tr a w1 t Hoff) as [Hnext Hsame];
         rewrite <- resume_task in Hnext; rewrite (IH _ _ Hnext);
         unfold resume; destruct (segment tr a w1 t) as [w2 t2]; simpl in *;
         destruct (request t2); simpl; rewrite Hsame; reflexivity
     end).
Qed.

(** C5. The cooldown store governs direct messages only. A message in a
    group or channel that passes the checks and carries a trigger is
    answered whatever the cooldown map holds, and the map is left as it
    was; more generally an invocation whose chat is not a [User] chat
    never changes the cooldown map, so only the direct-message block
    looks entries up or records them. *)
Theorem group_replies_ignore_cooldown
    (tr tr' : Transport) (a a' : Z) (m : Message) (w w' : World)
    (me : Me) (chat : Chat) (chatId mid : string) (s : Settings)
    (event : option Message) (cooldowns : gmap string Z)
    (El : Eligible tr a m w me chat chatId mid s)
    (NotDm : isDM chat = false)
    (Grp : groupConfigured chat s = true)
    (Trigger : isAccountMentioned m (me_id me) (me_username me)
               || isReplyToAccount tr m = true)
    (Other : ∀ m' chat', event = Some m' → getChat tr' m' = Returned (Some chat') →
                         isDM chat' = false) :
  let w0 := set_repliedChats (fun _ => cooldowns) w in
  let w1 := handleIncomingMessage tr a (Some m) w0 in
  replies (issued w0 w1) = [(a, SendMessage chat (groupOptions s))]
  ∧ repliedChats w1 = cooldowns
  ∧ repliedChats (handleIncomingMessage tr' a' event w') = repliedChats w'.
Proof.
  intros w0 w1.
  assert (El0 : Eligible tr a m w0 me chat chatId mid s)
    by (by apply Eligible_set_repliedChats).
  assert (Hdm : dmConfigured chat s = false) by (unfold dmConfigured; by rewrite NotDm).
  destruct (group_replies _ _ _ _ _ _ _ _ _ El0 Hdm Grp) as (Hr & Hc & _).
  rewrite Trigger in Hr. split; [exact Hr|]. split; [exact Hc|].
  apply run_offDm. destruct event as [m'|]; simpl; [|done].
  intros chat' Hchat. by apply (Other m' chat').
Qed.

(** A mention of [@alice] in a channel is answered although the cooldown
    map holds a fresh entry for that very chat. *)
Lemma group_replies_ignore_cooldown_witness :
  let tr := client groupChat true 10 in
  let m := textMessage 7 42 "ping @alice" in
  let cooldowns : gmap string Z := {[ getChatKey 123 "-1001234" := 0 ]} in
  let w0 := set_repliedChats (fun _ => cooldowns) (idle 0) in
  let w1 := handleIncomingMessage tr 123 (Some m) w0 in
  Eligible tr 123 m (idle 0) alice groupChat "-1001234" "7" settings
  ∧ replies (issued w0 w1) = [(123, SendMessage groupChat (groupOptions settings))]
  ∧ repliedChats w1 = cooldowns.
Proof.
  intros tr m cooldowns w0 w1.
  assert (El : Eligible tr 123 m (idle 0) alice groupChat "-1001234" "7" settings)
    by (constructor; vm_compute; reflexivity).
  assert (Other : ∀ m' chat', Some m = Some m' →
            getChat tr m' = Returned (Some chat') → isDM chat' = false)
    by (intros m' chat' _ [= <-]; reflexivity).
  destruct (group_replies_ignore_cooldown tr tr 123 123 m (idle 0) w0 alice groupChat
              "-1001234" "7" settings (Some m) cooldowns El
              eq_refl eq_refl eq_refl Other) as (Hr & Hc & _).
  split; [exact El|]. split; [exact Hr|exact Hc].
Defined.

End GroupFrame.

(* ===================================================================== *)
(** ** The in-flight marker *)
(* ===================================================================== *)

Section Marker.
Import Js Handler Scenario.

Context (key : string) (deadline : Z).

Lemma bounded_tick d w :
  bounded key deadline w → bounded key deadline (tick d w).
Proof.
  intros [(due & Hin & Hnow & Hdl)|Hout].
  - destruct (Z.leb_spec due (now w + Z.of_N d)) as [Hdue|Hnot].
    + right. unfold tick; simpl. intros Hk.
      apply elem_of_difference in Hk as [_ Hk]. apply Hk.
      apply elem_of_list_to_set, list_elem_of_In.
      change key with (snd (due, key)). apply in_map.
      apply filter_In. split; [exact Hin|]. unfold isDue; simpl. lia.
    + left. exists due. unfold tick; simpl. split; [|lia].
      apply filter_In. split; [exact Hin|]. unfold isDue; simpl.
      apply negb_true_iff. lia.
  - right. intros Hk. apply Hout. by apply (tick_processing d w).
Qed.

Lemma bounded_applyOp o w :
  acquires key o = false → bounded key deadline w →
  bounded key deadline (applyOp o w).
Proof.
  intros Hacq Hb. destruct o as [d|a c|a c|a c m|a c m]; simpl.
  - by apply bounded_tick.
  - unfold hasRepliedToChatRecently.
    destruct (repliedChats w !! getChatKey a c); [|exact Hb].
    destruct (_ <? _); exact Hb.
  - exact Hb.
  - simpl in Hacq. apply String.eqb_neq in Hacq.
    destruct Hb as [(due & Hin & Hnow & Hdl)|Hout].
    + left. exists due. simpl. split; [|done]. apply in_or_app. by left.
    + right. simpl. intros Hk. apply elem_of_union in Hk as [Hk|Hk]; [|done].
      apply elem_of_singleton in Hk. congruence.
  - destruct Hb as [Hb|Hout]; [by left|].
    right. simpl. intros Hk. apply elem_of_difference in Hk as [Hk _]. done.
Qed.

Lemma bounded_applyOps ops w :
  existsb (acquires key) ops = false → bounded key deadline w →
  bounded key deadline (applyOps ops w).
Proof.
  revert w. induction ops as [|o ops IH]; intros w Hacq Hb; [exact Hb|].
  simpl in Hacq. apply orb_false_iff in Hacq as [Ho Hops].
  simpl. apply IH; [exact Hops|]. by apply bounded_applyOp.
Qed.

End Marker.

Section Coverage.
Import Js Handler.

Lemma covered_tick d w : covered w → covered (tick d w).
Proof.
  intros Hc k Hk. unfold tick in Hk; simpl in Hk.
  apply elem_of_difference in Hk as [Hk Hnot].
  destruct (Hc k Hk) as (due & Hin & Hnow & Hdl).
  exists due. unfold tick; simpl.
  destruct (Z.leb_spec due (now w + Z.of_N d)) as [Hdue|Hlate].
  - exfalso. apply Hnot. apply elem_of_list_to_set, list_elem_of_In.
    change k with (snd (due, k)). apply in_map.
    apply filter_In. split; [exact Hin|]. unfold isDue; simpl. lia.
  - split; [|lia]. apply filter_In. split; [exact Hin|].
    unfold isDue; simpl. apply negb_true_iff. lia.
Qed.

Lemma covered_mark a c m w : covered w → covered (markMessageProcessing a c m w).
Proof.
  intros Hc k Hk. simpl in Hk. apply elem_of_union in Hk as [Hk|Hk].
  - apply elem_of_singleton in Hk as ->. exists (now w + autoCleanup). simpl.
    split; [apply in_or_app; right; by left|]. unfold autoCleanup. lia.
  - destruct (Hc k Hk) as (due & Hin & Hb). exists due. simpl.
    split; [apply in_or_app; by left|exact Hb].
Qed.

Lemma covered_clear a c m w : covered w → covered (clearMessageProcessing a c m w).
Proof.
  intros Hc k Hk. simpl in Hk. apply elem_of_difference in Hk as [Hk _].
  exact (Hc k Hk).
Qed.

Lemma covered_hasReplied a c w : covered w → covered (snd (hasRepliedToChatRecently a c w)).
Proof.
  intros Hc. unfold hasRepliedToChatRecently.
  destruct (repliedChats w !! getChatKey a c); [|exact Hc].
  destruct (_ <? _); exact Hc.
Qed.

Lemma covered_segment tr a w t : covered w → covered (fst (segment tr a w t)).
Proof.
  intros Hc.
  destruct t as [[m|]|m|m me|m me|m me chat c mid|m me chat c mid s
                 |m me chat c mid s b|chat c mid o|chat c mid o|]; simpl;
    try exact Hc.
  - by destruct (msg_out m).
  - destruct (getMe tr) as [me|]; [|exact Hc].
    by destruct (isMessageFromSelf m (me_id me)).
  - destruct (isSenderBot tr m); [exact Hc|]. by destruct (textIsEmpty m).
  - destruct (getChat tr m) as [[chat|]|]; try exact Hc.
    destruct (chatIdOf chat) as [c|]; [|exact Hc].
    destruct (messageIdOf m) as [mid|]; [|exact Hc].
    by destruct (isProcessingMessage a c mid w).
  - destruct (getAccountSettings tr a) as [[s|]|]; try exact Hc.
    destruct (dmConfigured chat s).
    + pose proof (covered_hasReplied a c w Hc) as Hl.
      destruct (hasRepliedToChatRecently a c w) as [[] w1]; simpl in *;
        [exact Hl|by apply covered_mark].
    + by destruct (groupConfigured chat s).
  - destruct (negb b && negb (isReplyToAccount tr m)); [exact Hc|].
    by apply covered_mark.
  - destruct (sendMessage tr chat o); apply covered_clear; exact Hc.
  - by apply covered_clear.
Qed.

Lemma covered_resume tr a w t : covered w → covered (fst (resume tr a w t)).
Proof.
  intros Hc. unfold resume. pose proof (covered_segment tr a w t Hc) as Hs.
  destruct (segment tr a w t) as [w1 t1]; simpl in *.
  by destruct (request t1).
Qed.

Lemma covered_step s st : covered (fst st) → covered (fst (step s st)).
Proof.
  intros Hc. destruct s as [d|i]; simpl; [by apply covered_tick|].
  destruct (snd st !! i) as [j|]; [|exact Hc].
  pose proof (covered_resume (job_transport j) (job_account j) (fst st) (job_task j) Hc).
  by destruct (resume _ _ _ _).
Qed.

Lemma covered_exec schedule st : covered (fst st) → covered (fst (exec schedule st)).
Proof.
  revert st. induction schedule as [|s schedule IH]; intros st Hc; [exact Hc|].
  simpl. apply IH. by apply covered_step.
Qed.

(** Thirty quiet seconds leave no marker behind. *)
Lemma covered_drained w : covered w → processingMessages (tick 30000 w) = ∅.
Proof.
  intros Hc. apply set_eq. intros k. split; [|by intros ?%not_elem_of_empty].
  intros Hk. exfalso. unfold tick in Hk; simpl in Hk.
  apply elem_of_difference in Hk as [Hk Hnot].
  destruct (Hc k Hk) as (due & Hin & _ & Hdl). apply Hnot.
  apply elem_of_list_to_set, list_elem_of_In.
  change k with (snd (due, k)). apply in_map.
  apply filter_In. split; [exact Hin|]. unfold isDue, autoCleanup in *; simpl. lia.
Qed.
End Coverage.

Section MarkerTheorems.
Import Js Handler Scenario.

(** Resuming a task parked on either send releases its marker and ends
    the task, whether the send returned or threw. *)
Lemma send_resumed_releases tr a w chat c mid opts :
  (isProcessingMessage a c mid (fst (resume tr a w (AwaitSendDm chat c mid opts))) = false
   ∧ snd (resume tr a w (AwaitSendDm chat c mid opts)) = Finished)
  ∧ (isProcessingMessage a c mid (fst (resume tr a w (AwaitSendGroup chat c mid opts))) = false
     ∧ snd (resume tr a w (AwaitSendGroup chat c mid opts)) = Finished).
Proof.
  unfold resume; simpl. destruct (sendMessage tr chat opts); simpl;
    repeat split; apply cleared.
Qed.

(** C6. An eligible message's marker is not held when the handler
    returns, on every path; a task parked on a send releases the marker
    when it is resumed, whether the send succeeded or threw. Apart from
    any explicit release, a marker acquired at some time is gone 30
    seconds later under any sequence of store operations and elapsing
    time that does not acquire it anew; and however any invocations of a
    fresh handler interleave, every marker held has its clean-up pending
    and due within 30 seconds, so 30 quiet seconds leave no marker. *)
Theorem marker_released_and_expires
    (tr : Transport) (a : Z) (m : Message) (w : World)
    (me : Me) (chat : Chat) (chatId mid : string) (s : Settings)
    (held : World) (opts : SendOptions) (ops : list Op)
    (fresh : World) (schedule : list Step) (jobs : list Job)
    (El : Eligible tr a m w me chat chatId mid s)
    (Once : existsb (acquires (getMessageKey a chatId mid)) ops = false)
    (Late : now held + autoCleanup
            <= now (applyOps ops (markMessageProcessing a chatId mid held)))
    (Fresh : processingMessages fresh = ∅) :
  isProcessingMessage a chatId mid (handleIncomingMessage tr a (Some m) w) = false
  ∧ isProcessingMessage a chatId mid
      (fst (resume tr a held (AwaitSendDm chat chatId mid opts))) = false
  ∧ isProcessingMessage a chatId mid
      (fst (resume tr a held (AwaitSendGroup chat chatId mid opts))) = false
  ∧ isProcessingMessage a chatId mid (markMessageProcessing a chatId mid held) = true
  ∧ isProcessingMessage a chatId mid
      (applyOps ops (markMessageProcessing a chatId mid held)) = false
  ∧ covered (fst (exec schedule (fresh, jobs)))
  ∧ processingMessages (tick 30000 (fst (exec schedule (fresh, jobs)))) = ∅.
Proof.
  assert (Hcov : covered (fst (exec schedule (fresh, jobs)))).
  { apply covered_exec. intros k Hk. simpl in Hk. rewrite Fresh in Hk.
    by apply not_elem_of_empty in Hk. }
  split; [by apply (released_on_return tr a m w me chat chatId mid s)|].
  split; [apply send_resumed_releases|]. split; [apply send_resumed_releases|].
  split; [|split; [|split; [exact Hcov|by apply covered_drained]]].
  - unfold isProcessingMessage; simpl. apply bool_decide_eq_true.
    apply elem_of_union. left. by apply elem_of_singleton.
  - set (key := getMessageKey a chatId mid) in *.
    assert (Hb : bounded key (now held + autoCleanup)
                   (applyOps ops (markMessageProcessing a chatId mid held))).
    { apply bounded_applyOps; [exact Once|]. left.
      exists (now held + autoCleanup). simpl. split; [|unfold autoCleanup; lia].
      apply in_or_app. right. by left. }
    unfold isProcessingMessage. apply bool_decide_eq_false. fold key.
    destruct Hb as [(due & _ & Hnow & Hdl)|Hout]; [lia|exact Hout].
Qed.

(** A marker whose release was skipped: 30 seconds on, with another
    message marked and a lookup in between, it is gone. And an
    invocation left parked on its send holds its marker until the
    clean-up runs. *)
Lemma marker_released_and_expires_witness :
  let tr := client dmChat true 10 in
  let m := textMessage 7 42 "hi" in
  let ops := [OpElapse 12000; OpMarkProcessing 123 "555" "8";
              OpHasReplied 123 "555"; OpElapse 18000] in
  let held := idle 100 in
  Eligible tr 123 m (idle 0) alice dmChat "555" "7" settings
  ∧ isProcessingMessage 123 "555" "7" (markMessageProcessing 123 "555" "7" held) = true
  ∧ isProcessingMessage 123 "555" "7"
      (applyOps ops (markMessageProcessing 123 "555" "7" held)) = false
  ∧ isProcessingMessage 123 "555" "7" (fst (exec parked (idle 0, duplicate))) = true
  ∧ processingMessages (tick 30000 (fst (exec parked (idle 0, duplicate)))) = ∅.
Proof.
  intros tr m ops held.
  assert (El : Eligible tr 123 m (idle 0) alice dmChat "555" "7" settings)
    by (constructor; vm_compute; reflexivity).
  assert (Once : existsb (acquires (getMessageKey 123 "555" "7")) ops = false)
    by (vm_compute; reflexivity).
  assert (Late : now held + autoCleanup
                 <= now (applyOps ops (markMessageProcessing 123 "555" "7" held)))
    by (vm_compute; discriminate).
  destruct (marker_released_and_expires tr 123 m (idle 0) alice dmChat "555" "7"
              settings held (dmOptions settings) ops (idle 0) parked duplicate
              El Once Late eq_refl)
    as (_ & _ & _ & Hheld & Hgone & _ & Hdrained).
  split; [exact El|]. split; [exact Hheld|]. split; [exact Hgone|].
  split; [vm_compute; reflexivity|exact Hdrained].
Defined.

End MarkerTheorems.

(* ===================================================================== *)
(** ** The triggers: code against declarative reading *)
(* ===================================================================== *)

Section Patterns.
Import Js.

Lemma lastOr_cons prev x found : lastOr prev (x :: found) = lastOr (Some x) found.
Proof.
  unfold lastOr. destruct found as [|y found]; [reflexivity|].
  rewrite last_cons. by destruct (last (y :: found)).
Qed.

Lemma lastOr_app prev l1 l2 : lastOr prev (l1 ++ l2) = lastOr (lastOr prev l1) l2.
Proof.
  revert prev. induction l1 as [|x l1 IH]; intros prev; [reflexivity|].
  simpl app. by rewrite !lastOr_cons, IH.
Qed.

Lemma canonicalize_at x : canonicalize x = 64%N → x = 64%N.
Proof.
  unfold canonicalize.
  destruct (N.leb_spec 97 x), (N.leb_spec x 122); simpl; lia.
Qed.

Lemma canonicalize_word x c :
  isWordChar c = true → canonicalize x = canonicalize c → isWordChar x = true.
Proof.
  unfold isWordChar, canonicalize. intros Hc Heq.
  repeat match goal with
         | H : context [(?u <=? ?v)%N] |- _ => destruct (N.leb_spec u v); simpl in H
         | H : context [(?u =? ?v)%N] |- _ => destruct (N.eqb_spec u v); simpl in H
         end; try discriminate;
  repeat match goal with
         | |- context [(?u <=? ?v)%N] => destruct (N.leb_spec u v); simpl
         | |- context [(?u =? ?v)%N] => destruct (N.eqb_spec u v); simpl
         end; try reflexivity; lia.
Qed.

(** The literal part of the pattern matches a stretch with the same
    letters; the boundary is tested after it. *)
Lemma matchHere_literal name prev s :
  matchHere (map Lit name ++ [WordBoundary]) prev s = true ↔
  ∃ found rest,
    s = found ++ rest ∧ map canonicalize found = map canonicalize name
    ∧ xorb (wordBefore (lastOr prev found)) (wordAt rest) = true.
Proof.
  revert prev s. induction name as [|c name IH]; intros prev s; simpl.
  - rewrite andb_true_r. split.
    + intros H. by exists [], s.
    + intros (found & rest & -> & Hf & H).
      destruct found; [exact H|discriminate].
  - destruct s as [|x s].
    + split; [discriminate|]. intros (found & rest & Hs & Hf & _).
      destruct found; discriminate.
    + rewrite andb_true_iff, N.eqb_eq, IH. split.
      * intros (Hx & found & rest & -> & Hf & Hb).
        exists (x :: found), rest. rewrite lastOr_cons. simpl. by rewrite Hx, Hf.
      * intros (found & rest & Hs & Hf & Hb).
        destruct found as [|y found]; [discriminate|].
        simpl in Hs, Hf. injection Hs as <- ->. injection Hf as Hy Hf.
        rewrite lastOr_cons in Hb. split; [exact Hy|]. by exists found, rest.
Qed.

Lemma search_somewhere p prev s :
  search p prev s = true ↔
  ∃ before rest, s = before ++ rest ∧ matchHere p (lastOr prev before) rest = true.
Proof.
  revert prev. induction s as [|x s IH]; intros prev; simpl.
  - rewrite orb_false_r. split.
    + intros H. by exists [], [].
    + intros (before & rest & Hs & H).
      symmetry in Hs. apply app_eq_nil in Hs as [-> ->]. exact H.
  - rewrite orb_true_iff, IH. split.
    + intros [H|(before & rest & -> & H)].
      * by exists [], (x :: s).
      * exists (x :: before), rest. by rewrite lastOr_cons.
    + intros (before & rest & Hs & H). destruct before as [|y before].
      * simpl in Hs. subst rest. by left.
      * simpl in Hs. injection Hs as <- ->. right.
        exists before, rest. by rewrite lastOr_cons in H.
Qed.

Lemma same_letters_last found name :
  name ≠ [] → map canonicalize found = map canonicalize name →
  forallb isWordChar name = true →
  ∀ prev, wordBefore (lastOr prev found) = true.
Proof.
  revert found. induction name as [|c name IH]; intros found Hne Hf Hw prev; [done|].
  destruct found as [|x found]; [discriminate|].
  simpl in Hf, Hw. injection Hf as Hx Hf. apply andb_true_iff in Hw as [Hc Hw].
  rewrite lastOr_cons. destruct name as [|c' name].
  - destruct found; [|discriminate]. simpl. by apply (canonicalize_word x c).
  - by apply IH.
Qed.

End Patterns.

Section Triggers.
Import Js Handler Classifier.

(** [@username\b], case-insensitively, finds exactly the occurrences of
    [@username] that no word character follows. *)
Lemma mention_pattern_spec name text :
  name ≠ [] → forallb isWordChar name = true →
  test (mentionPattern name) text = true ↔
  ∃ before found after,
    text = before ++ 64%N :: found ++ after
    ∧ sameLetters found name ∧ wordAt after = false.
Proof.
  intros Hne Hw. unfold test, mentionPattern. rewrite search_somewhere. split.
  - intros (before & rest & -> & H). simpl in H.
    destruct rest as [|x rest]; [discriminate|].
    apply andb_true_iff in H as [Hx H]. apply N.eqb_eq in Hx.
    apply canonicalize_at in Hx as ->.
    apply matchHere_literal in H as (found & after & -> & Hf & Hb).
    exists before, found, after. split; [reflexivity|]. split; [exact Hf|].
    rewrite (same_letters_last found name Hne Hf Hw) in Hb.
    by destruct (wordAt after).
  - intros (before & found & after & -> & Hf & Ha).
    exists before, (64%N :: found ++ after). split; [reflexivity|]. simpl.
    apply matchHere_literal. exists found, after. split; [reflexivity|].
    split; [exact Hf|].
    by rewrite (same_letters_last found name Hne Hf Hw), Ha.
Qed.

Lemma truthy_cons (l : list N) : truthy (Some l) = true ↔ l ≠ [].
Proof. destruct l; simpl; split; congruence. Qed.

Lemma entity_mention_spec m who :
  match msg_entities m with
  | Some entities => existsb (entityNames who) entities
  | None => false
  end = true ↔ EntityMention m who.
Proof.
  unfold EntityMention. destruct (msg_entities m) as [entities|].
  - rewrite existsb_exists. split.
    + intros (e & Hin & He). unfold entityNames in He.
      apply andb_true_iff in He as [_ He].
      destruct (entity_userId e) as [u|] eqn:Eu; [|discriminate].
      exists entities, e, u. repeat split; try done.
      * by apply list_elem_of_In.
      * by apply Z.eqb_eq.
    + intros (entities' & e & u & [= <-] & Hin & Eu & Hn).
      exists e. split; [by apply list_elem_of_In|].
      unfold entityNames, isMentionEntity, sameNumber. rewrite Eu, Hn, Z.eqb_refl.
      by rewrite orb_true_r.
  - split; [discriminate|]. by intros (? & ? & ? & ? & _).
Qed.

(** [isAccountMentioned] holds exactly when an entity carries the
    session's id or the text mentions its username. *)
Lemma isAccountMentioned_spec m me :
  wellFormed (me_username me) = true →
  isAccountMentioned m (me_id me) (me_username me) = true ↔
  EntityMention m (me_id me) ∨ TextMention m (me_username me).
Proof.
  intros Hw. unfold isAccountMentioned. rewrite orb_true_iff, entity_mention_spec.
  apply or_iff_compat_l. unfold TextMention.
  destruct (msg_text m) as [text|]; [destruct (me_username me) as [name|]|].
  - simpl in Hw. rewrite !andb_true_iff, !truthy_cons. split.
    + intros [[Ht Hn] Hm]. apply (mention_pattern_spec name text Hn Hw) in Hm
        as (before & found & after & -> & Hf & Ha).
      by exists (before ++ 64%N :: found ++ after), name, before, found, after.
    + intros (text' & name' & before & found & after & [= <-] & [= <-] & Hn & -> & Hf & Ha).
      split; [split; [by destruct before|exact Hn]|].
      apply (mention_pattern_spec name _ Hn Hw). by exists before, found, after.
  - split; [discriminate|]. by intros (? & ? & ? & ? & ? & _ & ? & _).
  - split; [discriminate|]. by intros (? & ? & ? & ? & ? & ? & _).
Qed.

Lemma fetchReplied_spec tr m msgId replied :
  fetchReplied tr m msgId = Returned (Some replied) ↔
  ∃ chat rest, getChat tr m = Returned chat
               ∧ getMessages tr chat msgId = Returned (replied :: rest).
Proof.
  unfold fetchReplied. destruct (getChat tr m) as [chat|].
  - destruct (getMessages tr chat msgId) as [[|r rest]|] eqn:E; simpl.
    + split; [discriminate|]. intros (c & r & [= <-] & H). congruence.
    + split.
      * intros [= <-]. by exists chat, rest.
      * intros (c & r' & [= <-] & H). congruence.
    + split; [discriminate|]. intros (c & r & [= <-] & H). congruence.
  - split; [discriminate|]. by intros (? & ? & ? & _).
Qed.

Lemma repliedToMessage_spec tr m replied :
  repliedToMessage tr m = Returned (Some replied) ↔ Resolves tr m replied.
Proof.
  unfold repliedToMessage, Resolves, truthyNumber.
  destruct (msg_replyTo m).
  - destruct (getReplyMessage tr m) as [r|] eqn:Er.
    + split.
      * intros [= ->]. by left.
      * intros [[_ [= ->]]|[[?|?] _]]; done.
    + destruct (msg_replyToMsgId m) as [msgId|].
      * destruct (Z.eqb_spec msgId 0) as [->|Hnz]; simpl.
        -- split; [discriminate|].
           intros [[_ ?]|[_ (i & c & r & [= <-] & ? & _)]]; done.
        -- rewrite fetchReplied_spec. split.
           ++ intros (chat & rest & Hc & Hm). right. split; [by right|].
              by exists msgId, chat, rest.
           ++ intros [[_ ?]|[_ (i & c & r & [= <-] & _ & Hc & Hm)]]; [done|].
              by exists c, r.
      * split; [discriminate|]. intros [[_ ?]|[_ (i & c & r & ? & _)]]; done.
  - destruct (msg_replyToMsgId m) as [msgId|].
    + destruct (Z.eqb_spec msgId 0) as [->|Hnz]; simpl.
      * split; [discriminate|].
        intros [[? _]|[_ (i & c & r & [= <-] & ? & _)]]; done.
      * rewrite fetchReplied_spec. split.
        -- intros (chat & rest & Hc & Hm). right. split; [by left|].
           by exists msgId, chat, rest.
        -- intros [[? _]|[_ (i & c & r & [= <-] & _ & Hc & Hm)]]; [done|].
           by exists c, r.
    + split; [discriminate|]. intros [[? _]|[_ (i & c & r & ? & _)]]; done.
Qed.

(** [isReplyToAccount] holds exactly when the referenced message
    resolves and the session wrote it. *)
Lemma isReplyToAccount_spec tr m :
  isReplyToAccount tr m = true ↔ ReplyToSelf tr m.
Proof.
  unfold isReplyToAccount, ReplyToSelf.
  destruct (negb (msg_replyTo m) && negb (truthyNumber (msg_replyToMsgId m))) eqn:Eg.
  - split; [discriminate|]. intros (replied & me & Hres & _).
    apply andb_true_iff in Eg as [Hr Hn].
    apply negb_true_iff in Hr, Hn. unfold truthyNumber in Hn.
    destruct Hres as [[? _]|[_ (i & c & r & Hi & Hnz & _)]]; [congruence|].
    rewrite Hi in Hn. apply negb_false_iff, Z.eqb_eq in Hn. done.
  - destruct (repliedToMessage tr m) as [[replied|]|] eqn:E.
    + apply repliedToMessage_spec in E. destruct (getMe tr) as [me|] eqn:Em.
      * split.
        -- intros H. by exists replied, me.
        -- intros (replied' & me' & Hres & [= <-] & H).
           apply repliedToMessage_spec in E, Hres. congruence.
      * split; [discriminate|]. by intros (? & ? & _ & ? & _).
    + split; [discriminate|]. intros (replied & me & Hres & _).
      apply repliedToMessage_spec in Hres. congruence.
    + split; [discriminate|]. intros (replied & me & Hres & _).
      apply repliedToMessage_spec in Hres. congruence.
Qed.

End Triggers.

(* ===================================================================== *)
(** ** Classification *)
(* ===================================================================== *)

Section Classification.
Import Js Handler Classifier Scenario.



(** The numeric comparison ignores the representation. *)
Lemma Number_safe z : Z.abs z < 2 ^ 53 → Number z = z.
Proof. intros H. unfold Number. by destruct (Z.ltb_spec (Z.abs z) (2 ^ 53)); [|lia]. Qed.

Lemma sameNumber_value u who :
  valueOf u = valueOf who → Safe who → sameNumber u who = true.
Proof.
  unfold Safe, sameNumber. intros Hv Hs. apply Z.eqb_eq.
  destruct u as [x|x], who as [y|y]; simpl in *; subst;
    rewrite ?Number_safe by exact Hs; reflexivity.
Qed.

Lemma Names_peerUserId p who :
  Names p who → ∃ u, peerUserId p = Some u ∧ valueOf u = valueOf who.
Proof.
  intros (Hc & u & Hu & Hv). exists u. unfold peerUserId. by rewrite Hc, Hu.
Qed.

Lemma AuthoredBy_self m who :
  AuthoredBy m who → Safe who → isMessageFromSelf m who = true.
Proof.
  intros Hauth Hs. unfold isMessageFromSelf.
  destruct Hauth as [(p & Hp & Hn)|(p & Hp & Hn & Heq)].
  - rewrite Hp. apply Names_peerUserId in Hn as (u & -> & Hv).
    by rewrite (sameNumber_value u who Hv Hs).
  - match goal with |- (if ?b then _ else _) = _ => destruct b end; [reflexivity|].
    rewrite Hp. apply Names_peerUserId in Hn as (u & -> & Hv).
    rewrite (sameNumber_value u who Hv Hs).
    destruct (equals p) as [eq|]; [|reflexivity].
    specialize (Heq eq eq_refl). destruct (eq who) as [[]|]; try reflexivity. done.
Qed.

Lemma FlaggedBot_bot tr m : FlaggedBot tr m → isSenderBot tr m = true.
Proof.
  unfold isSenderBot.
  intros [(sender & -> & Hb)|(-> & p & u & sender & Hp & Hu & He & Hb)]; [exact Hb|].
  unfold botByPeer. by rewrite Hp, Hu, He, Hb.
Qed.

Lemma dropWhile_all {A} (p : A → bool) l :
  Forall (fun x => p x = true) l → dropWhile p l = [].
Proof. induction 1 as [|x l Hx _ IH]; simpl; [done|]. by rewrite Hx. Qed.

Lemma Blank_empty m : Blank m → textIsEmpty m = true.
Proof.
  unfold Blank, textIsEmpty. destruct (msg_text m) as [s|]; [|done].
  intros H. unfold trim. rewrite (dropWhile_all _ _ H). simpl. apply orb_true_r.
Qed.

(** The head of an invocation, up to the sender checks. *)
Lemma self_stops tr a m w me :
  msg_out m = false → getMe tr = Returned me →
  isMessageFromSelf m (me_id me) = true →
  handleIncomingMessage tr a (Some m) w = tick (latency tr GetMe) (call a GetMe w).
Proof.
  intros Hout Hme Hself. unfold handleIncomingMessage.
  rewrite run_unfold by discriminate. cbn [request]. cbv zeta.
  unfold resume at 1 2. cbn [segment]. rewrite Hout. cbn [request fst snd].
  rewrite run_unfold by discriminate. cbn [request]. cbv zeta.
  unfold resume at 1 2. cbn [segment]. rewrite Hme, Hself. reflexivity.
Qed.

Lemma bot_or_blank_stops tr a m w me :
  msg_out m = false → getMe tr = Returned me →
  isMessageFromSelf m (me_id me) = false →
  isSenderBot tr m || textIsEmpty m = true →
  handleIncomingMessage tr a (Some m) w
  = tick (latency tr IsSenderBot)
      (call a IsSenderBot (tick (latency tr GetMe) (call a GetMe w))).
Proof.
  intros Hout Hme Hself Hex. unfold handleIncomingMessage.
  rewrite run_unfold by discriminate. cbn [request]. cbv zeta.
  unfold resume at 1 2. cbn [segment]. rewrite Hout. cbn [request fst snd].
  rewrite run_unfold by discriminate. cbn [request]. cbv zeta.
  unfold resume at 1 2. cbn [segment]. rewrite Hme, Hself. cbn [request fst snd].
  rewrite run_unfold by discriminate. cbn [request]. cbv zeta.
  unfold resume at 1 2. cbn [segment].
  destruct (isSenderBot tr m); [reflexivity|].
  simpl in Hex. rewrite Hex. reflexivity.
Qed.

(** C4. An inbound message gets no reply when the session itself wrote
    it (ids compared as numbers, a [bigint] and a [number] of the same
    value being equal), when its sender is flagged as a bot, or when its
    text is empty or white space only. The checks run in this order and
    ahead of everything that depends on the chat: a message of the
    session stops the handler right after [getMe], before the bot check
    is even awaited; a bot's or a blank message stops it right after the
    bot check; in neither case is the chat fetched or a store touched. *)
Theorem exclusions_come_first
    (tr : Transport) (a : Z) (m : Message) (w : World) (me : Me)
    (Incoming : msg_out m = false)
    (Identity : getMe tr = Returned me)
    (Excluded : (AuthoredBy m (me_id me) ∧ Safe (me_id me))
                ∨ FlaggedBot tr m ∨ Blank m) :
  let w' := handleIncomingMessage tr a (Some m) w in
  replies (issued w w') = []
  ∧ ¬ In (a, GetChat) (issued w w')
  ∧ repliedChats w' = repliedChats w
  ∧ (AuthoredBy m (me_id me) ∧ Safe (me_id me) → issued w w' = [(a, GetMe)])
  ∧ (isMessageFromSelf m (me_id me) = false →
     issued w w' = [(a, GetMe); (a, IsSenderBot)])
  ∧ (∀ z, Z.abs z < 2 ^ 53 →
       sameNumber (BigInt z) (Num z) = true ∧ sameNumber (Num z) (BigInt z) = true).
Proof.
  intros w'.
  assert (Hself : AuthoredBy m (me_id me) ∧ Safe (me_id me) →
                  w' = tick (latency tr GetMe) (call a GetMe w)).
  { intros [Hauth Hs]. apply (self_stops tr a m w me); try done.
    by apply AuthoredBy_self. }
  assert (Hother : isMessageFromSelf m (me_id me) = false →
                   w' = tick (latency tr IsSenderBot)
                          (call a IsSenderBot (tick (latency tr GetMe) (call a GetMe w)))).
  { intros Hns. apply (bot_or_blank_stops tr a m w me); try done.
    destruct Excluded as [[Hauth Hs]|[Hbot|Hblank]].
    - rewrite (AuthoredBy_self m (me_id me) Hauth Hs) in Hns. discriminate.
    - by rewrite (FlaggedBot_bot tr m Hbot).
    - rewrite (Blank_empty m Hblank). apply orb_true_r. }
  assert (Hcases : issued w w' = [(a, GetMe)] ∧ repliedChats w' = repliedChats w
                   ∨ issued w w' = [(a, GetMe); (a, IsSenderBot)]
                     ∧ repliedChats w' = repliedChats w).
  { destruct (isMessageFromSelf m (me_id me)) eqn:E.
    - left. unfold w'. rewrite (self_stops tr a m w me Incoming Identity E).
      split; [|done]. by apply issued_app.
    - right. rewrite (Hother eq_refl). split; [|done].
      apply issued_app. simpl. by rewrite <- app_assoc. }
  repeat split.
  - destruct Hcases as [[-> _]|[-> _]]; reflexivity.
  - destruct Hcases as [[-> _]|[-> _]]; simpl; intros H;
      repeat (destruct H as [H|H]; [discriminate|]); exact H.
  - destruct Hcases as [[_ ->]|[_ ->]]; reflexivity.
  - intros H. rewrite (Hself H). by apply issued_app.
  - intros H. rewrite (Hother H). apply issued_app. simpl. by rewrite <- app_assoc.
  - apply (sameNumber_value (BigInt z) (Num z)); [reflexivity|assumption].
  - apply (sameNumber_value (Num z) (BigInt z)); [reflexivity|assumption].
Qed.

(** A direct message whose [fromId] carries the session's id as a
    [bigint] while [getMe] reports it as a [number]. *)
Lemma exclusions_come_first_witness :
  msg_out (textMessage 7 1001 "note to self") = false
  ∧ AuthoredBy (textMessage 7 1001 "note to self") (me_id aliceNarrow)
  ∧ Safe (me_id aliceNarrow)
  ∧ issued (idle 0)
      (handleIncomingMessage (clientOf aliceNarrow dmChat true 10) 123
         (Some (textMessage 7 1001 "note to self")) (idle 0))
    = [(123, GetMe)].
Proof.
  assert (Hauth : AuthoredBy (textMessage 7 1001 "note to self") (me_id aliceNarrow)).
  { right. exists (userPeer 1001). split; [reflexivity|]. split.
    - split; [reflexivity|]. by exists (BigInt 1001).
    - intros eq H. discriminate. }
  assert (Hs : Safe (me_id aliceNarrow)) by (vm_compute; reflexivity).
  destruct (exclusions_come_first (clientOf aliceNarrow dmChat true 10) 123
              (textMessage 7 1001 "note to self") (idle 0) aliceNarrow
              eq_refl eq_refl (or_introl (conj Hauth Hs)))
    as (_ & _ & _ & Hself & _).
  split; [reflexivity|]. split; [exact Hauth|]. split; [exact Hs|].
  by apply Hself.
Defined.

End Classification.

(* ===================================================================== *)
(** ** Where the code departs from its specification *)
(* ===================================================================== *)

Section Departures.
Import Js Handler Scenario.

(** While the marker is held, a second invocation for the same message
    stops at its in-flight check. *)
Lemma guard_blocks_while_held tr a m me chat c mid w :
  getChat tr m = Returned (Some chat) → chatIdOf chat = Some c →
  messageIdOf m = Some mid → isProcessingMessage a c mid w = true →
  resume tr a w (AwaitGetChat m me) = (w, Finished).
Proof.
  intros Hchat Hc Hmid Hheld. unfold resume; simpl.
  by rewrite Hchat, Hc, Hmid, Hheld.
Qed.

(** When the check passes, the task suspends on the settings with the
    marker still unset: the check and the set are in different
    segments. *)
Lemma check_then_suspend tr a m me chat c mid w :
  getChat tr m = Returned (Some chat) → chatIdOf chat = Some c →
  messageIdOf m = Some mid → isProcessingMessage a c mid w = false →
  snd (resume tr a w (AwaitGetChat m me)) = AwaitGetAccountSettings m me chat c mid
  ∧ isProcessingMessage a c mid (fst (resume tr a w (AwaitGetChat m me))) = false.
Proof.
  intros Hchat Hc Hmid Hfree. unfold resume; simpl.
  by rewrite Hchat, Hc, Hmid, Hfree.
Qed.

(** C2, the code at the failing input. One update delivered twice, the
    two invocations advancing in lockstep: both pass the in-flight check
    before either sets the marker, and two replies go out. Had the second
    started once the first held the marker, one reply would. *)
Theorem duplicate_event_replied_twice :
  replies (calls (fst (exec lockstep (idle 0, duplicate))))
  = [(123, SendMessage dmChat (dmOptions settings));
     (123, SendMessage dmChat (dmOptions settings))]
  ∧ map job_task (snd (exec lockstep (idle 0, duplicate))) = [Finished; Finished]
  ∧ replies (calls (fst (exec staggered (idle 0, duplicate))))
    = [(123, SendMessage dmChat (dmOptions settings))].
Proof. repeat split; vm_compute; reflexivity. Qed.

(** C7, the code at the failing input. The handler answers a mention in
    a channel with a plain send: its options carry no [replyTo]. The
    polling variant's sender, given the same trigger, replies to the
    triggering message. *)
Theorem group_reply_not_threaded :
  replies (issued (idle 0)
     (handleIncomingMessage (client groupChat true 10) 123
        (Some (textMessage 7 42 "ping @alice")) (idle 0)))
  = [(123, SendMessage groupChat
             {| message := js "Busy, back later"; replyTo := None |})]
  ∧ replyTo (Polling.groupReply settings (textMessage 7 42 "ping @alice"))
    = Some (textMessage 7 42 "ping @alice")
  ∧ replyTo (Polling.dmReply settings) = None.
Proof. repeat split; vm_compute; reflexivity. Qed.

End Departures.

(* ===================================================================== *)
(** ** The background loops *)
(* ===================================================================== *)

Section Loops.
Import Js Service Scenario.

(** *** Calls that only touch the registry and the record *)

Lemma Quiet_refl rt : Quiet rt rt.
Proof.
  repeat split; try reflexivity. exists []. by rewrite app_nil_r.
Qed.

Lemma Quiet_trans rt1 rt2 rt3 : Quiet rt1 rt2 → Quiet rt2 rt3 → Quiet rt1 rt3.
Proof.
  intros (Ht & Hc & Hn & Hr & Hw & Ho & Hh & l & Hl & Hf)
         (Ht' & Hc' & Hn' & Hr' & Hw' & Ho' & Hh' & l' & Hl' & Hf').
  repeat split; try congruence.
  exists (l ++ l'). split; [by rewrite Hl', Hl, app_assoc|].
  by apply Forall_app.
Qed.

Lemma Quiet_record c rt :
  isHealthCheck c = false → isWalk c = false → Quiet rt (record c rt).
Proof.
  intros Hh Hw. repeat split; try reflexivity.
  exists [(clock rt, c)]. split; [reflexivity|]. by repeat constructor.
Qed.

Lemma Quiet_set_accounts f rt : Quiet rt (set_accounts f rt).
Proof. repeat split; try reflexivity. exists []. by rewrite app_nil_r. Qed.

Lemma Quiet_doConnect env id rt : Quiet rt (snd (doConnect env id rt)).
Proof.
  unfold doConnect. destruct (connectAccount env (clock rt) id); simpl.
  - eapply Quiet_trans; [by apply (Quiet_record (ConnectAccount id))|].
    apply Quiet_set_accounts.
  - by apply Quiet_record.
Qed.

Lemma Quiet_setOfflineStatus env a id rt : Quiet rt (setOfflineStatus env a id rt).
Proof.
  unfold setOfflineStatus. destruct (isConnected a); [|apply Quiet_refl].
  assert (Q1 : ∀ r, Quiet r (record (UpdateStatus id) r))
    by (intros r; by apply Quiet_record).
  destruct (updateStatus env (clock rt) id 0); [|apply Q1].
  destruct (updateStatus env (clock rt) id 1).
  - eapply Quiet_trans; [apply Q1|]. eapply Quiet_trans; apply Q1.
  - eapply Quiet_trans; apply Q1.
Qed.

Lemma Quiet_visitOffline env e rt : Quiet rt (visitOffline env e rt).
Proof.
  destruct e as [id account]. unfold visitOffline.
  destruct (isConnected account);
    [apply Quiet_setOfflineStatus|apply Quiet_doConnect].
Qed.

Lemma Quiet_foldl {A} (f : Runtime → A → Runtime) l :
  (∀ rt x, Quiet rt (f rt x)) → ∀ rt, Quiet rt (foldl f rt l).
Proof.
  intros Hf. induction l as [|x l IH]; intros rt; simpl; [apply Quiet_refl|].
  eapply Quiet_trans; [apply Hf|apply IH].
Qed.

Lemma Quiet_offlineWalk env rt : Quiet rt (offlineWalk env rt).
Proof. apply Quiet_foldl. intros. apply Quiet_visitOffline. Qed.

Lemma Quiet_reconnect env id rt : Quiet rt (reconnect env id rt).
Proof.
  unfold reconnect. pose proof (Quiet_doConnect env id rt) as Q.
  destruct (doConnect env id rt) as [[] rt1]; simpl in *; [exact Q|].
  eapply Quiet_trans; [exact Q|apply Quiet_doConnect].
Qed.

Lemma Quiet_checkAccount env now e rt : Quiet rt (checkAccount env now e rt).
Proof.
  destruct e as [id account]. unfold checkAccount.
  destruct (negb (isConnected account)); [apply Quiet_reconnect|].
  destruct (negb (verifyHandlerRegistered env (clock rt) id));
    [|apply Quiet_set_accounts].
  assert (Q1 : Quiet rt (record (SetupAutoReply id) rt)) by (by apply Quiet_record).
  destruct (setupAutoReply env (clock rt) id).
  - eapply Quiet_trans; [exact Q1|].
    eapply Quiet_trans; [apply Quiet_setOfflineStatus|apply Quiet_set_accounts].
  - eapply Quiet_trans; [exact Q1|apply Quiet_reconnect].
Qed.

Lemma Quiet_connectAll env rows rt : Quiet rt (snd (connectAll env rows rt)).
Proof.
  revert rt. induction rows as [|id rows IH]; intros rt; simpl; [apply Quiet_refl|].
  pose proof (Quiet_doConnect env id rt) as Q.
  destruct (doConnect env id rt) as [[] rt1]; simpl in *; [|exact Q].
  eapply Quiet_trans; [exact Q|apply IH].
Qed.

Lemma timesOf_app p l1 l2 : timesOf p (l1 ++ l2) = timesOf p l1 ++ timesOf p l2.
Proof. unfold timesOf. by rewrite List.filter_app, List.map_app. Qed.

Lemma timesOf_none p l :
  Forall (fun e => p (snd e) = false) l → timesOf p l = [].
Proof.
  unfold timesOf. induction 1 as [|e l He _ IH]; simpl; [done|]. by rewrite He.
Qed.

Lemma Quiet_health rt rt' :
  Quiet rt rt' → timesOf isHealthCheck (log rt') = timesOf isHealthCheck (log rt).
Proof.
  intros (_ & _ & _ & _ & _ & _ & _ & l & -> & Hf).
  rewrite timesOf_app, (timesOf_none _ l), app_nil_r; [done|].
  eapply Forall_impl; [exact Hf|]. by intros e [? _].
Qed.

Lemma Quiet_walks rt rt' :
  Quiet rt rt' → timesOf isWalk (log rt') = timesOf isWalk (log rt).
Proof.
  intros (_ & _ & _ & _ & _ & _ & _ & l & -> & Hf).
  rewrite timesOf_app, (timesOf_none _ l), app_nil_r; [done|].
  eapply Forall_impl; [exact Hf|]. by intros e [_ ?].
Qed.

(** *** The drawn delay *)

Lemma div_between n d z : 0 < d → n / d = z ↔ z * d <= n < (z + 1) * d.
Proof.
  intros Hd. split.
  - intros <-. pose proof (Z.mul_div_le n d Hd).
    pose proof (Z.mul_succ_div_gt n d Hd). lia.
  - intros [H1 H2]. symmetry. apply (Z.div_unique n d z (n - z * d)); lia.
Qed.

Lemma interval_preimage (r : Q) (k : Z) :
  getRandomOfflineInterval r = k ↔
  (((k - 8000) # 4001) <= r)%Q ∧ (r < ((k - 8000 + 1) # 4001))%Q.
Proof.
  unfold getRandomOfflineInterval, OFFLINE_INTERVAL_MAX, OFFLINE_INTERVAL_MIN.
  destruct r as [n d]. unfold Qfloor, Qmult, inject_Z, Qle, Qlt; simpl.
  rewrite Pos.mul_1_r. change (12000 - 8000 + 1) with 4001.
  assert (Hd : 0 < Z.pos d) by lia.
  pose proof (div_between (n * 4001) (Z.pos d) (k - 8000) Hd) as E.
  split.
  - intros H. apply E. lia.
  - intros H. apply E in H. lia.
Qed.

Lemma interval_range (r : Q) :
  (0 <= r)%Q → (r < 1)%Q → 8000 <= getRandomOfflineInterval r <= 12000.
Proof.
  intros H0 H1. remember (getRandomOfflineInterval r) as k eqn:Hk.
  symmetry in Hk. apply interval_preimage in Hk as [Ha Hb].
  destruct r as [n d]. unfold Qle, Qlt in *; simpl in *. nia.
Qed.

(** *** The started service keeps one health timer and one offline entry *)

Lemma seq_snoc_map {A} (f : nat → A) n : map f (seq 0 (S n)) = map f (seq 0 n) ++ [f n].
Proof. by rewrite seq_S, List.map_app. Qed.

Lemma Running_start env t0 rows :
  Fair env →
  enabledAccounts env = Returned rows →
  fst (connectAll env rows (boot t0)) = true →
  Running env t0 (start env (boot t0)) 0 0.
Proof.
  intros Hfair Hrows Hok. unfold start. rewrite Hrows.
  pose proof (Quiet_connectAll env rows (boot t0)) as Q.
  destruct (connectAll env rows (boot t0)) as [ok rt1]; simpl in *. subst ok.
  destruct Q as (Ht & Hc & Hn & Hr & Hw & Ho & Hh & l & Hl & Hf).
  simpl in Ht, Hc, Hn, Hr, Hw, Ho, Hh, Hl.
  unfold startHealthCheckLoop, startOfflineStatusLoop, scheduleNext, addTimer.
  rewrite Ho. cbn. rewrite Hh. cbn. unfold Running. cbn.
  rewrite Ht, Hn, Hr, Hc, Hw, Hl. cbn.
  exists 0%nat, (walkTimer env t0 0 0).
  destruct (Hfair 0%nat) as [H0 H1]. pose proof (interval_range _ H0 H1).
  repeat split; try done; try lia.
  - by left.
  - by left.
  - simpl. lia.
  - unfold healthTime, HEALTH_CHECK_INTERVAL. lia.
  - apply (timesOf_none isHealthCheck).
    eapply Forall_impl; [exact Hf|]. by intros e [? _].
  - apply (timesOf_none isWalk).
    eapply Forall_impl; [exact Hf|]. by intros e [_ ?].
Qed.

(** The entry [earliest] picks from the two pending ones. *)
Lemma earliest_pair (a b : Timer) :
  earliest [a; b] = Some (if timer_due b <? timer_due a then b else a).
Proof. simpl. by destruct (timer_due b <? timer_due a). Qed.

Lemma rearm_health t0 h :
  rearm (healthTimer t0 h) HEALTH_CHECK_INTERVAL (healthTime t0 h)
  = healthTimer t0 (S h).
Proof.
  unfold rearm, healthTimer, healthTime, HEALTH_CHECK_INTERVAL; cbn.
  f_equal. lia.
Qed.

Lemma Running_turn env t0 rt h k :
  Fair env → Running env t0 rt h k →
  Running env t0 (turn env rt) (S h) k
  ∨ Running env t0 (turn env rt) h (S k)
  ∨ Running env t0 (turn env rt) h k.
Proof.
  intros Hfair (id & o & Hts & Ho & Hwk & Hid & Hlt & Hone & Hco & Hch & Hhi & Hlh & Hlw).
  (* which entry fires *)
  assert (Hfire :
    (earliest (timers rt) = Some (healthTimer t0 h) ∧ healthTime t0 h <= timer_due o)
    ∨ (earliest (timers rt) = Some o ∧ timer_due o <= healthTime t0 h)).
  { destruct Hts as [-> | ->]; rewrite earliest_pair; simpl.
    - destruct (Z.ltb_spec (healthTime t0 h) (timer_due o)); [left|right]; split; (done || lia).
    - destruct (Z.ltb_spec (timer_due o) (healthTime t0 h)); [right|left]; split; (done || lia). }
  assert (Hoid : timer_id o = id).
  { destruct Ho as [(-> & _)|(j & _ & -> & _)]; reflexivity. }
  assert (Hneq : (timer_id o =? 1)%nat = false) by (apply Nat.eqb_neq; congruence).
  destruct Hfire as [[He Hle]|[He Hle]].
  - (* the health check fires *)
    left. unfold turn. rewrite He. cbn [timer_callback healthTimer timer_repeat timer_due timer_id].
    rewrite (Z.max_r _ _ Hch).
    set (rt2 := set_timers _ (set_clock _ rt)).
    assert (Q : Quiet (record PerformHealthCheck rt2) (performHealthCheck env rt2)).
    { unfold performHealthCheck. apply Quiet_foldl. intros. apply Quiet_checkAccount. }
    destruct Q as (Qt & Qc & Qn & Qr & Qw & Qo & Qh & l & Ql & Qf).
    exists id, o. rewrite Qt, Qc, Qn, Qr, Qw, Qo, Qh, Ql.
    assert (Hts2 : timers rt2 = [o; healthTimer t0 (S h)]
                   ∨ timers rt2 = [healthTimer t0 (S h); o]).
    { subst rt2. cbn. destruct Hts as [-> | ->]; [left|right];
        cbn [map healthTimer timer_id Nat.eqb]; rewrite Hneq;
        fold (healthTimer t0 h); by rewrite rearm_health. }
    cbn [timers clock nextTimerId randoms walks offlineInterval healthCheckInterval
         log record set_timers set_clock] in *.
    assert (Hc2 : clock rt2 = healthTime t0 h) by reflexivity.
    assert (Hl2 : log rt2 = log rt) by reflexivity.
    rewrite Hc2, Hl2.
    repeat split; try done.
    + unfold healthTime, HEALTH_CHECK_INTERVAL. lia.
    + rewrite <- app_assoc, !timesOf_app, Hlh, seq_snoc_map.
      rewrite (timesOf_none isHealthCheck l)
        by (eapply Forall_impl; [exact Qf|]; by intros e [? _]).
      by rewrite app_nil_r.
    + rewrite <- app_assoc, !timesOf_app, Hlw.
      rewrite (timesOf_none isWalk l)
        by (eapply Forall_impl; [exact Qf|]; by intros e [_ ?]).
      by rewrite !app_nil_r.
  - (* the offline entry fires *)
    right. unfold turn. rewrite He. rewrite (Z.max_r _ _ Hco).
    assert (Hothers :
      List.filter (fun t' => negb (timer_id t' =? timer_id o)%nat) (timers rt)
      = [healthTimer t0 h]).
    { assert (Hsym : (1 =? timer_id o)%nat = false) by (by rewrite Nat.eqb_sym).
      destruct Hts as [-> | ->]; cbn [List.filter healthTimer timer_id];
        rewrite Nat.eqb_refl, Hsym; reflexivity. }
    destruct Ho as [(-> & Hr & Hoi)|(j & -> & -> & Hr)].
    + (* a walk starts *)
      left. cbn [timer_callback walkTimer timer_due timer_id] in *.
      set (rt1 := record OfflineWalk _).
      pose proof (Quiet_offlineWalk env rt1) as Q.
      destruct Q as (Qt & Qc & Qn & Qr & Qw & Qo & Qh & l & Ql & Qf).
      unfold addTimer, countWalk.
      exists (nextTimerId rt), (restTimer env t0 k (nextTimerId rt)).
      cbn [timers clock nextTimerId randoms walks offlineInterval healthCheckInterval
           log fst snd].
      rewrite Qt, Qc, Qn, Qr, Qw, Qh, Ql. subst rt1.
      cbn [timers clock nextTimerId randoms walks offlineInterval healthCheckInterval
           log record set_timers set_clock].
      rewrite Hothers, Hwk.
      repeat split; try done; try lia.
      * by right.
      * right. by exists k.
      * cbn. lia.
      * rewrite <- app_assoc, !timesOf_app, Hlh.
        rewrite (timesOf_none isHealthCheck l)
          by (eapply Forall_impl; [exact Qf|]; by intros e [? _]).
        by rewrite !app_nil_r.
      * rewrite <- app_assoc, !timesOf_app, Hlw, seq_snoc_map.
        rewrite (timesOf_none isWalk l)
          by (eapply Forall_impl; [exact Qf|]; by intros e [_ ?]).
        by rewrite app_nil_r.
    + (* the walk is over: the next one is scheduled *)
      right. cbn [timer_callback restTimer timer_due timer_id] in *.
      unfold scheduleNext, addTimer, set_offline.
      cbn [timers clock nextTimerId randoms walks offlineInterval healthCheckInterval
           log set_timers set_clock fst snd].
      exists (nextTimerId rt), (walkTimer env t0 (S j) (nextTimerId rt)).
      cbn [timers clock nextTimerId randoms walks offlineInterval healthCheckInterval
           log set_timers set_clock fst snd].
      rewrite Hothers, Hr.
      destruct (Hfair (S j)) as [H0 H1]. pose proof (interval_range _ H0 H1).
      repeat split; try done; try lia.
      * by right.
      * left. repeat split; try done. lia.
      * cbn. lia.
Qed.

Lemma Running_turns env t0 rows n :
  Fair env → enabledAccounts env = Returned rows →
  fst (connectAll env rows (boot t0)) = true →
  ∃ h k, Running env t0 (turns n env (start env (boot t0))) h k.
Proof.
  intros Hfair Hrows Hok.
  assert (Hgen : ∀ n rt h k, Running env t0 rt h k →
                 ∃ h' k', Running env t0 (turns n env rt) h' k').
  { clear n. induction n as [|n IH]; intros rt h k Hrun; simpl; [by exists h, k|].
    destruct (Running_turn env t0 rt h k Hfair Hrun) as [H|[H|H]];
      by apply IH in H. }
  apply (Hgen n _ 0%nat 0%nat). by apply (Running_start env t0 rows).
Qed.

Lemma Running_health env t0 rt h k :
  Running env t0 rt h k → h = length (timesOf isHealthCheck (log rt)).
Proof.
  intros (id & o & _ & _ & _ & _ & _ & _ & _ & _ & _ & Hlh & _).
  by rewrite Hlh, length_map, length_seq.
Qed.

Lemma connectAll_log env rows rt :
  fst (connectAll env rows rt) = true →
  log (snd (connectAll env rows rt))
  = log rt ++ map (fun id => (clock rt, ConnectAccount id)) rows.
Proof.
  revert rt. induction rows as [|id rows IH]; intros rt Hok; simpl in *.
  - by rewrite app_nil_r.
  - pose proof (Quiet_doConnect env id rt) as (_ & Hc & _).
    unfold doConnect in *.
    destruct (connectAccount env (clock rt) id); simpl in *; [|discriminate].
    rewrite IH by exact Hok. simpl. by rewrite <- app_assoc.
Qed.

(** *** The walk reaches every account *)

Lemma Quiet_log rt rt' x : Quiet rt rt' → In x (log rt) → In x (log rt').
Proof.
  intros (_ & _ & _ & _ & _ & _ & _ & l & -> & _) Hin. apply in_or_app. by left.
Qed.

Lemma visit_pays env e rt : In (clock rt, owed e) (log (visitOffline env e rt)).
Proof.
  destruct e as [id account]. unfold visitOffline, owed. simpl.
  destruct (isConnected account) eqn:E.
  - unfold setOfflineStatus. rewrite E.
    assert (H1 : In (clock rt, UpdateStatus (accountId account))
                   (log (record (UpdateStatus (accountId account)) rt)))
      by (simpl; apply in_or_app; right; by left).
    destruct (updateStatus env (clock rt) (accountId account) 0); [|exact H1].
    destruct (updateStatus env (clock rt) (accountId account) 1).
    + eapply Quiet_log; [|exact H1].
      eapply Quiet_trans; by apply Quiet_record.
    + eapply Quiet_log; [|exact H1]. by apply Quiet_record.
  - unfold doConnect.
    destruct (connectAccount env (clock rt) id); simpl;
      apply in_or_app; right; by left.
Qed.

Lemma walk_pays env entries e :
  In e entries →
  ∀ rt, In (clock rt, owed e) (log (foldl (fun acc x => visitOffline env x acc) rt entries)).
Proof.
  induction entries as [|x entries IH]; intros Hin rt; [done|].
  simpl. destruct Hin as [->|Hin].
  - eapply Quiet_log; [|apply visit_pays].
    apply Quiet_foldl. intros. apply Quiet_visitOffline.
  - pose proof (Quiet_visitOffline env x rt) as (_ & Hc & _).
    rewrite <- Hc. by apply IH.
Qed.

End Loops.

Section LoopTheorems.
Import Js Service Scenario.


Lemma calm_fair : Fair calm.
Proof. intros i. split; [unfold Qle; simpl; lia|reflexivity]. Qed.





End LoopTheorems.

(* ===================================================================== *)
(** ** Store keys: lemmas *)
(* ===================================================================== *)

Section KeyFacts.
Import Js Handler Keys.

Lemma avoids_pretty_N_go c x s :
  (∀ d, avoids c (String (pretty_N_char d) "") = true) →
  avoids c s = true → avoids c (pretty_N_go x s) = true.
Proof.
  intros Hd. revert s. induction (N.lt_wf_0 x) as [x _ IH]; intros s Hs.
  destruct (decide (0 < x)%N) as [Hx|Hx].
  - rewrite pretty_N_go_step by done. apply IH; [by apply N.div_lt|].
    simpl. specialize (Hd (x `mod` 10)%N). simpl in Hd.
    rewrite andb_true_r in Hd. by rewrite Hd.
  - assert (x = 0%N) as -> by lia. by rewrite pretty_N_go_0.
Qed.

Lemma avoids_underscore_digit d : avoids "_" (String (pretty_N_char d) "") = true.
Proof. unfold pretty_N_char. by repeat case_match. Qed.

Lemma avoids_pretty_N (x : N) : avoids "_" (pretty x) = true.
Proof.
  unfold pretty, pretty_N. case_decide; [done|].
  apply avoids_pretty_N_go; [apply avoids_underscore_digit|done].
Qed.

(** A character that is neither a digit nor the sign is in no rendering. *)
Lemma avoids_pretty_Z_char (c : ascii) (z : Z) :
  (∀ d, avoids c (String (pretty_N_char d) "") = true) → Ascii.eqb "-" c = false →
  avoids c (pretty z) = true.
Proof.
  intros Hd Hs.
  assert (HN : ∀ x : N, avoids c (pretty x) = true).
  { intros x. unfold pretty, pretty_N. case_decide; [apply (Hd 0%N)|].
    by apply avoids_pretty_N_go. }
  destruct z as [|p|p]; [apply (Hd 0%N)|apply (HN (N.pos p))|].
  change (pretty (Z.neg p)) with ("-" +:+ pretty (N.pos p)).
  change (avoids c ("-" +:+ pretty (N.pos p)))
    with (negb (Ascii.eqb "-" c) && avoids c (pretty (N.pos p))).
  rewrite Hs. apply (HN (N.pos p)).
Qed.

Lemma avoids_pretty_Z (z : Z) : avoids "_" (pretty z) = true.
Proof.
  destruct z as [|p|p]; [done|apply (avoids_pretty_N (N.pos p))|].
  unfold pretty, pretty_Z. simpl. apply (avoids_pretty_N (N.pos p)).
Qed.

(** A string is cut at its first underscore in one way only. *)
Lemma cut_unique u u' v v' :
  avoids "_" u = true → avoids "_" u' = true →
  u +:+ "_" +:+ v = u' +:+ "_" +:+ v' → u = u' ∧ v = v'.
Proof.
  revert u'. induction u as [|x u IH]; intros [|x' u'] Hu Hu' Heq; simpl in *.
  - by injection Heq.
  - injection Heq as <- _. by apply andb_prop in Hu' as [? _].
  - injection Heq as -> _. by apply andb_prop in Hu as [? _].
  - injection Heq as -> Heq.
    apply andb_prop in Hu as [_ Hu]. apply andb_prop in Hu' as [_ Hu'].
    destruct (IH u' Hu Hu' Heq) as [-> ->]. done.
Qed.

Lemma getChatKey_inj a a' c c' :
  getChatKey a c = getChatKey a' c' → a = a' ∧ c = c'.
Proof.
  unfold getChatKey. intros H.
  apply cut_unique in H as [Ha Hc]; try apply avoids_pretty_Z.
  split; [by apply (inj pretty)|done].
Qed.

Lemma getMessageKey_inj a a' (c c' n n' : Z) :
  getMessageKey a (pretty c) (pretty n) = getMessageKey a' (pretty c') (pretty n') →
  a = a' ∧ c = c' ∧ n = n'.
Proof.
  unfold getMessageKey. intros H.
  apply cut_unique in H as [Ha H]; try apply avoids_pretty_Z.
  apply cut_unique in H as [Hc Hn]; try apply avoids_pretty_Z.
  repeat split; by apply (inj pretty).
Qed.

End KeyFacts.

Section DispatchFacts.
Import Js Handler Dispatch.

Lemma segment_calls tr a w t : calls (fst (segment tr a w t)) = calls w.
Proof.
  destruct t; simpl; try reflexivity; repeat case_match; simpl; try reflexivity.
  all: try match goal with
       | H : hasRepliedToChatRecently _ _ _ = (false, _) |- _ =>
           apply hasReplied_false_clears in H as (_ & _ & _ & _ & _ & ->)
       | H : hasRepliedToChatRecently _ _ _ = (true, _) |- _ =>
           apply hasReplied_true_keeps in H as ->
       end; reflexivity.
Qed.

Lemma replies_app l1 l2 : replies (l1 ++ l2) = replies l1 ++ replies l2.
Proof. apply List.filter_app. Qed.

(** One resumption extends the record by the call the task parks on
    next, and the extended record fits the new task. *)
Lemma Trail_resume tr a event w t l :
  Trail tr a event t l →
  ∃ l1, calls (fst (resume tr a w t)) = calls w ++ l1
        ∧ Trail tr a event (snd (resume tr a w t)) (l ++ l1).
Proof.
  intros HT. unfold resume.
  pose proof (segment_calls tr a w t) as Hc.
  destruct (segment tr a w t) as [w1 t1] eqn:Hseg. simpl in Hc.
  assert (Hout : ∃ l1, calls (match request t1 with
                                | Some r => call a r w1 | None => w1 end)
                        = calls w ++ l1
                        ∧ l1 = match request t1 with
                               | Some r => [(a, r)] | None => [] end).
  { destruct (request t1); simpl; eexists; (split; [|reflexivity]);
      rewrite Hc; [reflexivity|by rewrite app_nil_r]. }
  destruct Hout as (l1 & Hl1 & Hdef). exists l1. split; [exact Hl1|]. simpl.
  subst l1.
  destruct t; simpl in Hseg, HT.
  - (* Invoked *)
    destruct HT as [-> ->]. destruct event as [m|]; [|injection Hseg as <- <-; by left].
    destruct (msg_out m) eqn:Hm; injection Hseg as <- <-; simpl; [by left|done].
  - destruct HT as (He & Ho & Hr).
    destruct (getMe tr) as [me|] eqn:Hme; [|injection Hseg as <- <-; simpl; left; by rewrite app_nil_r].
    destruct (isMessageFromSelf m (me_id me)) eqn:Hs; injection Hseg as <- <-; simpl.
    + left. by rewrite app_nil_r.
    + rewrite replies_app, Hr. done.
  - destruct HT as (He & Ho & Hme & Hs & Hr).
    destruct (isSenderBot tr m) eqn:Hb; [injection Hseg as <- <-; simpl; left; by rewrite app_nil_r|].
    destruct (textIsEmpty m) eqn:Ht; injection Hseg as <- <-; simpl.
    + left. by rewrite app_nil_r.
    + rewrite replies_app, Hr. done.
  - destruct HT as (He & Hsc & Hr).
    destruct (getChat tr m) as [[chat|]|] eqn:Hch;
      try (injection Hseg as <- <-; simpl; left; by rewrite app_nil_r).
    destruct (chatIdOf chat); [|injection Hseg as <- <-; simpl; left; by rewrite app_nil_r].
    destruct (messageIdOf m); [|injection Hseg as <- <-; simpl; left; by rewrite app_nil_r].
    destruct (isProcessingMessage a s s0 w); injection Hseg as <- <-; simpl.
    + left. by rewrite app_nil_r.
    + rewrite replies_app, Hr. done.
  - destruct HT as (He & Hsc & Hch & Hr).
    destruct (getAccountSettings tr a) as [[s|]|] eqn:Hset;
      try (injection Hseg as <- <-; simpl; left; by rewrite app_nil_r).
    destruct (dmConfigured chat s) eqn:Hdm.
    + destruct (hasRepliedToChatRecently a chatId w) as [[|] w2];
        injection Hseg as <- <-; simpl.
      * left. by rewrite app_nil_r.
      * rewrite replies_app, Hr. split; [done|].
        exists m, me, s. do 4 (split; [done|]). by left.
    + destruct (groupConfigured chat s) eqn:Hg; injection Hseg as <- <-; simpl.
      * rewrite replies_app, Hr. done.
      * left. by rewrite app_nil_r.
  - destruct HT as (He & Hsc & Hch & Hset & Hdm & Hg & Hr).
    injection Hseg as <- <-. simpl. rewrite replies_app, Hr. done.
  - destruct HT as (He & Hsc & Hch & Hset & Hdm & Hg & HisM & Hr).
    destruct (negb isMentioned && negb (isReplyToAccount tr m)) eqn:Htr;
      injection Hseg as <- <-; simpl.
    + left. by rewrite app_nil_r.
    + rewrite replies_app, Hr. split; [done|].
      exists m, me, settings. do 4 (split; [done|]). right.
      do 2 (split; [done|]). split; [|done]. subst isMentioned.
      destruct (isAccountMentioned _ _ _), (isReplyToAccount tr m); done.
  - destruct HT as (Hr & HJ).
    assert (t1 = Finished) as ->
      by (destruct (sendMessage tr chat opts); by injection Hseg as <- <-).
    simpl. right. exists chat, opts. by rewrite app_nil_r.
  - destruct HT as (Hr & HJ). injection Hseg as <- <-.
    simpl. right. exists chat, opts. by rewrite app_nil_r.
  - injection Hseg as <- <-. simpl. by rewrite app_nil_r.
Qed.

Lemma Trail_run n tr a event base : ∀ w t l,
  calls w = base ++ l → Trail tr a event t l →
  ∃ l', calls (fst (run n tr a w t)) = base ++ l'
        ∧ Trail tr a event (snd (run n tr a w t)) l'.
Proof.
  induction n as [|n IH]; intros w t l Hc HT; [by exists l|].
  destruct (decide (rank t = 0%nat)) as [Hz|Hnz].
  { destruct t; simpl in Hz; try lia. by exists l. }
  assert (Hne : t ≠ Finished) by (intros ->; simpl in Hnz; lia).
  rewrite run_unfold by exact Hne. cbv zeta.
  set (w1 := match request t with Some r => tick (latency tr r) w | None => w end).
  assert (Hc1 : calls w1 = base ++ l) by (unfold w1; destruct (request t); exact Hc).
  destruct (Trail_resume tr a event w1 t l HT) as (l1 & Hl1 & HT1).
  apply (IH _ _ (l ++ l1)); [|exact HT1].
  by rewrite Hl1, Hc1, app_assoc.
Qed.

End DispatchFacts.

(* ===================================================================== *)
(** ** Handler: keys, sends and the held marker *)
(* ===================================================================== *)

Section HandlerExtras.
Import Js Handler Dispatch Scenario.

(** X1. Store keys name one chat and one message. Two cooldown keys are
    equal only for the same account and the same chat id, whatever the
    chat ids are; two in-flight keys built from decimal chat and message
    ids are equal only for the same account, chat and message. *)
Theorem keys_name_one_chat_and_message
    (a a' c c' n n' : Z) (chatId chatId' : string) :
  (getChatKey a chatId = getChatKey a' chatId' ↔ a = a' ∧ chatId = chatId')
  ∧ (getMessageKey a (pretty c) (pretty n) = getMessageKey a' (pretty c') (pretty n')
     ↔ a = a' ∧ c = c' ∧ n = n').
Proof.
  split; split.
  - apply getChatKey_inj.
  - by intros [-> ->].
  - apply getMessageKey_inj.
  - by intros (-> & -> & ->).
Qed.

(** X2. The cooldown is kept per chat: recording a reply in one chat, or
    looking one chat up (which may delete its expired entry), changes
    neither the entry nor the answer for any other chat or account. *)
Theorem cooldown_is_per_chat
    (a a' : Z) (c c' : string) (w : World)
    (Other : (a, c) ≠ (a', c')) :
  hasRepliedToChatRecently a' c' (markChatAsReplied a c w)
  = (fst (hasRepliedToChatRecently a' c' w),
     markChatAsReplied a c (snd (hasRepliedToChatRecently a' c' w)))
  ∧ repliedChats (snd (hasRepliedToChatRecently a c w)) !! getChatKey a' c'
    = repliedChats w !! getChatKey a' c'
  ∧ fst (hasRepliedToChatRecently a' c' (snd (hasRepliedToChatRecently a c w)))
    = fst (hasRepliedToChatRecently a' c' w).
Proof.
  assert (Hk : getChatKey a c ≠ getChatKey a' c').
  { intros H. apply getChatKey_inj in H as [-> ->]. by apply Other. }
  assert (Hlook : repliedChats (snd (hasRepliedToChatRecently a c w)) !! getChatKey a' c'
                  = repliedChats w !! getChatKey a' c').
  { unfold hasRepliedToChatRecently.
    destruct (repliedChats w !! getChatKey a c) as [t0|]; [|done].
    destruct (t0 <? now w - cooldown); [|done].
    simpl. by rewrite lookup_delete_ne. }
  split; [|split; [exact Hlook|]].
  - unfold hasRepliedToChatRecently at 1. simpl.
    rewrite lookup_insert_ne by exact Hk.
    unfold hasRepliedToChatRecently.
    destruct (repliedChats w !! getChatKey a' c') as [t0|]; [|done].
    destruct (t0 <? now w - cooldown); [|done].
    simpl. unfold markChatAsReplied, set_repliedChats. simpl.
    f_equal. f_equal. by rewrite delete_insert_ne.
  - unfold hasRepliedToChatRecently at 1 3. rewrite Hlook.
    destruct (repliedChats w !! getChatKey a' c') as [t0|]; [|done].
    assert (Hnow : now (snd (hasRepliedToChatRecently a c w)) = now w).
    { unfold hasRepliedToChatRecently.
      destruct (repliedChats w !! getChatKey a c) as [t1|]; [|done].
      by destruct (t1 <? now w - cooldown). }
    rewrite Hnow. by destruct (t0 <? now w - cooldown).
Qed.

Lemma cooldown_is_per_chat_witness :
  let w := markChatAsReplied 123 "555" (idle 0) in
  (123, "555") ≠ (123, "556")
  ∧ fst (hasRepliedToChatRecently 123 "555" w) = true
  ∧ fst (hasRepliedToChatRecently 123 "556" w) = false.
Proof.
  intros w.
  assert (Other : (123, "555") ≠ (123, "556")) by discriminate.
  destruct (cooldown_is_per_chat 123 123 "555" "556" (idle 0) Other) as (H & _ & _).
  split; [exact Other|]. split; [reflexivity|].
  fold w in H. by rewrite H.
Defined.



(** X4. An invocation sends at most one message, and only one the event
    accounts for: the event carries an inbound message that passed the
    screening (not the session's own, not a bot's, not blank), the
    message's chat and the account's settings were obtained, and the
    send is either the direct-message text to a [User] chat with
    direct-message replies configured, or the group text to a group chat
    with group replies configured whose message mentions the session or
    replies to it. The record of calls only grows. *)
Theorem at_most_one_justified_reply
    (tr : Transport) (a : Z) (event : option Message) (w : World) :
  let w' := handleIncomingMessage tr a event w in
  calls w' = calls w ++ issued w w'
  ∧ (replies (issued w w') = []
     ∨ ∃ chat opts,
         replies (issued w w') = [(a, SendMessage chat opts)]
         ∧ Justified tr a event chat opts).
Proof.
  intros w'.
  destruct (Trail_run 8 tr a event (calls w) w (Invoked event) [])
    as (l' & Hc & HT); [by rewrite app_nil_r|done|].
  rewrite handler_returns in HT. simpl in HT.
  fold (handleIncomingMessage tr a event w) in Hc. fold w' in Hc.
  rewrite (issued_app w w' l' Hc). split; [exact Hc|exact HT].
Qed.

(** X5. A duplicate that arrives while the marker is held is dropped
    at the in-flight check: the handler has asked for the identity, the
    sender and the chat, and returns there; it reads no settings, sends
    nothing and touches neither store. *)
Theorem held_marker_stops_the_duplicate
    (tr : Transport) (a : Z) (m : Message) (w : World)
    (me : Me) (chat : Chat) (chatId mid : string)
    (Passed : Screened tr m me)
    (InChat : getChat tr m = Returned (Some chat))
    (ChatId : chatIdOf chat = Some chatId)
    (MessageId : messageIdOf m = Some mid)
    (Held : isProcessingMessage a chatId mid (atCheck tr a w) = true) :
  handleIncomingMessage tr a (Some m) w = atCheck tr a w
  ∧ issued w (handleIncomingMessage tr a (Some m) w)
    = [(a, GetMe); (a, IsSenderBot); (a, GetChat)]
  ∧ repliedChats (handleIncomingMessage tr a (Some m) w) = repliedChats w.
Proof.
  destruct Passed as (Hout & Hme & Hself & Hbot & Htext).
  assert (Hrun : handleIncomingMessage tr a (Some m) w = atCheck tr a w).
  { unfold handleIncomingMessage.
    rewrite run_unfold by discriminate. cbn [request]. cbv zeta.
    unfold resume at 1 2. cbn [segment]. rewrite Hout. cbn [request fst snd].
    rewrite run_unfold by discriminate. cbn [request]. cbv zeta.
    unfold resume at 1 2. cbn [segment]. rewrite Hme, Hself. cbn [request fst snd].
    rewrite run_unfold by discriminate. cbn [request]. cbv zeta.
    unfold resume at 1 2. cbn [segment]. rewrite Hbot, Htext. cbn [request fst snd].
    rewrite run_unfold by discriminate. cbn [request]. cbv zeta.
    unfold resume at 1 2. cbn [segment]. rewrite InChat, ChatId, MessageId.
    fold (atCheck tr a w). rewrite Held. reflexivity. }
  rewrite Hrun. split; [reflexivity|]. split; [|reflexivity].
  apply issued_app. unfold atCheck. simpl. by rewrite <- !app_assoc.
Qed.

Lemma held_marker_stops_the_duplicate_witness :
  let tr := client dmChat true 10 in
  let m := textMessage 7 42 "hi" in
  let w := markMessageProcessing 123 "555" "7" (idle 0) in
  Screened tr m alice
  ∧ isProcessingMessage 123 "555" "7" (atCheck tr 123 w) = true
  ∧ issued w (handleIncomingMessage tr 123 (Some m) w)
    = [(123, GetMe); (123, IsSenderBot); (123, GetChat)].
Proof.
  intros tr m w.
  assert (Passed : Screened tr m alice) by (repeat split; vm_compute; reflexivity).
  assert (Held : isProcessingMessage 123 "555" "7" (atCheck tr 123 w) = true)
    by (vm_compute; reflexivity).
  destruct (held_marker_stops_the_duplicate tr 123 m w alice dmChat "555" "7"
              Passed eq_refl eq_refl eq_refl Held) as (_ & H & _).
  split; [exact Passed|]. split; [exact Held|exact H].
Defined.

End HandlerExtras.

(* ===================================================================== *)
(** ** Polling: the last-seen store *)
(* ===================================================================== *)

Section SeenFacts.
Import Js Handler Poller.

Lemma seenGet_None k (m : Seen) : seenGet k m = None ↔ ¬ In k (map fst m).
Proof.
  induction m as [|[k' v'] m IH]; simpl; [tauto|].
  destruct (String.eqb_spec k' k) as [->|Hne].
  - split; [discriminate|]. intros H. exfalso. apply H. by left.
  - rewrite IH. split; [intros H [?|?]; tauto|tauto].
Qed.

Lemma seenGet_seenSet k v (m : Seen) : seenGet k (seenSet k v m) = Some v.
Proof.
  induction m as [|[k' v'] m IH]; simpl.
  - by rewrite String.eqb_refl.
  - destruct (String.eqb_spec k' k) as [->|Hne]; simpl.
    + by rewrite String.eqb_refl.
    + destruct (String.eqb_spec k' k); [done|exact IH].
Qed.

Lemma seenGet_seenSet_ne k k' v (m : Seen) :
  k ≠ k' → seenGet k' (seenSet k v m) = seenGet k' m.
Proof.
  intros Hne. induction m as [|[k0 v0] m IH]; simpl.
  - destruct (String.eqb_spec k k'); [done|reflexivity].
  - destruct (String.eqb_spec k0 k) as [->|H0]; simpl.
    + destruct (String.eqb_spec k k'); [done|reflexivity].
    + destruct (String.eqb_spec k0 k'); [reflexivity|exact IH].
Qed.

(** Setting a key that is absent appends it. *)
Lemma seenSet_new k v (m : Seen) :
  ¬ In k (map fst m) → seenSet k v m = m ++ [(k, v)].
Proof.
  induction m as [|[k' v'] m IH]; simpl; [done|]. intros H.
  destruct (String.eqb_spec k' k) as [->|Hne]; [tauto|].
  rewrite IH; [done|tauto].
Qed.

(** Setting a key that is present keeps the keys as they are. *)
Lemma seenSet_keys k v (m : Seen) :
  In k (map fst m) → map fst (seenSet k v m) = map fst m.
Proof.
  induction m as [|[k' v'] m IH]; simpl; [done|]. intros H.
  destruct (String.eqb_spec k' k) as [->|Hne]; simpl; [done|].
  f_equal. apply IH. destruct H; [done|assumption].
Qed.

Lemma rebuild_id (l acc : Seen) :
  NoDup (map fst (acc ++ l)) →
  foldl (fun m e => seenSet (fst e) (snd e) m) acc l = acc ++ l.
Proof.
  revert acc. induction l as [|[k v] l IH]; intros acc Hnd; simpl.
  - by rewrite app_nil_r.
  - assert (Hk : ¬ In k (map fst acc)).
    { rewrite List.map_app in Hnd. simpl in Hnd.
      apply NoDup_app in Hnd as (_ & Hd & _). intros Hin.
      apply (Hd k); [by apply list_elem_of_In|]. by left. }
    rewrite (seenSet_new k v acc Hk).
    rewrite IH; by rewrite <- app_assoc.
Qed.

Lemma NoDup_drop {A} n (l : list A) : NoDup l → NoDup (drop n l).
Proof.
  intros H. rewrite <- (take_drop n l) in H. by apply NoDup_app in H as (_ & _ & ?).
Qed.

Lemma keys_drop n (m : Seen) : map fst (drop n m) = drop n (map fst m).
Proof. symmetry. apply List.skipn_map. Qed.

Lemma In_keys_drop k n (m : Seen) : In k (map fst (drop n m)) → In k (map fst m).
Proof.
  rewrite keys_drop. intros H. apply list_elem_of_In.
  apply (subseteq_drop n (map fst m)). by apply list_elem_of_In.
Qed.

Lemma NoDup_keys_snoc (m : Seen) k v :
  NoDup (map fst m) → ¬ In k (map fst m) → NoDup (map fst (m ++ [(k, v)])).
Proof.
  intros Hnd Hout. rewrite List.map_app. simpl. apply NoDup_app.
  split; [exact Hnd|split; [|apply NoDup_singleton]].
  intros x Hx Hx'. apply list_elem_of_In in Hx'. destruct Hx' as [<-|[]].
  apply Hout. by apply list_elem_of_In.
Qed.

(** What [setLastSeenMessageId] leaves, case by case. *)
Lemma setLastSeen_cases a c v seen :
  Sane seen →
  let key := lastSeenKey a c in
  (In key (map fst seen)
   ∧ setLastSeenMessageId a c v seen = seenSet key v seen
   ∧ map fst (setLastSeenMessageId a c v seen) = map fst seen)
  ∨ (¬ In key (map fst seen) ∧ (length seen < 500)%nat
     ∧ setLastSeenMessageId a c v seen = seen ++ [(key, v)])
  ∨ (¬ In key (map fst seen) ∧ length seen = 500%nat
     ∧ setLastSeenMessageId a c v seen = drop 251 seen ++ [(key, v)]).
Proof.
  intros [Hnd Hlen] key. unfold setLastSeenMessageId. fold key.
  destruct (in_dec String.string_dec key (map fst seen)) as [Hin|Hout].
  - left. split; [exact Hin|].
    assert (Hl : length (seenSet key v seen) = length seen).
    { rewrite <- (length_map fst (seenSet key v seen)), seenSet_keys by exact Hin.
      by rewrite length_map. }
    rewrite Hl. destruct (Nat.ltb_spec 500 (length seen)); [lia|].
    split; [reflexivity|by apply seenSet_keys].
  - right. rewrite (seenSet_new key v seen Hout). rewrite length_app. simpl.
    destruct (Nat.ltb_spec 500 (length seen + 1)) as [Hbig|Hsmall].
    + right. split; [exact Hout|]. split; [lia|].
      assert (Hlen' : length seen = 500%nat) by lia.
      replace (length seen + 1 - 250)%nat with 251%nat by lia.
      rewrite drop_app_le by lia.
      apply (rebuild_id _ []). simpl. apply NoDup_keys_snoc.
      * rewrite keys_drop. exact (NoDup_drop _ _ Hnd).
      * intros Hin. apply Hout. by apply (In_keys_drop key 251).
    + left. split; [exact Hout|]. split; [lia|reflexivity].
Qed.

Lemma Sane_setLastSeen a c v seen :
  Sane seen → Sane (setLastSeenMessageId a c v seen).
Proof.
  intros HS. pose proof HS as [Hnd Hlen].
  destruct (setLastSeen_cases a c v seen HS) as
    [(Hin & He & Hk)|[(Hout & Hl & ->)|(Hout & Hl & ->)]].
  - split; [by rewrite Hk|].
    rewrite <- (length_map fst), Hk, length_map. exact Hlen.
  - split; [|rewrite length_app; simpl; lia]. by apply NoDup_keys_snoc.
  - split; [|rewrite length_app, length_drop; simpl; lia].
    apply NoDup_keys_snoc.
    + rewrite keys_drop. exact (NoDup_drop _ _ Hnd).
    + intros Hin. apply Hout. by apply (In_keys_drop _ 251).
Qed.

Lemma seenGet_app_new k v (m : Seen) :
  ¬ In k (map fst m) → seenGet k (m ++ [(k, v)]) = Some v.
Proof.
  intros H. rewrite <- (seenSet_new k v m H). apply seenGet_seenSet.
Qed.

Lemma seenGet_setLastSeen a c v seen :
  Sane seen →
  seenGet (lastSeenKey a c) (setLastSeenMessageId a c v seen) = Some v.
Proof.
  intros HS.
  destruct (setLastSeen_cases a c v seen HS) as
    [(Hin & -> & Hk)|[(Hout & Hl & ->)|(Hout & Hl & ->)]].
  - apply seenGet_seenSet.
  - by apply seenGet_app_new.
  - apply seenGet_app_new. intros Hin. apply Hout. by apply (In_keys_drop _ 251).
Qed.

End SeenFacts.

Section PollFacts.
Import Js Handler Poller.

(** [pollDialog] through [candidate]. *)
Lemma pollDialog_candidate a s me d seen :
  pollDialog a s me d seen =
  match candidate s me d with
  | None => (seen, [])
  | Some (chat, m) =>
      if alreadySeen (msg_id m) (getLastSeenMessageId a (chatNumber chat) seen)
      then (seen, [])
      else
        (setLastSeenMessageId a (chatNumber chat) (msg_id m) seen,
         if msg_out m || textIsEmpty m || fromSelf m (toNumber (me_id me))
            || senderIsBot m then []
         else if isDM chat then deliver d chat (Polling.dmReply s)
         else if isGroup chat && shouldReply d me m
         then deliver d chat (Polling.groupReply s m)
         else [])
  end.
Proof.
  unfold pollDialog, candidate.
  destruct (dialog_chat d) as [[chat|]|]; try reflexivity.
  destruct (isDM chat && negb (hasDmReply s)); [reflexivity|].
  destruct (isGroup chat && negb (hasGroupReply s)); [reflexivity|].
  destruct (negb (isDM chat) && negb (isGroup chat)); [reflexivity|]. simpl.
  destruct (bool_decide (chatNumber chat = Some (toNumber (me_id me)))); [reflexivity|].
  destruct (dialog_messages d) as [[[|m rest]|]|]; try reflexivity.
  destruct (alreadySeen _ _); [reflexivity|].
  destruct (msg_out m); [reflexivity|]. destruct (textIsEmpty m); [reflexivity|].
  destruct (fromSelf m _); [reflexivity|]. destruct (senderIsBot m); [reflexivity|].
  simpl. destruct (isDM chat); [reflexivity|].
  by destruct (isGroup chat && shouldReply d me m).
Qed.

Lemma Settled_skips a s me d seen :
  Settled a s me d seen → pollDialog a s me d seen = (seen, []).
Proof.
  unfold Settled. rewrite pollDialog_candidate.
  destruct (candidate s me d) as [[chat m]|]; [|done]. by intros ->.
Qed.

Lemma getLast_value a c seen :
  getLastSeenMessageId a c seen = seenValue (lastSeenKey a c) seen.
Proof. reflexivity. Qed.

Lemma alreadySeen_mono v x y : x <= y → alreadySeen v x = true → alreadySeen v y = true.
Proof.
  destruct v as [n|]; simpl; [|done]. intros Hxy H.
  apply Z.leb_le in H. apply Z.leb_le. lia.
Qed.

Lemma Settled_mono a s me d seen seen' :
  below seen seen' → Settled a s me d seen → Settled a s me d seen'.
Proof.
  unfold Settled. intros Hb. destruct (candidate s me d) as [[chat m]|]; [|done].
  apply alreadySeen_mono. rewrite !getLast_value. apply Hb.
Qed.

Lemma below_refl seen : below seen seen.
Proof. intros k. lia. Qed.

Lemma below_trans s1 s2 s3 : below s1 s2 → below s2 s3 → below s1 s3.
Proof. intros H1 H2 k. specialize (H1 k). specialize (H2 k). lia. Qed.

(** With room left in the store, recording a new id moves one key up
    and leaves the others. *)
Lemma setLastSeen_room a c n seen :
  Sane seen → (length seen < 500)%nat →
  getLastSeenMessageId a c seen < n →
  let seen1 := setLastSeenMessageId a c (Some n) seen in
  below seen seen1 ∧ (length seen1 <= S (length seen))%nat
  ∧ getLastSeenMessageId a c seen1 = n.
Proof.
  intros HS Hroom Hnew seen1.
  assert (Hget : getLastSeenMessageId a c seen1 = n).
  { unfold getLastSeenMessageId, seen1. by rewrite seenGet_setLastSeen. }
  assert (Hset : seen1 = seenSet (lastSeenKey a c) (Some n) seen).
  { unfold seen1.
    destruct (setLastSeen_cases a c (Some n) seen HS) as
      [(Hin & -> & Hkeys)|[(Hout & Hl & ->)|(Hout & Hl & _)]]; [done| |lia].
    by rewrite (seenSet_new _ _ _ Hout). }
  split; [|split; [|exact Hget]].
  - intros k. destruct (String.string_dec k (lastSeenKey a c)) as [->|Hk].
    + rewrite <- !getLast_value, Hget. lia.
    + unfold seenValue. rewrite Hset, seenGet_seenSet_ne by done. lia.
  - rewrite Hset.
    destruct (in_dec String.string_dec (lastSeenKey a c) (map fst seen)) as [Hin|Hout].
    + rewrite <- (length_map fst), seenSet_keys, length_map by exact Hin. lia.
    + rewrite (seenSet_new _ _ _ Hout), length_app. simpl. lia.
Qed.

(** One dialog polled with room left in the store. *)
Lemma pollDialog_room a s me d seen :
  Sane seen → (length seen < 500)%nat → Numbered s me [d] →
  let seen1 := fst (pollDialog a s me d seen) in
  Sane seen1 ∧ (length seen1 <= S (length seen))%nat
  ∧ below seen seen1 ∧ Settled a s me d seen1.
Proof.
  intros HS Hroom Hid seen1. unfold seen1, Settled. rewrite pollDialog_candidate.
  destruct (candidate s me d) as [[chat m]|] eqn:Hc;
    [|simpl; repeat split; (apply HS || lia || apply below_refl)].
  destruct (msg_id m) as [n|] eqn:Hn;
    [|exfalso; by apply (Hid d chat m (or_introl eq_refl) Hc)].
  destruct (alreadySeen (Some n) _) eqn:Hseen; cbn [fst].
  - repeat split; try apply HS; try lia; [apply below_refl|exact Hseen].
  - simpl in Hseen. apply Z.leb_gt in Hseen.
    destruct (setLastSeen_room a (chatNumber chat) n seen HS Hroom Hseen)
      as (Hb & Hl & Hg).
    split; [by apply Sane_setLastSeen|]. split; [exact Hl|].
    split; [exact Hb|]. rewrite Hg. simpl. apply Z.leb_le. lia.
Qed.

End PollFacts.

Section PollLists.
Import Js Handler Poller.

Lemma Numbered_cons s me d ds :
  Numbered s me (d :: ds) → Numbered s me [d] ∧ Numbered s me ds.
Proof.
  intros H. split; intros d' chat m Hin; apply H.
  - destruct Hin as [<-|[]]. by left.
  - by right.
Qed.

Lemma pollDialogs_fst a s me d ds seen :
  fst (pollDialogs a s me (d :: ds) seen)
  = fst (pollDialogs a s me ds (fst (pollDialog a s me d seen))).
Proof.
  simpl. destruct (pollDialog a s me d seen) as [seen1 sent1]. simpl.
  by destruct (pollDialogs a s me ds seen1).
Qed.

(** A poll with room left in the store for each of its dialogs. *)
Lemma pollDialogs_room a s me ds : ∀ seen,
  Sane seen → (length seen + length ds <= 500)%nat → Numbered s me ds →
  let seenN := fst (pollDialogs a s me ds seen) in
  Sane seenN ∧ (length seenN <= length seen + length ds)%nat
  ∧ below seen seenN ∧ ∀ d, In d ds → Settled a s me d seenN.
Proof.
  induction ds as [|d ds IH]; intros seen HS Hlen Hid seenN.
  - unfold seenN. simpl. split; [exact HS|]. split; [lia|].
    split; [apply below_refl|tauto].
  - apply Numbered_cons in Hid as [Hd Hds]. simpl in Hlen.
    unfold seenN. rewrite pollDialogs_fst.
    destruct (pollDialog_room a s me d seen HS ltac:(lia) Hd) as (HS1 & Hl1 & Hb1 & Hset1).
    set (seen1 := fst (pollDialog a s me d seen)) in *.
    destruct (IH seen1 HS1 ltac:(lia) Hds) as (HS2 & Hl2 & Hb2 & Hset2).
    split; [exact HS2|]. split; [simpl; lia|].
    split; [by apply (below_trans _ seen1)|].
    intros d' [<-|Hin]; [|by apply Hset2].
    by apply (Settled_mono a s me d seen1).
Qed.

Lemma pollDialogs_settled a s me ds seen :
  (∀ d, In d ds → Settled a s me d seen) → pollDialogs a s me ds seen = (seen, []).
Proof.
  induction ds as [|d ds IH]; intros H; simpl; [done|].
  rewrite (Settled_skips a s me d seen) by (apply H; by left).
  rewrite IH; [done|]. intros d' Hin. apply H. by right.
Qed.

Lemma avoids_N_digit d : Keys.avoids "N" (String (pretty_N_char d) "") = true.
Proof. unfold pretty_N_char. by repeat case_match. Qed.

Lemma pretty_not_NaN (z : Z) : pretty z ≠ "NaN".
Proof.
  assert (H : Keys.avoids "N" (pretty z) = true).
  { destruct z as [|p|p]; [done| |];
      unfold pretty, pretty_Z; simpl; unfold pretty, pretty_positive, pretty, pretty_N;
      (case_decide; [done|]); apply avoids_pretty_N_go;
      (apply avoids_N_digit || done). }
  intros E. rewrite E in H. discriminate.
Qed.

Lemma lastSeenKey_inj a a' c c' :
  lastSeenKey a c = lastSeenKey a' c' → a = a' ∧ c = c'.
Proof.
  unfold lastSeenKey. intros H. apply getChatKey_inj in H as [-> H].
  split; [done|]. destruct c as [z|], c' as [z'|]; simpl in H.
  - f_equal. by apply (inj pretty).
  - by apply pretty_not_NaN in H.
  - symmetry in H. by apply pretty_not_NaN in H.
  - done.
Qed.

End PollLists.

Section PollerExtras.
Import Js Handler Poller Scenario.

Lemma delay_preimage (r : Q) (k : Z) :
  getRandomDelay r = k ↔
  (((k - 2000) # 8001) <= r)%Q ∧ (r < ((k - 2000 + 1) # 8001))%Q.
Proof.
  unfold getRandomDelay, MIN_DELAY_SECONDS, MAX_DELAY_SECONDS. cbv zeta.
  destruct r as [n d]. unfold Qfloor, Qmult, inject_Z, Qle, Qlt; simpl.
  rewrite Pos.mul_1_r.
  change (10 * 1000 - 2 * 1000 + 1) with 8001. change (2 * 1000) with 2000.
  assert (Hd : 0 < Z.pos d) by lia.
  pose proof (div_between (n * 8001) (Z.pos d) (k - 2000) Hd) as E.
  split.
  - intros H. apply E. lia.
  - intros H. apply E in H. lia.
Qed.



(** X7. The last-seen store gives back what was put: after recording a
    message id for a chat, the id read for that chat is that id, also
    when the recording triggered the clean-up; the store keeps one entry
    per key and at most 500 of them; and with fewer than 500 entries
    before, the ids read for all other chats and accounts are as they
    were. *)
Theorem last_seen_round_trip
    (a : Z) (c : option Z) (n : Z) (seen : Seen) (Kept : Sane seen) :
  getLastSeenMessageId a c (setLastSeenMessageId a c (Some n) seen) = n
  ∧ Sane (setLastSeenMessageId a c (Some n) seen)
  ∧ ((length seen < 500)%nat →
     ∀ a' c', (a', c') ≠ (a, c) →
       getLastSeenMessageId a' c' (setLastSeenMessageId a c (Some n) seen)
       = getLastSeenMessageId a' c' seen).
Proof.
  split; [|split].
  - unfold getLastSeenMessageId. by rewrite seenGet_setLastSeen.
  - by apply Sane_setLastSeen.
  - intros Hroom a' c' Hne.
    assert (Hk : lastSeenKey a c ≠ lastSeenKey a' c').
    { intros H. apply lastSeenKey_inj in H as [-> ->]. by apply Hne. }
    unfold getLastSeenMessageId.
    destruct (setLastSeen_cases a c (Some n) seen Kept) as
      [(Hin & -> & _)|[(Hout & _ & ->)|(_ & Hl & _)]]; [| |lia].
    + by rewrite seenGet_seenSet_ne.
    + by rewrite <- (seenSet_new _ _ _ Hout), seenGet_seenSet_ne.
Qed.

Lemma last_seen_round_trip_witness :
  let seen := setLastSeenMessageId 123 (Some 555) (Some 7) [] in
  Sane []
  ∧ getLastSeenMessageId 123 (Some 555) seen = 7
  ∧ getLastSeenMessageId 123 (Some 556) seen = 0.
Proof.
  intros seen.
  assert (Kept : Sane []) by (split; [constructor|simpl; lia]).
  destruct (last_seen_round_trip 123 (Some 555) 7 [] Kept) as (H & _ & _).
  split; [exact Kept|]. split; [exact H|reflexivity].
Defined.

(** X8. The store is capped by forgetting: when the 501st chat is
    recorded, only the 249 entries recorded or created last survive next
    to the new one, and each of the 251 chats before them reads as never
    seen (id 0) from then on. *)
Theorem last_seen_keeps_newest_250
    (a : Z) (c : option Z) (v : option Z) (seen : Seen)
    (Kept : Sane seen) (Full : length seen = 500%nat)
    (New : seenGet (lastSeenKey a c) seen = None) :
  setLastSeenMessageId a c v seen = drop 251 seen ++ [(lastSeenKey a c, v)]
  ∧ length (setLastSeenMessageId a c v seen) = 250%nat
  ∧ ∀ a' c', In (lastSeenKey a' c') (map fst (take 251 seen)) →
             getLastSeenMessageId a' c' (setLastSeenMessageId a c v seen) = 0.
Proof.
  apply seenGet_None in New.
  destruct (setLastSeen_cases a c v seen Kept) as
    [(Hin & _)|[(_ & Hl & _)|(_ & _ & ->)]]; [done|lia|].
  split; [reflexivity|]. split; [rewrite length_app, length_drop; simpl; lia|].
  intros a' c' Hin.
  assert (Hgone : seenGet (lastSeenKey a' c') (drop 251 seen ++ [(lastSeenKey a c, v)])
                  = None).
  { apply seenGet_None. rewrite List.map_app. simpl. intros Hin'.
    apply in_app_or in Hin' as [Hin'|[Hin'|[]]].
    - destruct Kept as [Hnd _]. rewrite <- (take_drop 251 seen) in Hnd.
      rewrite List.map_app in Hnd. apply NoDup_app in Hnd as (_ & Hd & _).
      apply (Hd (lastSeenKey a' c')); by apply list_elem_of_In.
    - apply New. rewrite Hin'.
      rewrite <- (take_drop 251 seen), List.map_app. apply in_or_app. by left. }
  unfold getLastSeenMessageId. by rewrite Hgone.
Qed.

End PollerExtras.

(* ===================================================================== *)
(** ** Polling: the schedule *)
(* ===================================================================== *)

Section ScheduleFacts.
Import Js Handler Poller.

Lemma find_key_None a (m : list (Z * nat)) :
  List.find (fun e => fst e =? a) m = None ↔ ¬ In a (map fst m).
Proof.
  induction m as [|[k v] m IH]; simpl; [tauto|].
  destruct (Z.eqb_spec k a) as [->|Hne].
  - split; [discriminate|]. intros H. exfalso. apply H. by left.
  - rewrite IH. tauto.
Qed.

Lemma find_key_Some a h (m : list (Z * nat)) :
  NoDup (map fst m) →
  List.find (fun e => fst e =? a) m = Some (a, h) ↔ In (a, h) m.
Proof.
  intros Hnd. induction m as [|[k v] m IH]; simpl; [split; [discriminate|tauto]|].
  simpl in Hnd. apply NoDup_cons in Hnd as [Hk Hnd].
  destruct (Z.eqb_spec k a) as [->|Hne].
  - split; [intros [= ->]; by left|]. intros [[= ->]|Hin]; [done|].
    exfalso. apply Hk. apply list_elem_of_In. apply in_map_iff. by exists (a, h).
  - rewrite (IH Hnd). split; [tauto|]. intros [[= -> _]|Hin]; [done|exact Hin].
Qed.

Lemma find_key_fst a (m : list (Z * nat)) e :
  List.find (fun e => fst e =? a) m = Some e → fst e = a ∧ In e m.
Proof.
  intros H. apply find_some in H as [Hin He]. split; [by apply Z.eqb_eq|exact Hin].
Qed.

Lemma handleOf_Some a h s :
  NoDup (polled s) → handleOf a s = Some h ↔ In (a, h) (pollingAccounts s).
Proof.
  intros Hnd. unfold handleOf. rewrite <- (find_key_Some a h _ Hnd).
  destruct (List.find _ _) as [[k v]|] eqn:E; simpl.
  - apply find_key_fst in E as [Hk _]. simpl in Hk. subst k.
    split; intros [= ->]; reflexivity.
  - split; discriminate.
Qed.

Lemma handleOf_None a s : handleOf a s = None ↔ ¬ In a (polled s).
Proof.
  unfold handleOf, polled. rewrite <- find_key_None.
  destruct (List.find _ _); simpl; split; (discriminate || done).
Qed.

Lemma filter_absent a (m : list (Z * nat)) :
  ¬ In a (map fst m) → List.filter (fun e => negb (fst e =? a)) m = m.
Proof.
  induction m as [|[k v] m IH]; simpl; [done|]. intros H.
  destruct (Z.eqb_spec k a) as [->|Hne]; simpl; [tauto|].
  f_equal. apply IH. tauto.
Qed.

Lemma accounts_stopPolling a s :
  pollingAccounts (stopPolling a s)
  = List.filter (fun e => negb (fst e =? a)) (pollingAccounts s).
Proof.
  unfold stopPolling. destruct (handleOf a s) eqn:E; [reflexivity|].
  apply handleOf_None in E. symmetry. by apply filter_absent.
Qed.

Lemma nextHandle_stopPolling a s : nextHandle (stopPolling a s) = nextHandle s.
Proof. unfold stopPolling. by destruct (handleOf a s). Qed.

Lemma NoDup_keys_filter (f : Z * nat → bool) (m : list (Z * nat)) :
  NoDup (map fst m) → NoDup (map fst (List.filter f m)).
Proof.
  induction m as [|e m IH]; simpl; [done|]. intros H.
  apply NoDup_cons in H as [He H]. destruct (f e); simpl; [|by apply IH].
  apply NoDup_cons. split; [|by apply IH]. intros Hin. apply He.
  apply list_elem_of_In in Hin. apply list_elem_of_In.
  apply in_map_iff in Hin as (x & Hx & Hin). apply filter_In in Hin as [Hin _].
  apply in_map_iff. by exists x.
Qed.

Lemma NoDup_handles_filter (f : nat * Z → bool) (m : list (nat * Z)) :
  NoDup (map fst m) → NoDup (map fst (List.filter f m)).
Proof.
  induction m as [|e m IH]; simpl; [done|]. intros H.
  apply NoDup_cons in H as [He H]. destruct (f e); simpl; [|by apply IH].
  apply NoDup_cons. split; [|by apply IH]. intros Hin. apply He.
  apply list_elem_of_In in Hin. apply list_elem_of_In.
  apply in_map_iff in Hin as (x & Hx & Hin). apply filter_In in Hin as [Hin _].
  apply in_map_iff. by exists x.
Qed.

Lemma In_keys a h (m : list (Z * nat)) : In (a, h) m → In a (map fst m).
Proof. intros H. apply in_map_iff. by exists (a, h). Qed.

Lemma NoDup_keys_same a h h' (m : list (Z * nat)) :
  NoDup (map fst m) → In (a, h) m → In (a, h') m → h = h'.
Proof.
  induction m as [|[k v] m IH]; simpl; [tauto|]. intros Hnd H1 H2.
  apply NoDup_cons in Hnd as [Hk Hnd].
  destruct H1 as [H1|H1], H2 as [H2|H2]; simplify_eq; try done.
  - exfalso. apply Hk. apply list_elem_of_In. by apply (In_keys _ h').
  - exfalso. apply Hk. apply list_elem_of_In. by apply (In_keys _ h).
  - by apply IH.
Qed.

Lemma NoDup_handles_same h a a' (m : list (nat * Z)) :
  NoDup (map fst m) → In (h, a) m → In (h, a') m → a = a'.
Proof.
  induction m as [|[k v] m IH]; simpl; [tauto|]. intros Hnd H1 H2.
  apply NoDup_cons in Hnd as [Hk Hnd].
  assert (Hin : ∀ x, In (k, x) m → False).
  { intros x Hx. apply Hk. apply list_elem_of_In. apply in_map_iff. by exists (k, x). }
  destruct H1 as [H1|H1], H2 as [H2|H2]; simplify_eq; try done.
  - exfalso. by apply (Hin a').
  - exfalso. by apply (Hin a).
  - by apply IH.
Qed.

Lemma Tidy_stopPolling a s : Tidy s → Tidy (stopPolling a s).
Proof.
  intros HT. pose proof HT as (Hk & Hh & Hiff & Hlt). unfold stopPolling.
  destruct (handleOf a s) as [h|] eqn:E; [|exact HT].
  apply (handleOf_Some a h s Hk) in E.
  split; [by apply NoDup_keys_filter|]. split; [by apply NoDup_handles_filter|].
  split; simpl.
  - intros h' a'. rewrite !filter_In. simpl. rewrite Hiff.
    split; intros [Hin Hne]; (split; [exact Hin|]).
    + destruct (Z.eqb_spec a' a) as [->|]; [|done].
      rewrite (NoDup_keys_same a h' h _ Hk Hin E) in Hne.
      by rewrite Nat.eqb_refl in Hne.
    + destruct (Nat.eqb_spec h' h) as [->|]; [|done].
      apply Hiff in Hin, E.
      rewrite (NoDup_handles_same h a' a _ Hh Hin E) in Hne.
      by rewrite Z.eqb_refl in Hne.
  - intros h' a' Hin. apply filter_In in Hin as [Hin _]. by apply (Hlt h' a').
Qed.

Lemma assign_absent a h (m : list (Z * nat)) :
  ¬ In a (map fst m) → assign a h m = m ++ [(a, h)].
Proof.
  induction m as [|[k v] m IH]; simpl; [done|]. intros H.
  destruct (Z.eqb_spec k a) as [->|Hne]; [tauto|].
  rewrite IH; [done|tauto].
Qed.

Lemma keys_stopPolling a a' s :
  In a' (polled (stopPolling a s)) ↔ a' ≠ a ∧ In a' (polled s).
Proof.
  unfold polled. rewrite accounts_stopPolling, !in_map_iff. split.
  - intros ([k v] & <- & Hin). apply filter_In in Hin as [Hin Hne]. simpl in *.
    split; [by destruct (Z.eqb_spec k a)|]. by exists (k, v).
  - intros (Hne & [k v] & <- & Hin). exists (k, v). split; [done|].
    apply filter_In. split; [exact Hin|]. simpl in *. by destruct (Z.eqb_spec k a).
Qed.

Lemma accounts_startPolling a s :
  pollingAccounts (startPolling a s)
  = pollingAccounts (stopPolling a s) ++ [(a, nextHandle s)].
Proof.
  unfold startPolling. simpl. rewrite nextHandle_stopPolling.
  apply assign_absent. fold (polled (stopPolling a s)).
  rewrite keys_stopPolling. tauto.
Qed.

Lemma keys_startPolling a a' s :
  In a' (polled (startPolling a s)) ↔ a' = a ∨ In a' (polled s).
Proof.
  unfold polled. rewrite accounts_startPolling, List.map_app, in_app_iff.
  fold (polled (stopPolling a s)). rewrite keys_stopPolling. simpl.
  destruct (Z.eq_dec a' a); split; intros; intuition.
Qed.

Lemma Tidy_startPolling a s : Tidy s → Tidy (startPolling a s).
Proof.
  intros HT. pose proof (Tidy_stopPolling a s HT) as (Hk & Hh & Hiff & Hlt).
  pose proof (accounts_startPolling a s) as Hacc.
  unfold Tidy. rewrite Hacc. unfold startPolling. simpl.
  rewrite nextHandle_stopPolling in *.
  assert (Hout : ¬ In a (polled (stopPolling a s))) by (rewrite keys_stopPolling; tauto).
  split; [|split; [|split]].
  - rewrite List.map_app. simpl. apply NoDup_app. split; [exact Hk|split].
    + intros x Hx Hx'. apply list_elem_of_In in Hx'. destruct Hx' as [<-|[]].
      apply Hout. by apply list_elem_of_In.
    + apply NoDup_singleton.
  - rewrite List.map_app. simpl. apply NoDup_app. split; [exact Hh|split].
    + intros x Hx Hx'. apply list_elem_of_In in Hx'. destruct Hx' as [<-|[]].
      apply list_elem_of_In, in_map_iff in Hx as ([h' a'] & Hf & Hin).
      simpl in Hf. subst h'. apply Hlt in Hin. lia.
    + apply NoDup_singleton.
  - intros h' a'. rewrite !in_app_iff, Hiff. simpl.
    split; (intros [H|[[= -> ->]|[]]]; [by left|right; by left]).
  - intros h' a' Hin. apply in_app_iff in Hin as [Hin|[[= <- _]|[]]]; [|lia].
    apply Hlt in Hin. lia.
Qed.

Lemma Tidy_foldl {A} (f : Schedule → A → Schedule) l :
  (∀ s x, Tidy s → Tidy (f s x)) → ∀ s, Tidy s → Tidy (foldl f s l).
Proof.
  intros Hf. induction l as [|x l IH]; intros s HT; simpl; [done|].
  apply IH. by apply Hf.
Qed.

Lemma Tidy_command c s : Tidy s → Tidy (command c s).
Proof.
  intros HT. destruct c as [rows| |rows|settings a|a]; simpl.
  - apply Tidy_foldl; [|done]. intros. by apply Tidy_startPolling.
  - apply Tidy_foldl; [|done]. intros. by apply Tidy_stopPolling.
  - unfold refresh. apply Tidy_foldl.
    + intros s' r HT'. destruct (existsb _ _); [done|by apply Tidy_startPolling].
    + apply Tidy_foldl; [|done]. intros s' e HT'.
      destruct (existsb _ _); [done|by apply Tidy_stopPolling].
  - unfold connectAccount. destruct settings as [st|]; [|done].
    destruct (hasDmReply st || hasGroupReply st); simpl;
      [by apply Tidy_startPolling|by apply Tidy_stopPolling].
  - by apply Tidy_stopPolling.
Qed.

Lemma Tidy_initial : Tidy initial.
Proof.
  repeat split; simpl; try constructor; try tauto.
Qed.

(** Stopping the accounts of a list leaves those outside it. *)
Lemma keys_stop_list (l : list (Z * nat)) : ∀ s a,
  In a (polled (foldl (fun acc e => stopPolling (fst e) acc) s l))
  ↔ In a (polled s) ∧ ¬ In a (map fst l).
Proof.
  induction l as [|e l IH]; intros s a; simpl; [tauto|].
  rewrite IH, keys_stopPolling. split.
  - intros [[Hne Hin] Hout]. split; [exact Hin|]. intros [H|H]; [by subst|done].
  - intros [Hin Hout]. split; [split; [|exact Hin]|]; intros H; apply Hout; [by left|by right].
Qed.

Lemma keys_refresh_stop rows (l : list (Z * nat)) : ∀ s a,
  In a (polled (foldl (fun acc e =>
                       if existsb (fun r => r =? fst e) rows then acc
                       else stopPolling (fst e) acc) s l))
  ↔ In a (polled s) ∧ (In a (map fst l) → In a rows).
Proof.
  induction l as [|e l IH]; intros s a; simpl; [tauto|].
  rewrite IH. destruct (existsb (fun r => r =? fst e) rows) eqn:E.
  - apply existsb_exists in E as (r & Hr & Heq). apply Z.eqb_eq in Heq. subst r.
    split; intros [Hin H]; (split; [exact Hin|]).
    + intros [<-|Hl]; [exact Hr|by apply H].
    + intros Hl. apply H. by right.
  - rewrite keys_stopPolling.
    assert (Hno : ¬ In (fst e) rows).
    { intros Hin. apply not_true_iff_false in E. apply E.
      apply existsb_exists. exists (fst e). split; [exact Hin|apply Z.eqb_refl]. }
    split.
    + intros [[Hne Hin] H]. split; [exact Hin|]. intros [Heq|Hl]; [by subst|by apply H].
    + intros [Hin H]. split; [split; [|exact Hin]|].
      * intros ->. apply Hno. apply H. by left.
      * intros Hl. apply H. by right.
Qed.

Lemma keys_refresh_start (rows : list Z) : ∀ s a,
  In a (polled (foldl (fun acc r =>
                       if existsb (fun e => fst e =? r) (pollingAccounts acc) then acc
                       else startPolling r acc) s rows))
  ↔ In a (polled s) ∨ In a rows.
Proof.
  induction rows as [|r rows IH]; intros s a; simpl; [tauto|].
  rewrite IH. destruct (existsb (fun e => fst e =? r) (pollingAccounts s)) eqn:E.
  - apply existsb_exists in E as (e & He & Heq). apply Z.eqb_eq in Heq.
    assert (Hr : In r (polled s)) by (apply in_map_iff; by exists e).
    split; [tauto|]. intros [H|[<-|H]]; tauto.
  - rewrite keys_startPolling. split; [intros [[->|H]|H]; tauto|].
    intros [H|[<-|H]]; tauto.
Qed.

Lemma keys_start (rows : list Z) : ∀ s a,
  In a (polled (foldl (fun acc r => startPolling r acc) s rows))
  ↔ In a (polled s) ∨ In a rows.
Proof.
  induction rows as [|r rows IH]; intros s a; simpl; [tauto|].
  rewrite IH, keys_startPolling. split; [intros [[->|H]|H]; tauto|].
  intros [H|[<-|H]]; tauto.
Qed.

End ScheduleFacts.

(* ===================================================================== *)
(** ** Polling: mentions *)
(* ===================================================================== *)

Section LowerCase.
Import Js Handler Poller.

Lemma toLowerCase_app s1 s2 : toLowerCase (s1 ++ s2) = toLowerCase s1 ++ toLowerCase s2.
Proof. unfold toLowerCase. apply flat_map_app. Qed.

Lemma startsWith_app needle rest : startsWith needle (needle ++ rest) = true.
Proof.
  induction needle as [|x needle IH]; simpl; [done|]. by rewrite N.eqb_refl.
Qed.

Lemma includes_here needle rest : includes needle (needle ++ rest) = true.
Proof.
  destruct (needle ++ rest) eqn:E; simpl; rewrite <- E, startsWith_app; reflexivity.
Qed.

Lemma includes_later needle before s :
  includes needle s = true → includes needle (before ++ s) = true.
Proof.
  intros H. induction before as [|x before IH]; simpl; [exact H|].
  rewrite IH. apply orb_true_r.
Qed.

(** [s.includes(needle)] finds exactly the places where [needle] lies. *)
Lemma includes_spec needle s :
  includes needle s = true ↔ ∃ before after, s = before ++ needle ++ after.
Proof.
  split.
  - induction s as [|x s IH]; simpl.
    + rewrite orb_false_r. destruct needle; [|discriminate].
      intros _. by exists [], [].
    + intros H. apply orb_true_iff in H as [H|H].
      * exists []. simpl. clear IH. revert x s H.
        induction needle as [|y needle IHn]; intros x s H; [by eexists|].
        simpl in H. apply andb_true_iff in H as [Hy H]. apply N.eqb_eq in Hy. subst y.
        destruct s as [|x' s]; [destruct needle; [by exists []|discriminate]|].
        destruct needle as [|y needle]; [by eexists|].
        destruct (IHn x' s H) as (after & E). exists after. simpl. by rewrite E.
      * destruct (IH H) as (before & after & ->). by exists (x :: before), after.
  - intros (before & after & ->). apply includes_later, includes_here.
Qed.

(** Letters the regular expression folds together lower-case alike. *)
Lemma lower_same x c :
  isWordChar c = true → canonicalize x = canonicalize c → lower x = lower c.
Proof.
  unfold isWordChar, canonicalize, lower. intros Hc Heq.
  repeat match goal with
         | H : context [(?u <=? ?v)%N] |- _ => destruct (N.leb_spec u v); simpl in H
         | H : context [(?u =? ?v)%N] |- _ => destruct (N.eqb_spec u v); simpl in H
         end; try discriminate;
  repeat match goal with
         | |- context [(?u <=? ?v)%N] => destruct (N.leb_spec u v); simpl
         | |- context [(?u =? ?v)%N] => destruct (N.eqb_spec u v); simpl
         end; try (f_equal; lia); try lia.
Qed.

Lemma toLowerCase_same found name :
  forallb isWordChar name = true →
  map canonicalize found = map canonicalize name →
  toLowerCase found = toLowerCase name.
Proof.
  revert found. induction name as [|c name IH]; intros [|x found] Hw Hf;
    try discriminate; [reflexivity|].
  simpl in Hw, Hf. apply andb_true_iff in Hw as [Hc Hw]. injection Hf as Hx Hf.
  unfold toLowerCase. simpl. fold (toLowerCase found) (toLowerCase name).
  by rewrite (lower_same x c Hc Hx), (IH found Hw Hf).
Qed.

End LowerCase.

(* ===================================================================== *)
(** ** Polling: theorems *)
(* ===================================================================== *)

Section PollerTheorems.
Import Js Handler Poller Scenario Examples.

Lemma last_seen_keeps_newest_250_witness :
  let seen := setLastSeenMessageId 2 (Some 9) (Some 1) crowded in
  Sane crowded ∧ length crowded = 500%nat
  ∧ seenGet (lastSeenKey 2 (Some 9)) crowded = None
  ∧ getLastSeenMessageId 1 (Some 0) crowded = 5
  ∧ getLastSeenMessageId 1 (Some 0) seen = 0
  ∧ length seen = 250%nat.
Proof.
  intros seen.
  assert (Kept : Sane crowded).
  { split; [|vm_compute; lia].
    apply (bool_decide_unpack _). vm_compute. exact I. }
  assert (Full : length crowded = 500%nat) by (vm_compute; reflexivity).
  assert (New : seenGet (lastSeenKey 2 (Some 9)) crowded = None)
    by (vm_compute; reflexivity).
  destruct (last_seen_keeps_newest_250 2 (Some 9) (Some 1) crowded Kept Full New)
    as (_ & Hlen & Hgone).
  split; [exact Kept|]. split; [exact Full|]. split; [exact New|].
  split; [vm_compute; reflexivity|]. split; [|exact Hlen].
  apply Hgone. vm_compute. by left.
Defined.

(** X9. A poll repeated with nothing new sends nothing: when the store
    has room for the dialogs of the poll and every last message carries
    an id, polling the same feed again right after a poll leaves the
    store as the first poll left it and sends no message, whatever the
    first poll did with each dialog (answered it, skipped it as outgoing,
    blank, the session's own or a bot's, or found it seen already). *)
Theorem repeated_poll_sends_nothing
    (a : Z) (f : Feed) (seen : Seen)
    (Kept : Sane seen)
    (Room : ∀ ds, feed_dialogs f = Returned ds → (length seen + length ds <= 500)%nat)
    (Ids : ∀ settings me ds,
       feed_settings f = Returned (Some settings) → feed_me f = Returned me →
       feed_dialogs f = Returned ds → Numbered settings me ds) :
  let first := pollAccount a f seen in
  pollAccount a f (polled_seen first)
  = {| polled_seen := polled_seen first; polled_sent := [];
       polled_stop := polled_stop first |}.
Proof.
  intros first. unfold first, pollAccount.
  destruct (feed_settings f) as [[s|]|] eqn:Hs; try reflexivity.
  destruct (negb (hasDmReply s) && negb (hasGroupReply s)); [reflexivity|].
  destruct (feed_rows f) as [[|row rows]|]; try reflexivity.
  destruct (feed_client f) as [[c|]|]; try reflexivity.
  destruct (negb (Service.connected c)); [reflexivity|].
  destruct (feed_me f) as [me|] eqn:Hme; [|reflexivity].
  destruct (feed_dialogs f) as [ds|] eqn:Hds; [|reflexivity].
  destruct (pollDialogs_room a s me ds seen Kept (Room ds eq_refl)
              (Ids s me ds eq_refl eq_refl eq_refl)) as (_ & _ & _ & Hset).
  destruct (pollDialogs a s me ds seen) as [seen1 sent1]. simpl in Hset. simpl.
  by rewrite (pollDialogs_settled a s me ds seen1 Hset).
Qed.

Lemma repeated_poll_sends_nothing_witness :
  let f := feedOf [dialogOf dmChat (textMessage 7 42 "hi")] in
  let first := pollAccount 123 f [] in
  Sane []
  ∧ polled_sent first
    = [{| sent_delay := 6000; sent_chat := dmChat;
          sent_options := {| message := js "Away right now"; replyTo := None |} |}]
  ∧ polled_sent (pollAccount 123 f (polled_seen first)) = [].
Proof.
  intros f first.
  assert (Kept : Sane []) by (split; [constructor|simpl; lia]).
  assert (Room : ∀ ds, feed_dialogs f = Returned ds → (length (@nil (string * option Z)) + length ds <= 500)%nat)
    by (intros ds [= <-]; simpl; lia).
  assert (Ids : ∀ settings me ds,
             feed_settings f = Returned (Some settings) → feed_me f = Returned me →
             feed_dialogs f = Returned ds → Numbered settings me ds).
  { intros s me ds _ _ [= <-] d chat m [<-|[]].
    unfold candidate. simpl. repeat case_match; intros [= _ <-]; discriminate. }
  pose proof (repeated_poll_sends_nothing 123 f [] Kept Room Ids) as H.
  split; [exact Kept|]. split; [vm_compute; reflexivity|].
  fold first in H. by rewrite H.
Defined.

(** X10. A dialog is answered at most once per poll, and only when due:
    whatever [pollDialog] sends, the dialog reached the last-seen
    comparison with a message above the id on record (or without id),
    inbound, with text, not the session's own, not a bot's; the send
    goes to the dialog's chat after the drawn delay, and it is the
    direct-message text without [replyTo] in a [User] chat with
    direct-message replies configured, or the group text as a reply to
    that very message in a group chat with group replies configured
    whose message mentions the session or replies to an outgoing one. *)
Theorem every_polled_send_is_due
    (a : Z) (s : Settings) (me : Me) (d : Dialog) (seen : Seen) :
  let out := snd (pollDialog a s me d seen) in
  (length out <= 1)%nat ∧ ∀ x, In x out → Due a s me d seen x.
Proof.
  intros out. unfold out. rewrite pollDialog_candidate.
  destruct (candidate s me d) as [[chat m]|] eqn:Hc; [|simpl; split; [lia|tauto]].
  destruct (alreadySeen _ _) eqn:Hseen; [simpl; split; [lia|tauto]|].
  assert (Hkind : (isDM chat = true → hasDmReply s = true)
                  ∧ (isGroup chat = true → hasGroupReply s = true)).
  { unfold candidate in Hc. destruct (dialog_chat d) as [[chat'|]|]; try discriminate.
    destruct (isDM chat' && negb (hasDmReply s)
              || isGroup chat' && negb (hasGroupReply s)
              || negb (isDM chat') && negb (isGroup chat')
              || bool_decide (chatNumber chat' = Some (toNumber (me_id me)))) eqn:E;
      [discriminate|].
    destruct (dialog_messages d) as [[[|m' rest]|]|]; try discriminate.
    injection Hc as -> ->.
    apply orb_false_iff in E as [E _]. apply orb_false_iff in E as [E _].
    apply orb_false_iff in E as [E1 E2].
    split; intros H; rewrite H in *; simpl in *; by apply negb_false_iff. }
  destruct Hkind as [Hdm Hgr]. cbn [snd].
  destruct (msg_out m) eqn:Ho; [simpl; split; [lia|tauto]|].
  destruct (textIsEmpty m) eqn:Ht; [simpl; split; [lia|tauto]|].
  destruct (fromSelf m _) eqn:Hf; [simpl; split; [lia|tauto]|].
  destruct (senderIsBot m) eqn:Hb; [simpl; split; [lia|tauto]|]. simpl.
  assert (Hdel : ∀ opts, (length (deliver d chat opts) <= 1)%nat
                 ∧ ∀ x, In x (deliver d chat opts) →
                        sent_chat x = chat ∧ sent_options x = opts
                        ∧ sent_delay x = getRandomDelay (dialog_random d)).
  { intros opts. unfold deliver.
    destruct (dialog_connected d); [|destruct (dialog_connect d)]; simpl;
      (split; [lia|]); intros x Hx; try tauto;
      destruct Hx as [<-|[]]; done. }
  destruct (isDM chat) eqn:Hd.
  - destruct (Hdel (Polling.dmReply s)) as [Hl Hx]. split; [exact Hl|].
    intros x Hin. destruct (Hx x Hin) as (Hch & Hop & Hdl).
    exists chat, m. do 6 (split; [done|]). split; [exact Hch|].
    split; [exact Hdl|]. left. split; [done|]. split; [by apply Hdm|exact Hop].
  - destruct (isGroup chat) eqn:Hg; [|simpl; split; [lia|tauto]].
    destruct (shouldReply d me m) eqn:Hsr; [|simpl; split; [lia|tauto]]. simpl.
    destruct (Hdel (Polling.groupReply s m)) as [Hl Hx]. split; [exact Hl|].
    intros x Hin. destruct (Hx x Hin) as (Hch & Hop & Hdl).
    exists chat, m. do 6 (split; [done|]). split; [exact Hch|].
    split; [exact Hdl|]. right. do 2 (split; [done|]).
    split; [by apply Hgr|]. split; [done|exact Hop].
Qed.

(** X11. Every text mention the handler answers, the poller answers
    too: for a session whose username is made of word characters, a
    message whose text holds [@username] in any letter case, not
    followed by a word character, is a mention for the poller, which
    looks for [@username] anywhere in the lower-cased text. *)
Theorem poller_sees_every_handler_mention
    (d : Dialog) (me : Me) (m : Message)
    (Named : Classifier.wellFormed (me_username me) = true)
    (Mention : Classifier.TextMention m (me_username me)) :
  mentioned d me m = true ∧ shouldReply d me m = true.
Proof.
  assert (H : mentioned d me m = true); [|split; [exact H|unfold shouldReply; by rewrite H]].
  destruct Mention as (text & name & before & found & after
                       & Ht & Hu & Hne & -> & Hf & _).
  unfold mentioned. rewrite Hu, Ht. rewrite Hu in Named. simpl in Named.
  cbn [from_option id].
  assert (Htn : truthy (Some name) = true) by (by destruct name).
  assert (Htt : truthy (Some (before ++ 64%N :: found ++ after)) = true)
    by (by destruct before).
  assert (Hinc : includes (atName name)
                   (toLowerCase (before ++ 64%N :: found ++ after)) = true).
  { rewrite toLowerCase_app. apply includes_later.
    change (64%N :: found ++ after) with ([64%N] ++ found ++ after).
    rewrite !toLowerCase_app. rewrite (toLowerCase_same found name Named Hf).
    unfold atName. change (toLowerCase [64%N]) with [64%N].
    change ([64%N] ++ toLowerCase name ++ toLowerCase after)
      with ((64%N :: toLowerCase name) ++ toLowerCase after).
    apply includes_here. }
  rewrite Htn, Htt, Hinc. rewrite andb_true_l. apply orb_true_r.
Qed.

(** [@alice] is answered by both; [@alicex] by the poller alone. *)
Lemma poller_sees_every_handler_mention_witness :
  let m := textMessage 7 42 "ping @alice" in
  let longer := textMessage 8 42 "ping @alicex" in
  let d := dialogOf groupChat m in
  Classifier.wellFormed (me_username alice) = true
  ∧ Classifier.TextMention m (me_username alice)
  ∧ mentioned d alice m = true
  ∧ isAccountMentioned longer (me_id alice) (me_username alice) = false
  ∧ mentioned d alice longer = true.
Proof.
  intros m longer d.
  assert (Named : Classifier.wellFormed (me_username alice) = true) by reflexivity.
  assert (Mention : Classifier.TextMention m (me_username alice)).
  { exists (js "ping @alice"), (js "alice"), (js "ping "), (js "alice"), [].
    repeat split; done. }
  destruct (poller_sees_every_handler_mention d alice m Named Mention) as [H _].
  split; [exact Named|]. split; [exact Mention|]. split; [exact H|].
  split; vm_compute; reflexivity.
Defined.

(** X12. However the polling service is started, stopped, refreshed and
    told to connect or disconnect accounts, each polled account has
    exactly one armed interval, the one whose handle is on record, and
    no other interval is armed; stopping the service leaves none; a
    refresh leaves exactly the enabled accounts polled; a start adds the
    enabled accounts to those polled. *)
Theorem one_interval_per_polled_account (cs : list Command) (rows : list Z) :
  let s := foldl (fun acc c => command c acc) initial cs in
  Tidy s
  ∧ pollingAccounts (stop s) = [] ∧ intervals (stop s) = []
  ∧ (∀ a, In a (polled (refresh rows s)) ↔ In a rows)
  ∧ (∀ a, In a (polled (start rows s)) ↔ In a (polled s) ∨ In a rows).
Proof.
  intros s.
  assert (HT : Tidy s).
  { unfold s. apply Tidy_foldl; [|apply Tidy_initial]. intros. by apply Tidy_command. }
  assert (Hstop : pollingAccounts (stop s) = []).
  { assert (H : ∀ a, ¬ In a (polled (stop s))).
    { intros a Hin. unfold stop in Hin. apply keys_stop_list in Hin as [H1 H2]. by apply H2. }
    unfold polled in H. destruct (pollingAccounts (stop s)) as [|e l]; [done|].
    exfalso. apply (H (fst e)). by left. }
  split; [exact HT|]. split; [exact Hstop|]. split; [|split].
  - pose proof (Tidy_command Stop s HT) as (_ & _ & Hiff & _). simpl in Hiff.
    destruct (intervals (stop s)) as [|[h a] l]; [done|].
    exfalso. specialize (Hiff h a). rewrite Hstop in Hiff. apply Hiff. by left.
  - intros a. unfold refresh. rewrite keys_refresh_start, keys_refresh_stop.
    split; [|tauto]. intros [[Hin H]|H]; [|exact H]. by apply H.
  - intros a. unfold start. apply keys_start.
Qed.

End PollerTheorems.

(* ===================================================================== *)
(** ** Registry: lemmas *)
(* ===================================================================== *)

Section RegistryFacts.
Import Js Service Registry.

Lemma Keeps_weaken {A} (P Q : Effect → Prop) (m : M A) :
  (∀ e, P e → Q e) → Keeps P m → Keeps Q m.
Proof.
  intros HPQ Hm st. destruct (Hm st) as (Ha & Ht & l & Hl & Hf).
  split; [exact Ha|]. split; [exact Ht|]. exists l. split; [exact Hl|].
  eapply Forall_impl; [exact Hf|]. intros e. apply HPQ.
Qed.

Lemma Keeps_ret {A} P (a : A) : Keeps P (ret a).
Proof.
  intros st. simpl. split; [done|]. split; [lia|]. exists []. by rewrite app_nil_r.
Qed.

Lemma Keeps_throw {A} P : Keeps P (@throw A).
Proof.
  intros st. simpl. split; [done|]. split; [lia|]. exists []. by rewrite app_nil_r.
Qed.

Lemma Keeps_bind {A B} P (m : M A) (f : A → M B) :
  Keeps P m → (∀ a, Keeps P (f a)) → Keeps P (bind m f).
Proof.
  intros Hm Hf st. unfold bind. specialize (Hm st).
  destruct (m st) as [[a|] st1]; simpl in *; [|exact Hm].
  destruct Hm as (Ha & Ht & l & Hl & HP).
  destruct (Hf a st1) as (Ha' & Ht' & l' & Hl' & HP').
  split; [congruence|]. split; [lia|]. exists (l ++ l').
  split; [by rewrite Hl', Hl, app_assoc|by apply Forall_app].
Qed.

Lemma Keeps_try {A} P (m h : M A) : Keeps P m → Keeps P h → Keeps P (try m h).
Proof.
  intros Hm Hh st. unfold try. specialize (Hm st).
  destruct (m st) as [[a|] st1]; simpl in *; [exact Hm|].
  destruct Hm as (Ha & Ht & l & Hl & HP).
  destruct (Hh st1) as (Ha' & Ht' & l' & Hl' & HP').
  split; [congruence|]. split; [lia|]. exists (l ++ l').
  split; [by rewrite Hl', Hl, app_assoc|by apply Forall_app].
Qed.

Lemma Keeps_note (P : Effect → Prop) e : P e → Keeps P (note e).
Proof.
  intros He st. simpl. split; [done|]. split; [lia|].
  exists [(time st, e)]. split; [done|]. by repeat constructor.
Qed.

Lemma Keeps_sleep P ms : Keeps P (sleep ms).
Proof.
  intros st. simpl. split; [done|]. split; [lia|]. exists []. by rewrite app_nil_r.
Qed.

Lemma Keeps_await {A} (P : Effect → Prop) b e (answer : Z → Outcome A) :
  P e → Keeps P (await b e answer).
Proof.
  intros He st. unfold await. simpl. split; [done|]. split; [lia|].
  exists [(time st, e)]. split; [done|]. by repeat constructor.
Qed.

Lemma Keeps_removeAutoReply client id : Keeps notLink (removeAutoReply client id).
Proof. destruct client; [by apply Keeps_note|apply Keeps_ret]. Qed.

Lemma Keeps_setupAutoReply b client id : Keeps notLink (setupAutoReply b client id).
Proof.
  destruct client; [|apply Keeps_ret]. apply Keeps_bind.
  - apply Keeps_removeAutoReply.
  - intros _. by apply Keeps_await.
Qed.

Lemma Keeps_verify b id : Keeps notLink (verifyHandlerRegistered b id).
Proof.
  apply Keeps_try; [|apply Keeps_ret]. apply Keeps_bind; [by apply Keeps_await|].
  intros. apply Keeps_ret.
Qed.

Lemma Keeps_setOfflineStatus b client id : Keeps notLink (setOfflineStatus b client id).
Proof.
  apply Keeps_try; [|apply Keeps_ret].
  destruct client as [c|]; [|apply Keeps_ret].
  destruct (connected c); [|apply Keeps_ret].
  repeat (apply Keeps_bind; [first [by apply Keeps_await|apply Keeps_sleep]|intros _]).
  by apply Keeps_await.
Qed.

Lemma Keeps_register b client id : Keeps notLink (register b client id).
Proof.
  apply Keeps_bind; [apply Keeps_setupAutoReply|intros _].
  apply Keeps_bind; [apply Keeps_verify|intros [|]]; [apply Keeps_ret|].
  apply Keeps_bind; [apply Keeps_sleep|intros _].
  apply Keeps_bind; [apply Keeps_setupAutoReply|intros _].
  apply Keeps_bind; [apply Keeps_verify|intros [|]]; [apply Keeps_ret|apply Keeps_throw].
Qed.

(** [setOfflineStatus] and [verifyHandlerRegistered] never throw. *)
Lemma setOfflineStatus_returns b client id st :
  fst (setOfflineStatus b client id st) = Returned tt.
Proof.
  unfold setOfflineStatus, try.
  match goal with
  | |- context [match ?m st with _ => _ end] => destruct (m st) as [[[]|] st1]
  end; reflexivity.
Qed.

Lemma verify_spec b id st :
  ∃ ok, fst (verifyHandlerRegistered b id st) = Returned ok
        ∧ (ok = true → ∃ n, listedAt b (time st) id = Returned (Some (S n))).
Proof.
  unfold verifyHandlerRegistered, try, bind, await. simpl.
  destruct (listedAt b (time st) id) as [[[|n]|]|]; simpl;
    eexists; (split; [reflexivity|]); try discriminate.
  intros _. by exists n.
Qed.

(** A registration that returns has seen the handler listed. *)
Lemma register_spec b client id st st' :
  register b client id st = (Returned tt, st') →
  Verified b id (time st) (time st').
Proof.
  unfold register, bind.
  pose proof (Keeps_setupAutoReply b client id st) as (_ & Ht1 & _).
  destruct (setupAutoReply b client id st) as [[[]|] st1]; [|discriminate]. simpl in Ht1.
  destruct (verify_spec b id st1) as (ok & Hok & Hev).
  pose proof (Keeps_verify b id st1) as (_ & Ht2 & _).
  destruct (verifyHandlerRegistered b id st1) as [r st2]. simpl in Hok, Ht2. subst r.
  destruct ok.
  - intros [= <-]. destruct (Hev eq_refl) as (n & Hn). exists (time st1), n.
    split; [lia|]. split; [lia|exact Hn].
  - clear Hev. simpl.
    set (st3 := {| accounts := accounts st2; time := time st2 + 200;
                   effects := effects st2 |}).
    pose proof (Keeps_setupAutoReply b client id st3) as (_ & Ht3 & _).
    destruct (setupAutoReply b client id st3) as [[[]|] st4]; [|discriminate].
    simpl in Ht3.
    destruct (verify_spec b id st4) as (ok & Hok & Hev).
    pose proof (Keeps_verify b id st4) as (_ & Ht5 & _).
    destruct (verifyHandlerRegistered b id st4) as [r st5]. simpl in Hok, Ht5. subst r.
    destruct ok; [|discriminate].
    intros [= <-]. destruct (Hev eq_refl) as (n & Hn). exists (time st4), n.
    split; [lia|]. split; [lia|exact Hn].
Qed.

End RegistryFacts.

Section ConnectFacts.
Import Js Service Registry.

Lemma mapGet_None k m : mapGet k m = None ↔ ¬ In k (map fst m).
Proof.
  unfold mapGet. induction m as [|[k' a'] m IH]; simpl; [tauto|].
  destruct (Z.eqb_spec k' k) as [->|Hne]; simpl.
  - split; [discriminate|]. intros H. exfalso. apply H. by left.
  - rewrite IH. tauto.
Qed.

Lemma mapDelete_absent k m : mapGet k m = None → mapDelete k m = m.
Proof.
  rewrite mapGet_None. unfold mapDelete.
  induction m as [|[k' a'] m IH]; simpl; [done|]. intros H.
  destruct (Z.eqb_spec k' k) as [->|Hne]; simpl; [tauto|].
  f_equal. apply IH. tauto.
Qed.

Lemma mapGet_mapSet k a m : mapGet k (mapSet k a m) = Some a.
Proof.
  unfold mapGet. induction m as [|[k' a'] m IH]; simpl.
  - by rewrite Z.eqb_refl.
  - destruct (Z.eqb_spec k' k) as [->|Hne]; simpl.
    + by rewrite Z.eqb_refl.
    + destruct (Z.eqb_spec k' k); [done|exact IH].
Qed.

Lemma keys_mapSet k a m x :
  In x (map fst (mapSet k a m)) ↔ x = k ∨ In x (map fst m).
Proof.
  induction m as [|[k' a'] m IH]; simpl; [intuition|].
  destruct (Z.eqb_spec k' k) as [->|Hne]; simpl; [intuition|].
  rewrite IH. intuition.
Qed.

Lemma NoDup_mapSet k a m : NoDup (map fst m) → NoDup (map fst (mapSet k a m)).
Proof.
  induction m as [|[k' a'] m IH]; simpl; intros H.
  - apply NoDup_singleton.
  - apply NoDup_cons in H as [Hk H].
    destruct (Z.eqb_spec k' k) as [->|Hne]; simpl.
    + apply NoDup_cons. by split.
    + apply NoDup_cons. split; [|by apply IH].
      rewrite list_elem_of_In, keys_mapSet. intros [->|Hin]; [done|].
      apply Hk. by apply list_elem_of_In.
Qed.

Lemma NoDup_mapDelete k m : NoDup (map fst m) → NoDup (map fst (mapDelete k m)).
Proof.
  unfold mapDelete. induction m as [|e m IH]; simpl; [done|]. intros H.
  apply NoDup_cons in H as [He H].
  destruct (negb (fst e =? k)); simpl; [|by apply IH].
  apply NoDup_cons. split; [|by apply IH]. intros Hin. apply He.
  apply list_elem_of_In in Hin. apply list_elem_of_In.
  apply in_map_iff in Hin as (x & Hx & Hin). apply filter_In in Hin as [Hin _].
  apply in_map_iff. by exists x.
Qed.

Lemma NoDup_applyConnected k t r m :
  NoDup (map fst m) → NoDup (map fst (applyConnected k t r m)).
Proof.
  destruct r; simpl; [apply NoDup_mapSet|apply NoDup_mapDelete|done].
Qed.

(** [disconnectAccount] returns, deletes the entry and takes no time. *)
Lemma disconnect_spec id st :
  ∃ l, disconnectAccount id st
       = (Returned tt, {| accounts := mapDelete id (accounts st); time := time st;
                          effects := effects st ++ l |})
       ∧ Forall (fun e => notLink (snd e)) l.
Proof.
  unfold disconnectAccount. destruct (mapGet id (accounts st)) as [account|] eqn:E.
  - unfold bind, try, update, removeAutoReply.
    destruct (client account); simpl.
    + eexists. split; [reflexivity|]. by repeat constructor.
    + exists []. by rewrite app_nil_r.
  - exists []. rewrite app_nil_r, (mapDelete_absent _ _ E). by destruct st.
Qed.

(** The two ways [attach] can go. *)
Lemma attach_spec b id client st r st' :
  attach b id client st = (r, st') →
  time st <= time st'
  ∧ (∃ l, effects st' = effects st ++ l ∧ Forall (fun e => notLink (snd e)) l)
  ∧ (r = Returned true
     ∧ accounts st'
       = mapSet id {| Service.client := client; accountId := id;
                      lastHealthCheck := time st' |} (accounts st)
     ∧ Verified b id (time st) (time st')
     ∨ r = Threw ∧ accounts st' = accounts st).
Proof.
  unfold attach, bind.
  pose proof (Keeps_setOfflineStatus b client id st) as (Ha1 & Ht1 & l1 & Hl1 & Hf1).
  pose proof (setOfflineStatus_returns b client id st) as Hr1.
  destruct (setOfflineStatus b client id st) as [r1 st1]. simpl in *. subst r1.
  assert (K2 : Keeps notLink (try (bind (removeAutoReply client id)
                                         (fun _ => sleep 100)) (ret tt))).
  { apply Keeps_try; [|apply Keeps_ret].
    apply Keeps_bind; [apply Keeps_removeAutoReply|intros; apply Keeps_sleep]. }
  assert (R2 : fst (try (bind (removeAutoReply client id) (fun _ => sleep 100))
                        (ret tt) st1) = Returned tt)
    by (unfold try, bind, removeAutoReply; by destruct client).
  destruct (K2 st1) as (Ha2 & Ht2 & l2 & Hl2 & Hf2). unfold bind in Ha2, Ht2, Hl2, R2.
  destruct (try _ _ st1) as [r2 st2]. simpl in *. subst r2.
  pose proof (Keeps_register b client id st2) as (Ha3 & Ht3 & l3 & Hl3 & Hf3).
  pose proof (register_spec b client id st2) as Hv.
  destruct (register b client id st2) as [[[]|] st3]; simpl in *.
  - specialize (Hv st3 eq_refl).
    pose proof (Keeps_setOfflineStatus b client id st3) as (Ha4 & Ht4 & l4 & Hl4 & Hf4).
    pose proof (setOfflineStatus_returns b client id st3) as Hr4.
    destruct (setOfflineStatus b client id st3) as [r4 st4]. simpl in *. subst r4.
    unfold entry, update, ret. simpl. intros [= <- <-]. simpl.
    split; [lia|]. split.
    + exists (l1 ++ l2 ++ l3 ++ l4). split.
      * by rewrite Hl4, Hl3, Hl2, Hl1, <- !app_assoc.
      * repeat apply Forall_app_2; assumption.
    + left. split; [reflexivity|]. split; [congruence|].
      destruct Hv as (t & n & H1 & H2 & H3). exists t, n. repeat split; (lia || done).
  - intros [= <- <-]. split; [lia|]. split.
    + exists (l1 ++ l2 ++ l3). split.
      * by rewrite Hl3, Hl2, Hl1, <- !app_assoc.
      * repeat apply Forall_app_2; assumption.
    + right. split; [reflexivity|congruence].
Qed.

End ConnectFacts.

Section ConnectSpec.
Import Js Service Registry.

Lemma handler_spec id st1 :
  ∃ l, bind (try (disconnectAccount id) (ret tt)) (fun _ => ret false) st1
       = (Returned false, {| accounts := mapDelete id (accounts st1); time := time st1;
                             effects := effects st1 ++ l |})
       ∧ Forall (fun e => notLink (snd e)) l.
Proof.
  destruct (disconnect_spec id st1) as (l & E & Hl). exists l. split; [|exact Hl].
  unfold bind, try. by rewrite E.
Qed.

Lemma abandon_spec id st1 :
  ∃ l, bind (disconnectAccount id) (fun _ => ret false) st1
       = (Returned false, {| accounts := mapDelete id (accounts st1); time := time st1;
                             effects := effects st1 ++ l |})
       ∧ Forall (fun e => notLink (snd e)) l.
Proof.
  destruct (disconnect_spec id st1) as (l & E & Hl). exists l. split; [|exact Hl].
  unfold bind. by rewrite E.
Qed.

Lemma try_eq {A} (m h : M A) st :
  try m h st = match m st with
               | (Returned a, st1) => (Returned a, st1)
               | (Threw, st1) => h st1
               end.
Proof. reflexivity. Qed.

Lemma bind_eq {A B} (m : M A) (f : A → M B) st :
  bind m f st = match m st with
                | (Returned a, st1) => f a st1
                | (Threw, st1) => (Threw, st1)
                end.
Proof. reflexivity. Qed.

Lemma await_eq {A} b e (answer : Z → Outcome A) st :
  await b e answer st
  = (answer (time st),
     {| accounts := accounts st; time := time st + Z.of_N (took b e);
        effects := effects st ++ [(time st, e)] |}).
Proof. reflexivity. Qed.

Lemma connect_spec b id st r st' :
  connectAccount b id st = (r, st') → Outcome_of b id st r st'.
Proof.
  unfold connectAccount. rewrite try_eq, bind_eq, await_eq.
  set (st1 := {| accounts := accounts st;
                 time := time st + Z.of_N (took b (AskSettings id));
                 effects := effects st ++ [(time st, AskSettings id)] |}).
  assert (Removed_ok : ∀ stx l lx,
    accounts stx = accounts st → time st <= time stx →
    effects stx = effects st ++ lx → Forall (fun e => notLink (snd e)) lx →
    Forall (fun e => notLink (snd e)) l →
    Outcome_of b id st (Returned false)
      {| accounts := mapDelete id (accounts stx); time := time stx;
         effects := effects stx ++ l |}).
  { intros stx l lx Ha Ht He Hlx Hl. split; [exact Ht|].
    exists Removed, (lx ++ l). simpl. split; [done|]. split; [by rewrite Ha|].
    split; [by rewrite He, app_assoc|]. split; [discriminate|].
    intros acc _ _. split; [by apply Forall_app|discriminate]. }
  assert (Hst1 : accounts st1 = accounts st ∧ time st <= time st1
                 ∧ effects st1 = effects st ++ [(time st, AskSettings id)]
                 ∧ Forall (fun e => notLink (snd e)) [(time st, AskSettings id)]).
  { unfold st1; simpl. repeat split; try lia. by repeat constructor. }
  destruct Hst1 as (Ha1 & Ht1 & He1 & Hf1).
  destruct (settingsAt b (time st) id) as [[s|]|] eqn:Hset.
  3:{ destruct (handler_spec id st1) as (l & -> & Hl). intros [= <- <-].
      by apply (Removed_ok st1 l [(time st, AskSettings id)]). }
  2:{ destruct (abandon_spec id st1) as (l & -> & Hl). intros [= <- <-].
      by apply (Removed_ok st1 l [(time st, AskSettings id)]). }
  destruct (hasAutoReply s) eqn:Hauto; cbn [negb].
  2:{ destruct (abandon_spec id st1) as (l & -> & Hl). intros [= <- <-].
      by apply (Removed_ok st1 l [(time st, AskSettings id)]). }
  rewrite bind_eq, await_eq.
  set (st2 := {| accounts := accounts st1;
                 time := time st1 + Z.of_N (took b (AskOwner id));
                 effects := effects st1 ++ [(time st1, AskOwner id)] |}).
  set (l2 := [(time st, AskSettings id);
              (time st + Z.of_N (took b (AskSettings id)), AskOwner id)]).
  assert (Hst2 : accounts st2 = accounts st ∧ time st <= time st2
                 ∧ effects st2 = effects st ++ l2
                 ∧ Forall (fun e => notLink (snd e)) l2).
  { unfold st2, l2; simpl. repeat split; try lia; [by rewrite <- app_assoc|].
    by repeat constructor. }
  destruct Hst2 as (Ha2 & Ht2 & He2 & Hf2).
  destruct (ownerAt b _ id) as [[[|userId rows]|]|].
  4:{ destruct (handler_spec id st2) as (l & -> & Hl). intros [= <- <-].
      by apply (Removed_ok st2 l l2). }
  3:{ destruct (abandon_spec id st2) as (l & -> & Hl). intros [= <- <-].
      by apply (Removed_ok st2 l l2). }
  1:{ destruct (abandon_spec id st2) as (l & -> & Hl). intros [= <- <-].
      by apply (Removed_ok st2 l l2). }
  (* a client is obtained *)
  rewrite bind_eq. change (accounts st2) with (accounts st).
  assert (Hob : ∃ client st3 l3,
            (obtain b id userId (mapGet id (accounts st)) st2 = (Returned client, st3)
             ∨ obtain b id userId (mapGet id (accounts st)) st2 = (Threw, st3))
            ∧ accounts st3 = accounts st ∧ time st2 <= time st3
            ∧ effects st3 = effects st2 ++ l3
            ∧ (∀ acc, mapGet id (accounts st) = Some acc → isConnected acc = true →
                 Forall (fun e => notLink (snd e)) l3
                 ∧ obtain b id userId (mapGet id (accounts st)) st2
                   = (Returned (Service.client acc), st3)
                 ∧ client = Service.client acc)).
  { unfold obtain. destruct (mapGet id (accounts st)) as [acc|] eqn:Hget.
    - destruct (isConnected acc) eqn:Hlive.
      + unfold bind, try, removeAutoReply, ret. destruct (Service.client acc) eqn:Hcl; simpl.
        * eexists _, _, _. split; [left; reflexivity|]. simpl.
          split; [done|]. split; [lia|]. split; [reflexivity|].
          intros acc' [= <-] _. split; [by repeat constructor|].
          split; [by rewrite Hcl|by rewrite Hcl].
        * eexists _, _, []. split; [left; reflexivity|]. simpl.
          split; [done|]. split; [lia|]. split; [by rewrite app_nil_r|].
          intros acc' [= <-] _. split; [constructor|].
          split; [by rewrite Hcl|by rewrite Hcl].
      + rewrite await_eq. destruct (linkAt b (time st2) userId id) as [cl|];
          [eexists cl, _, _; split; [left; reflexivity|]
          |eexists None, _, _; split; [right; reflexivity|]];
          simpl; (split; [done|]); (split; [lia|]); (split; [reflexivity|]);
          intros acc' [= <-] Hc; congruence.
    - rewrite await_eq. destruct (linkAt b (time st2) userId id) as [cl|];
        [eexists cl, _, _; split; [left; reflexivity|]
        |eexists None, _, _; split; [right; reflexivity|]];
        simpl; (split; [done|]); (split; [lia|]); (split; [reflexivity|]);
        intros acc' [=]. }
  destruct Hob as (client & st3 & l3 & Hres & Ha3 & Ht3 & He3 & Hreuse).
  destruct Hres as [-> | ->].
  2:{ destruct (handler_spec id st3) as (l & -> & Hl). intros [= <- <-].
      split; [simpl; lia|]. exists Removed, (l2 ++ l3 ++ l). cbn [applyConnected accounts time effects].
      split; [done|]. split; [by rewrite Ha3|].
      split; [by rewrite He3, He2, <- !app_assoc|]. split; [discriminate|].
      intros acc Hacc Hlive. destruct (Hreuse acc Hacc Hlive) as (Hf3 & _).
      split; [|discriminate]. repeat apply Forall_app_2; assumption. }
  destruct (live client) eqn:Hlive.
  2:{ unfold ret. intros [= <- <-]. split; [lia|]. exists Unchanged, (l2 ++ l3). cbn [applyConnected accounts time effects].
      split; [done|]. split; [exact Ha3|].
      split; [by rewrite He3, He2, <- !app_assoc|]. split; [discriminate|].
      intros acc Hacc Hl. destruct (Hreuse acc Hacc Hl) as (Hf3 & _).
      split; [|discriminate]. by apply Forall_app_2. }
  destruct (attach b id client st3) as [r4 st4] eqn:Hatt.
  destruct (attach_spec b id client st3 r4 st4 Hatt)
    as (Ht4 & (l4 & He4 & Hf4) & [(-> & Ha4 & Hv)|(-> & Ha4)]).
  - intros [= <- <-]. split; [lia|].
    destruct client as [cl|]; [|discriminate]. simpl in Hlive.
    exists (Registered cl), (l2 ++ l3 ++ l4). cbn [applyConnected accounts time effects].
    split; [done|]. split; [by rewrite Ha4, Ha3|].
    split; [by rewrite He4, He3, He2, <- !app_assoc|]. split.
    + intros cl' [= <-]. split; [exact Hlive|]. split.
      * destruct Hv as (t & n & H1 & H2 & H3). exists t, n. repeat split; (lia || done).
      * by exists s.
    + intros acc Hacc Hl. destruct (Hreuse acc Hacc Hl) as (Hf3 & _ & Hc).
      split; [repeat apply Forall_app_2; assumption|].
      intros cl' [= <-]. by rewrite <- Hc.
  - destruct (handler_spec id st4) as (l & -> & Hl). intros [= <- <-].
    split; [simpl; lia|]. exists Removed, (l2 ++ l3 ++ l4 ++ l). cbn [applyConnected accounts time effects].
    split; [done|]. split; [by rewrite Ha4, Ha3|].
    split; [by rewrite He4, He3, He2, <- !app_assoc|]. split; [discriminate|].
    intros acc Hacc Hlv. destruct (Hreuse acc Hacc Hlv) as (Hf3 & _).
    split; [|discriminate]. repeat apply Forall_app_2; assumption.
Qed.

End ConnectSpec.

(* ===================================================================== *)
(** ** Registry: theorems *)
(* ===================================================================== *)

Section RegistryTheorems.
Import Js Service Registry Scenario Examples.

(** X13. [connectAccount] never throws and leaves the registry in one
    of three ways: with a fresh entry for the account, stamped with the
    time of registration, in which case it returns [true]; without an
    entry for the account; or as it was (the linker gave no connected
    client); in the last two cases it returns [false]. No other entry
    is touched. It registers only a connected client, only after the
    client's handler has been listed as present during the call, and
    only for settings that enable a reply with a text that is not
    blank. *)
Theorem connect_registers_or_cleans_up (b : Backend) (id : Z) (st : State) :
  let st' := after (connectAccount b id) st in
  ∃ c : Connected,
    fst (connectAccount b id st)
    = Returned (match c with Registered _ => true | _ => false end)
    ∧ accounts st' = applyConnected id (time st') c (accounts st)
    ∧ time st <= time st'
    ∧ ∀ cl, c = Registered cl →
        connected cl = true ∧ Verified b id (time st) (time st')
        ∧ ∃ s, settingsAt b (time st) id = Returned (Some s) ∧ hasAutoReply s = true.
Proof.
  intros st'. unfold st', after.
  destruct (connectAccount b id st) as [r st1] eqn:E.
  destruct (connect_spec b id st r st1 E) as (Ht & c & l & -> & Ha & _ & Hreg & _).
  exists c. simpl. split; [reflexivity|]. split; [exact Ha|]. split; [exact Ht|exact Hreg].
Qed.

(** X14. A connect for an account whose registered client is still
    connected does not go to the account linker: it re-registers the
    handler on the client it has, and on success the fresh entry holds
    that same client. *)
Theorem connect_reuses_live_client
    (b : Backend) (id : Z) (st : State) (account : Account)
    (Here : mapGet id (accounts st) = Some account)
    (Live : isConnected account = true) :
  let st' := after (connectAccount b id) st in
  List.filter isLink (recorded (connectAccount b id) st) = []
  ∧ (fst (connectAccount b id st) = Returned true →
     mapGet id (accounts st')
     = Some {| Service.client := Service.client account; accountId := id;
               lastHealthCheck := time st' |}).
Proof.
  intros st'. unfold st', recorded, after.
  destruct (connectAccount b id st) as [r st1] eqn:E.
  destruct (connect_spec b id st r st1 E) as (Ht & c & l & -> & Ha & He & _ & Hre).
  destruct (Hre account Here Live) as [Hl Hc]. simpl. split.
  - rewrite He, drop_app_length. clear -Hl.
    induction l as [|e l IH]; [done|]. apply Forall_cons in Hl as [He Hl].
    simpl. unfold isLink at 1. destruct (snd e); simpl in He; try done; by apply IH.
  - destruct c as [cl| |]; try discriminate. intros _. rewrite Ha. simpl.
    rewrite mapGet_mapSet. by rewrite (Hc cl eq_refl).
Qed.

Lemma connect_reuses_live_client_witness :
  let st' := after (connectAccount steady 5) attached in
  mapGet 5 (accounts attached) = Some (snd (session 5 true))
  ∧ isConnected (snd (session 5 true)) = true
  ∧ fst (connectAccount steady 5 attached) = Returned true
  ∧ List.filter isLink (recorded (connectAccount steady 5) attached) = []
  ∧ mapGet 5 (accounts st')
    = Some {| Service.client := Some {| connected := true |}; accountId := 5;
              lastHealthCheck := 1600 |}.
Proof.
  intros st'.
  destruct (connect_reuses_live_client steady 5 attached (snd (session 5 true))
              eq_refl eq_refl) as [Hno Hsame].
  split; [reflexivity|]. split; [reflexivity|]. split; [reflexivity|].
  split; [exact Hno|]. unfold st'. rewrite (Hsame eq_refl). reflexivity.
Defined.


End RegistryTheorems.

(* ===================================================================== *)
(** ** Lifecycle: lemmas *)
(* ===================================================================== *)

Section LifecycleFacts.
Import Js Service Lifecycle.

Lemma Handles_Quiet rt rt' : Quiet rt rt' → Handles rt → Handles rt'.
Proof.
  intros (Ht & _ & Hn & _ & _ & Ho & _) (H1 & H2 & H3).
  unfold Handles. rewrite Ht, Hn, Ho. by repeat split.
Qed.

Lemma Handles_filter f rt : Handles rt → Handles (set_timers (List.filter f) rt).
Proof.
  intros (H1 & H2 & H3). repeat split; simpl.
  - intros t Ht. apply filter_In in Ht as [Ht _]. by apply H1.
  - exact H2.
  - intros t i Ht. apply filter_In in Ht as [Ht _]. by apply H3.
Qed.

Lemma Handles_clock t rt : Handles rt → Handles (set_clock t rt).
Proof. intros H. exact H. Qed.

Lemma Handles_rearm id period now rt :
  Handles rt →
  Handles (set_timers (map (fun t' => if (timer_id t' =? id)%nat
                                      then rearm t' period now else t')) rt).
Proof.
  intros (H1 & H2 & H3).
  assert (Hsame : ∀ t, In t (map (fun t' => if (timer_id t' =? id)%nat
                                            then rearm t' period now else t') (timers rt)) →
                  ∃ t', In t' (timers rt) ∧ timer_id t = timer_id t'
                        ∧ timer_callback t = timer_callback t').
  { intros t Ht. apply in_map_iff in Ht as (t' & <- & Hin). exists t'.
    split; [exact Hin|]. by destruct (timer_id t' =? id)%nat. }
  repeat split; simpl.
  - intros t Ht. destruct (Hsame t Ht) as (t' & Hin & -> & _). by apply H1.
  - exact H2.
  - intros t i Ht Hcb Hi. destruct (Hsame t Ht) as (t' & Hin & -> & Hc).
    apply (H3 t' i Hin); congruence.
Qed.

Lemma Handles_addTimer cb delay repeat rt :
  Handles rt → Handles (snd (addTimer cb delay repeat rt)).
Proof.
  intros (H1 & H2 & H3). unfold addTimer. repeat split; simpl.
  - intros t Ht. apply in_app_or in Ht as [Ht|[<-|[]]]; [|simpl; lia].
    specialize (H1 t Ht). lia.
  - intros i Hi. specialize (H2 i Hi). lia.
  - intros t i Ht Hcb Hi. apply in_app_or in Ht as [Ht|[<-|[]]]; [by apply (H3 t i)|].
    simpl. specialize (H2 i Hi). lia.
Qed.

Lemma Handles_scheduleNext env rt : Handles rt → Handles (scheduleNext env rt).
Proof.
  intros (H1 & H2 & H3). unfold scheduleNext, addTimer, set_offline.
  repeat split; simpl.
  - intros t Ht. apply in_app_or in Ht as [Ht|[<-|[]]]; [|simpl; lia].
    specialize (H1 t Ht). lia.
  - intros i [= <-]. lia.
  - intros t i Ht Hcb [= <-]. apply in_app_or in Ht as [Ht|[<-|[]]]; [|discriminate].
    specialize (H1 t Ht). lia.
Qed.

Lemma Handles_countWalk rt : Handles rt → Handles (countWalk rt).
Proof. intros H. exact H. Qed.

Lemma Handles_set_health h rt : Handles rt → Handles (set_health h rt).
Proof. intros H. exact H. Qed.

Lemma Handles_startOffline env rt : Handles rt → Handles (startOfflineStatusLoop env rt).
Proof.
  intros H. unfold startOfflineStatusLoop. apply Handles_scheduleNext.
  destruct (offlineInterval rt); [by apply Handles_filter|exact H].
Qed.

Lemma Handles_startHealth rt : Handles rt → Handles (startHealthCheckLoop rt).
Proof.
  intros H. unfold startHealthCheckLoop.
  set (rt1 := match healthCheckInterval rt with
              | Some handle => clearTimer handle rt | None => rt end).
  assert (H1 : Handles rt1)
    by (unfold rt1; destruct (healthCheckInterval rt); [by apply Handles_filter|exact H]).
  pose proof (Handles_addTimer HealthCheckCallback HEALTH_CHECK_INTERVAL
                (Some HEALTH_CHECK_INTERVAL) rt1 H1) as H2.
  destruct (addTimer _ _ _ rt1) as [handle rt2]. exact H2.
Qed.

Lemma Handles_start env t0 : Handles (start env (boot t0)).
Proof.
  assert (H0 : Handles (boot t0)) by (repeat split; simpl; (tauto || discriminate)).
  unfold start. destruct (enabledAccounts env) as [rows|]; [|exact H0].
  pose proof (Quiet_connectAll env rows (boot t0)) as Q.
  destruct (connectAll env rows (boot t0)) as [ok rt1]. simpl in Q.
  pose proof (Handles_Quiet _ _ Q H0) as H1.
  destruct ok; [|exact H1]. by apply Handles_startHealth, Handles_startOffline.
Qed.

Lemma Handles_record c rt : Handles rt → Handles (record c rt).
Proof. intros H. exact H. Qed.

Lemma Handles_performHealthCheck env rt : Handles rt → Handles (performHealthCheck env rt).
Proof.
  intros H. unfold performHealthCheck.
  eapply Handles_Quiet; [|apply (Handles_record PerformHealthCheck), H].
  apply Quiet_foldl. intros. apply Quiet_checkAccount.
Qed.

Lemma Handles_offlineWalk env rt : Handles rt → Handles (offlineWalk env rt).
Proof. apply Handles_Quiet, Quiet_offlineWalk. Qed.

Lemma Handles_turn env rt : Handles rt → Handles (turn env rt).
Proof.
  intros H. unfold turn. destruct (earliest (timers rt)) as [t|]; [|exact H].
  set (now := Z.max (clock rt) (timer_due t)).
  destruct (timer_callback t).
  - apply Handles_performHealthCheck.
    destruct (timer_repeat t); [by apply Handles_rearm|by apply Handles_filter].
  - pose proof (Handles_addTimer OfflineCallbackRest
                  (Z.of_N (walkDuration env (walks (offlineWalk env
                     (record OfflineWalk (set_timers
                        (List.filter (fun t' => negb (timer_id t' =? timer_id t)%nat))
                        (set_clock now rt)))))))
                  None
                  (offlineWalk env (record OfflineWalk (set_timers
                        (List.filter (fun t' => negb (timer_id t' =? timer_id t)%nat))
                        (set_clock now rt))))) as Hadd.
    destruct (addTimer _ _ _ _) as [h rt3]. apply Handles_countWalk. apply Hadd.
    apply Handles_offlineWalk, Handles_record. by apply Handles_filter.
  - apply Handles_scheduleNext. by apply Handles_filter.
Qed.

Lemma Handles_turns env n : ∀ rt, Handles rt → Handles (turns n env rt).
Proof.
  induction n as [|n IH]; intros rt H; simpl; [exact H|]. by apply IH, Handles_turn.
Qed.

End LifecycleFacts.

Section StopFacts.
Import Js Service Lifecycle.

Lemma earliest_In ts t : earliest ts = Some t → In t ts.
Proof.
  revert t. induction ts as [|x ts IH]; intros t; simpl; [discriminate|].
  destruct (earliest ts) as [t'|].
  - destruct (timer_due t' <? timer_due x); intros [= <-]; [right; by apply IH|by left].
  - intros [= <-]. by left.
Qed.

Lemma turns_idle env n rt : timers rt = [] → turns n env rt = rt.
Proof.
  intros H. induction n as [|n IH]; simpl; [done|].
  unfold turn at 1. by rewrite H.
Qed.

(** Without a health-check timer no turn runs a health check or arms
    one. *)
Lemma NoHealth_turn env rt :
  NoHealth rt →
  NoHealth (turn env rt)
  ∧ timesOf isHealthCheck (log (turn env rt)) = timesOf isHealthCheck (log rt).
Proof.
  intros H. unfold turn. destruct (earliest (timers rt)) as [t|] eqn:E; [|by split].
  apply earliest_In in E. pose proof (H t E) as Hcb.
  set (now := Z.max (clock rt) (timer_due t)).
  set (others := List.filter (fun t' => negb (timer_id t' =? timer_id t)%nat)).
  assert (Hothers : ∀ x, In x (others (timers rt)) → timer_callback x ≠ HealthCheckCallback).
  { intros x Hx. apply filter_In in Hx as [Hx _]. by apply H. }
  destruct (timer_callback t); [done| |].
  - set (rt1 := record OfflineWalk (set_timers others (set_clock now rt))).
    pose proof (Quiet_offlineWalk env rt1) as Q.
    pose proof (Quiet_health _ _ Q) as Qh.
    destruct Q as (Qt & _).
    unfold addTimer, countWalk. simpl. split.
    + intros x Hx. simpl in Hx. rewrite Qt in Hx.
      apply in_app_or in Hx as [Hx|[<-|[]]]; [by apply Hothers|done].
    + rewrite Qh. unfold rt1. simpl. rewrite timesOf_app. simpl. by rewrite app_nil_r.
  - unfold scheduleNext, addTimer, set_offline. simpl. split; [|done].
    intros x Hx. simpl in Hx.
    apply in_app_or in Hx as [Hx|[<-|[]]]; [by apply Hothers|done].
Qed.

Lemma NoHealth_turns env n : ∀ rt,
  NoHealth rt →
  timesOf isHealthCheck (log (turns n env rt)) = timesOf isHealthCheck (log rt).
Proof.
  induction n as [|n IH]; intros rt H; simpl; [done|].
  destruct (NoHealth_turn env rt H) as [H' E]. by rewrite IH, E.
Qed.

Lemma stop_health_handle rt : healthCheckInterval (fst (stop rt)) = None.
Proof.
  unfold stop. cbn [fst].
  destruct (offlineInterval rt) as [i|]; cbn [healthCheckInterval set_handles];
    destruct (healthCheckInterval rt) as [j|] eqn:E; try reflexivity; exact E.
Qed.


End StopFacts.

Section OwnedFacts.
Import Js Service Lifecycle.

Lemma Owned_Quiet rt rt' : Quiet rt rt' → Owned rt → Owned rt'.
Proof.
  intros (Ht & _ & Hn & _ & _ & _ & Hh & _) (H1 & H2 & H3).
  unfold Owned. rewrite Ht, Hn, Hh. by repeat split.
Qed.

Lemma NoDup_ids_filter f (ts : list Timer) :
  NoDup (map timer_id ts) → NoDup (map timer_id (List.filter f ts)).
Proof.
  induction ts as [|t ts IH]; simpl; [done|]. intros H.
  apply NoDup_cons in H as [Ht H]. destruct (f t); simpl; [|by apply IH].
  apply NoDup_cons. split; [|by apply IH]. intros Hin. apply Ht.
  apply list_elem_of_In in Hin. apply list_elem_of_In.
  apply in_map_iff in Hin as (x & Hx & Hin). apply filter_In in Hin as [Hin _].
  apply in_map_iff. by exists x.
Qed.

Lemma Owned_filter f rt : Owned rt → Owned (set_timers (List.filter f) rt).
Proof.
  intros (H1 & H2 & H3). repeat split; simpl.
  - by apply NoDup_ids_filter.
  - intros t Ht. apply filter_In in Ht as [Ht _]. by apply H2.
  - intros t Ht. apply filter_In in Ht as [Ht _]. by apply H3.
Qed.

Lemma Owned_rearm id period now rt :
  Owned rt →
  Owned (set_timers (map (fun t' => if (timer_id t' =? id)%nat
                                    then rearm t' period now else t')) rt).
Proof.
  intros (H1 & H2 & H3).
  set (f := fun t' => if (timer_id t' =? id)%nat then rearm t' period now else t').
  assert (Hid : ∀ t, timer_id (f t) = timer_id t ∧ timer_callback (f t) = timer_callback t)
    by (intros t; unfold f; by destruct (timer_id t =? id)%nat).
  repeat split; simpl.
  - rewrite List.map_map. erewrite map_ext; [exact H1|]. intros t. apply Hid.
  - intros t Ht. apply in_map_iff in Ht as (t' & <- & Hin).
    rewrite (proj1 (Hid t')). by apply H2.
  - intros t Ht Hcb. apply in_map_iff in Ht as (t' & <- & Hin).
    rewrite (proj1 (Hid t')). apply H3; [exact Hin|]. by rewrite <- (proj2 (Hid t')).
Qed.

(** A new pending entry that is not a health-check timer. *)
Lemma Owned_addTimer cb delay repeat rt :
  cb ≠ HealthCheckCallback → Owned rt → Owned (snd (addTimer cb delay repeat rt)).
Proof.
  intros Hcb (H1 & H2 & H3). unfold addTimer. repeat split; simpl.
  - rewrite List.map_app. simpl. apply NoDup_app. split; [exact H1|split].
    + intros x Hx Hx'. apply list_elem_of_In in Hx'. destruct Hx' as [<-|[]].
      apply list_elem_of_In, in_map_iff in Hx as (t & Hid & Hin).
      specialize (H2 t Hin). lia.
    + apply NoDup_singleton.
  - intros t Ht. apply in_app_or in Ht as [Ht|[<-|[]]]; [|simpl; lia].
    specialize (H2 t Ht). lia.
  - intros t Ht Hc. apply in_app_or in Ht as [Ht|[<-|[]]]; [by apply H3|done].
Qed.

Lemma Owned_scheduleNext env rt : Owned rt → Owned (scheduleNext env rt).
Proof.
  intros H. unfold scheduleNext.
  pose proof (Owned_addTimer OfflineCallback
                (getRandomOfflineInterval (random env (randoms rt))) None rt
                ltac:(discriminate) H) as H'.
  destruct (addTimer _ _ _ rt) as [handle rt1]. exact H'.
Qed.

Lemma Owned_startOffline env rt : Owned rt → Owned (startOfflineStatusLoop env rt).
Proof.
  intros H. unfold startOfflineStatusLoop. apply Owned_scheduleNext.
  destruct (offlineInterval rt); [by apply Owned_filter|exact H].
Qed.

(** Clearing the handle removes every health-check timer; the new one
    is the one on record. *)
Lemma Owned_startHealth rt : Owned rt → Owned (startHealthCheckLoop rt).
Proof.
  intros (H1 & H2 & H3). unfold startHealthCheckLoop.
  set (rt1 := match healthCheckInterval rt with
              | Some handle => clearTimer handle rt | None => rt end).
  assert (Hclean : NoDup (map timer_id (timers rt1))
                   ∧ (∀ t, In t (timers rt1) → (timer_id t < nextTimerId rt1)%nat)
                   ∧ (∀ t, In t (timers rt1) → timer_callback t ≠ HealthCheckCallback)).
  { unfold rt1. destruct (healthCheckInterval rt) as [handle|] eqn:Hh; simpl.
    - split; [by apply NoDup_ids_filter|]. split.
      + intros t Ht. apply filter_In in Ht as [Ht _]. by apply H2.
      + intros t Ht Hcb. apply filter_In in Ht as [Ht Hne].
        specialize (H3 t Ht Hcb). injection H3 as E.
        rewrite <- E, Nat.eqb_refl in Hne. discriminate.
    - split; [exact H1|]. split; [exact H2|]. intros t Ht Hcb.
      by specialize (H3 t Ht Hcb). }
  destruct Hclean as (C1 & C2 & C3). unfold addTimer, set_health. repeat split; simpl.
  - rewrite List.map_app. simpl. apply NoDup_app. split; [exact C1|split].
    + intros x Hx Hx'. apply list_elem_of_In in Hx'. destruct Hx' as [<-|[]].
      apply list_elem_of_In, in_map_iff in Hx as (t & Hid & Hin).
      specialize (C2 t Hin). lia.
    + apply NoDup_singleton.
  - intros t Ht. apply in_app_or in Ht as [Ht|[<-|[]]]; [|simpl; lia].
    specialize (C2 t Ht). lia.
  - intros t Ht Hcb. apply in_app_or in Ht as [Ht|[<-|[]]]; [|done].
    by destruct (C3 t Ht).
Qed.

Lemma Owned_start env rt : Owned rt → Owned (start env rt).
Proof.
  intros H. unfold start. destruct (enabledAccounts env) as [rows|]; [|exact H].
  pose proof (Quiet_connectAll env rows rt) as Q.
  destruct (connectAll env rows rt) as [ok rt1]. simpl in Q.
  pose proof (Owned_Quiet _ _ Q H) as H1.
  destruct ok; [|exact H1]. by apply Owned_startHealth, Owned_startOffline.
Qed.

Lemma Owned_turn env rt : Owned rt → Owned (turn env rt).
Proof.
  intros H. unfold turn. destruct (earliest (timers rt)) as [t|]; [|exact H].
  set (now := Z.max (clock rt) (timer_due t)).
  destruct (timer_callback t).
  - unfold performHealthCheck.
    eapply Owned_Quiet; [apply Quiet_foldl; intros; apply Quiet_checkAccount|].
    change (Owned (record PerformHealthCheck ?r)) with (Owned r).
    destruct (timer_repeat t); [by apply Owned_rearm|by apply Owned_filter].
  - pose proof (fun rt2 H2 => Owned_addTimer OfflineCallbackRest
                  (Z.of_N (walkDuration env (walks rt2))) None rt2
                  ltac:(discriminate) H2) as Hadd.
    match goal with
    | |- context [addTimer _ _ _ ?r] =>
        specialize (Hadd r); destruct (addTimer _ _ _ r) as [h rt3]
    end.
    apply Hadd. eapply Owned_Quiet; [apply Quiet_offlineWalk|].
    change (Owned (record OfflineWalk ?r)) with (Owned r). by apply Owned_filter.
  - apply Owned_scheduleNext. by apply Owned_filter.
Qed.

Lemma Owned_stop rt : Owned rt → Owned (fst (stop rt)).
Proof.
  intros (H1 & H2 & H3). unfold stop. cbn [fst].
  set (rt1 := match offlineInterval rt with
              | Some handle => set_handles None (healthCheckInterval rt) (clearTimer handle rt)
              | None => rt end).
  assert (O1 : Owned rt1).
  { unfold rt1. destruct (offlineInterval rt); [|by repeat split].
    apply (Owned_filter _ rt). by repeat split. }
  assert (Hh1 : healthCheckInterval rt1 = healthCheckInterval rt)
    by (unfold rt1; by destruct (offlineInterval rt)).
  destruct O1 as (A1 & A2 & A3). rewrite Hh1.
  destruct (healthCheckInterval rt) as [handle|] eqn:Hh; repeat split; simpl.
  - by apply NoDup_ids_filter.
  - intros t Ht. apply filter_In in Ht as [Ht _]. by apply A2.
  - intros t Ht Hcb. apply filter_In in Ht as [Ht Hne].
    specialize (A3 t Ht Hcb). rewrite Hh1 in A3. injection A3 as E.
    rewrite <- E, Nat.eqb_refl in Hne. discriminate.
  - exact A1.
  - exact A2.
  - intros t Ht Hcb. specialize (A3 t Ht Hcb). rewrite Hh1 in A3. discriminate.
Qed.

Lemma Owned_advance e rt : Owned rt → Owned (advance e rt).
Proof.
  intros H. destruct e; simpl.
  - by apply Owned_start.
  - by apply Owned_turn.
  - by apply Owned_stop.
  - by apply Owned_startHealth.
  - by apply Owned_startOffline.
Qed.

(** Entries with the same id in a list of distinct ids are the same. *)
Lemma same_id_same_timer (ts : list Timer) a b :
  NoDup (map timer_id ts) → In a ts → In b ts → timer_id a = timer_id b → a = b.
Proof.
  induction ts as [|t ts IH]; simpl; [tauto|]. intros Hnd Ha Hb Hid.
  apply NoDup_cons in Hnd as [Ht Hnd].
  assert (Hno : ∀ x, In x ts → timer_id x ≠ timer_id t).
  { intros x Hx E. apply Ht. apply list_elem_of_In, in_map_iff. by exists x. }
  destruct Ha as [<-|Ha], Hb as [<-|Hb]; try done.
  - exfalso. by apply (Hno b Hb).
  - exfalso. by apply (Hno a Ha).
  - by apply IH.
Qed.

Lemma at_most_one (ts : list Timer) (p : Timer → bool) :
  (∀ a b, In a ts → In b ts → p a = true → p b = true → a = b) →
  NoDup (map timer_id ts) → (length (List.filter p ts) <= 1)%nat.
Proof.
  intros Hsame Hnd.
  destruct (List.filter p ts) as [|a [|b l]] eqn:E; simpl; try lia.
  assert (Ha : In a (List.filter p ts)) by (rewrite E; by left).
  assert (Hb : In b (List.filter p ts)) by (rewrite E; right; by left).
  apply filter_In in Ha as [Ha Hpa]. apply filter_In in Hb as [Hb Hpb].
  assert (a = b) as -> by (by apply Hsame).
  assert (Hd : NoDup (List.filter p ts)).
  { apply NoDup_ListNoDup, List.NoDup_filter, NoDup_ListNoDup.
    eapply NoDup_fmap_1. exact Hnd. }
  rewrite E in Hd. apply NoDup_cons in Hd as [Hd _]. exfalso. apply Hd. by left.
Qed.

End OwnedFacts.

(* ===================================================================== *)
(** ** Lifecycle: theorems *)
(* ===================================================================== *)

Section LifecycleTheorems.
Import Js Service Lifecycle Scenario.


(** X17. However the service is started, stopped and its loops
    restarted between turns of the event loop, at most one health-check
    timer is pending, and it is the one whose handle the service holds:
    starting the health loop again replaces the timer, and after a stop
    there is none. *)
Theorem one_health_timer_at_most (es : list Event) (t0 : Z) :
  let rt := foldl (fun rt e => advance e rt) (boot t0) es in
  (length (List.filter (fun t => negb (isOffline t)) (timers rt)) <= 1)%nat
  ∧ (∀ t, In t (timers rt) → timer_callback t = HealthCheckCallback →
          healthCheckInterval rt = Some (timer_id t))
  ∧ NoHealth (fst (stop rt)).
Proof.
  intros rt.
  assert (HO : Owned rt).
  { unfold rt.
    assert (H : ∀ r, Owned r → Owned (foldl (fun rt e => advance e rt) r es)).
    { induction es as [|e l IH]; intros r Hr; simpl; [done|].
      by apply IH, Owned_advance. }
    apply H. split; [constructor|split; intros t []]. }
  pose proof HO as (H1 & H2 & H3). split; [|split; [exact H3|]].
  - apply at_most_one; [|exact H1]. intros a b Ha Hb Hpa Hpb.
    assert (Hca : timer_callback a = HealthCheckCallback)
      by (unfold isOffline in Hpa; by destruct (timer_callback a)).
    assert (Hcb : timer_callback b = HealthCheckCallback)
      by (unfold isOffline in Hpb; by destruct (timer_callback b)).
    apply (same_id_same_timer (timers rt)); try done.
    pose proof (H3 a Ha Hca) as Ea. pose proof (H3 b Hb Hcb) as Eb. congruence.
  - pose proof (Owned_stop rt HO) as (_ & _ & S3). intros t Ht Hcb.
    specialize (S3 t Ht Hcb).
    pose proof (stop_health_handle rt) as Hnone. congruence.
Qed.

(** Stamping is done once per key. *)
Lemma touch_all now (l m : list (Z * Account)) :
  foldl (fun m e => touch (fst e) now m) m l
  = map (fun e => if existsb (fun x => fst x =? fst e) l then stamped now e else e) m.
Proof.
  revert m. induction l as [|x l IH]; intros m; simpl.
  - by rewrite map_id.
  - rewrite IH. unfold touch. rewrite List.map_map. apply map_ext. intros e.
    destruct (Z.eqb_spec (fst e) (fst x)) as [E|E]; simpl.
    + rewrite <- E, Z.eqb_refl. simpl. by destruct (existsb _ l).
    + destruct (Z.eqb_spec (fst x) (fst e)); [congruence|]. reflexivity.
Qed.

Lemma checkAccount_healthy env now l : ∀ rt,
  (∀ e, In e l → isConnected (snd e) = true
                 ∧ verifyHandlerRegistered env (clock rt) (fst e) = true) →
  foldl (fun acc e => checkAccount env now e acc) rt l
  = set_accounts (fun m => foldl (fun m e => touch (fst e) now m) m l) rt.
Proof.
  induction l as [|[id account] l IH]; intros rt H; simpl.
  - by destruct rt.
  - destruct (H (id, account) (or_introl eq_refl)) as [Hc Hv]. simpl in Hc, Hv.
    rewrite Hc, Hv. simpl. rewrite IH; [reflexivity|].
    intros e He. apply H. by right.
Qed.

(** X18. A health check of a registry in which every client is
    connected and every handler still listed does nothing but stamp the
    entries: each [lastHealthCheck] becomes the time of the check, no
    client, order or key changes, and no connect, handler or status
    call is made. *)
Theorem health_check_only_stamps_the_healthy
    (env : Env) (rt : Runtime)
    (Live : ∀ e, In e (connectedAccounts rt) → isConnected (snd e) = true)
    (Hooked : ∀ e, In e (connectedAccounts rt) →
                   verifyHandlerRegistered env (clock rt) (fst e) = true) :
  connectedAccounts (performHealthCheck env rt)
  = map (stamped (clock rt)) (connectedAccounts rt)
  ∧ log (performHealthCheck env rt) = log rt ++ [(clock rt, PerformHealthCheck)]
  ∧ timers (performHealthCheck env rt) = timers rt.
Proof.
  unfold performHealthCheck.
  rewrite checkAccount_healthy by (intros e He; split; [by apply Live|by apply Hooked]).
  cbn [connectedAccounts set_accounts record log timers].
  split; [|by split]. rewrite touch_all. apply map_ext_in. intros e He.
  assert (Hex : existsb (fun x => fst x =? fst e) (connectedAccounts rt) = true).
  { apply existsb_exists. exists e. split; [exact He|apply Z.eqb_refl]. }
  by rewrite Hex.
Qed.

Lemma health_check_only_stamps_the_healthy_witness :
  let rt := set_clock 5000 (set_accounts (fun _ => [session 1 true; session 3 true])
                              (boot 0)) in
  (∀ e, In e (connectedAccounts rt) → isConnected (snd e) = true)
  ∧ (∀ e, In e (connectedAccounts rt) →
          verifyHandlerRegistered calm (clock rt) (fst e) = true)
  ∧ map (fun e => lastHealthCheck (snd e))
        (connectedAccounts (performHealthCheck calm rt)) = [5000; 5000]
  ∧ log (performHealthCheck calm rt) = [(5000, PerformHealthCheck)].
Proof.
  intros rt.
  assert (Live : ∀ e, In e (connectedAccounts rt) → isConnected (snd e) = true)
    by (intros e [<-|[<-|[]]]; reflexivity).
  assert (Hooked : ∀ e, In e (connectedAccounts rt) →
                        verifyHandlerRegistered calm (clock rt) (fst e) = true)
    by (intros e _; reflexivity).
  destruct (health_check_only_stamps_the_healthy calm rt Live Hooked) as (Hreg & Hlog & _).
  split; [exact Live|]. split; [exact Hooked|].
  split; [by rewrite Hreg|exact Hlog].
Defined.

End LifecycleTheorems.

(* ===================================================================== *)
(** ** Configuration lists: lemmas and theorems *)
(* ===================================================================== *)

Section ConfigFacts.
Import Js Config.

Lemma split_nonempty sep s : split sep s ≠ [].
Proof.
  destruct s as [|c s]; simpl; [done|].
  destruct (c =? sep)%N; [done|]. by destruct (split sep s).
Qed.

(** No field of a split holds the separator. *)
Lemma split_fields sep s field : In field (split sep s) → ¬ In sep field.
Proof.
  revert field. induction s as [|c s IH]; intros field; simpl.
  - intros [<-|[]]. tauto.
  - destruct (N.eqb_spec c sep) as [->|Hne].
    + intros [<-|Hin]; [tauto|by apply IH].
    + destruct (split sep s) as [|f fs] eqn:E; [intros [<-|[]]; simpl; tauto|].
      intros [<-|Hin].
      * simpl. intros [?|Hf]; [done|]. apply (IH f); [by left|exact Hf].
      * apply IH. by right.
Qed.

Lemma split_one sep field : ¬ In sep field → split sep field = [field].
Proof.
  induction field as [|c field IH]; simpl; [done|]. intros H.
  destruct (N.eqb_spec c sep) as [->|Hne]; [tauto|].
  rewrite IH; [done|tauto].
Qed.

Lemma split_app sep field rest :
  ¬ In sep field → split sep (field ++ sep :: rest) = field :: split sep rest.
Proof.
  induction field as [|c field IH]; simpl; intros H.
  - by rewrite N.eqb_refl.
  - destruct (N.eqb_spec c sep) as [->|Hne]; [tauto|].
    rewrite IH; [done|tauto].
Qed.

Lemma split_join sep fields :
  fields ≠ [] → (∀ f, In f fields → ¬ In sep f) →
  split sep (join sep fields) = fields.
Proof.
  induction fields as [|f fields IH]; [done|]. intros _ H.
  destruct fields as [|g fields].
  - simpl. apply split_one, H. by left.
  - change (join sep (f :: g :: fields)) with (f ++ sep :: join sep (g :: fields)).
    rewrite split_app by (apply H; by left).
    rewrite IH; [done|done|]. intros x Hx. apply H. by right.
Qed.

Lemma js_app s1 s2 : js (s1 +:+ s2) = js s1 ++ js s2.
Proof. induction s1 as [|c s1 IH]; simpl; [done|]. unfold js in *. simpl. by rewrite IH. Qed.

Lemma js_cons c s : js (String c s) = N_of_ascii c :: js s.
Proof. reflexivity. Qed.

Lemma digit_char d :
  (d < 10)%N → N_of_ascii (pretty_N_char d) = (48 + d)%N.
Proof.
  intros H.
  assert (d = 0 ∨ d = 1 ∨ d = 2 ∨ d = 3 ∨ d = 4 ∨ d = 5 ∨ d = 6 ∨ d = 7
          ∨ d = 8 ∨ d = 9)%N as Hd by lia.
  repeat (destruct Hd as [->|Hd]; [reflexivity|]). by subst.
Qed.

(** Reading back the digits [pretty] wrote. *)
Lemma digitsFrom_pretty x : ∀ s,
  ∃ k : nat, ∀ acc rest,
    digitsFrom acc (js (pretty_N_go x s) ++ rest)
    = digitsFrom (acc * 10 ^ Z.of_nat k + Z.of_N x) (js s ++ rest).
Proof.
  induction (N.lt_wf_0 x) as [x _ IH]; intros s.
  destruct (decide (0 < x)%N) as [Hx|Hx].
  - rewrite pretty_N_go_step by done.
    destruct (IH (x `div` 10)%N (N.div_lt x 10 Hx eq_refl)
                 (String (pretty_N_char (x `mod` 10)) s)) as (k & Hk).
    exists (S k). intros acc rest. rewrite Hk, js_cons.
    assert (Hm : (x `mod` 10 < 10)%N) by (by apply N.mod_lt).
    rewrite (digit_char _ Hm). cbn [app digitsFrom].
    pose proof (N.div_mod x 10 ltac:(done)) as Hdm.
    revert Hm Hdm. generalize (x `mod` 10)%N (x `div` 10)%N. intros m q Hm Hdm.
    assert (Hd : isDigit (48 + m) = true).
    { unfold isDigit. apply andb_true_iff. split; apply N.leb_le; lia. }
    rewrite Hd. f_equal.
    rewrite Nat2Z.inj_succ, Z.pow_succ_r by lia.
    generalize (10 ^ Z.of_nat k). intros P.
    assert (Hx' : Z.of_N x = 10 * Z.of_N q + Z.of_N m) by lia.
    rewrite Hx'. replace (Z.of_N (48 + m) - 48) with (Z.of_N m) by lia. ring.
  - assert (x = 0%N) as -> by lia. exists 0%nat. intros acc rest.
    rewrite pretty_N_go_0. f_equal. simpl. lia.
Qed.

Lemma digitsFrom_stop acc rest :
  match rest with c :: _ => negb (isDigit c) | [] => true end = true →
  digitsFrom acc rest = acc.
Proof.
  destruct rest as [|c rest]; simpl; [done|].
  intros H. apply negb_true_iff in H. by rewrite H.
Qed.

(** The head of a rendering is a digit. *)
Lemma pretty_N_go_head x : ∀ s,
  (0 < x)%N ∨ (∃ c s', s = String c s' ∧ isDigit (N_of_ascii c) = true) →
  ∃ c s', pretty_N_go x s = String c s' ∧ isDigit (N_of_ascii c) = true.
Proof.
  induction (N.lt_wf_0 x) as [x _ IH]; intros s H.
  destruct (decide (0 < x)%N) as [Hx|Hx].
  - rewrite pretty_N_go_step by done. apply IH; [by apply N.div_lt|].
    right. eexists _, _. split; [reflexivity|].
    rewrite digit_char by (by apply N.mod_lt).
    unfold isDigit. apply andb_true_iff.
    pose proof (N.mod_lt x 10 ltac:(done)) as Hm. revert Hm.
    generalize (x `mod` 10)%N. intros m Hm. split; apply N.leb_le; lia.
  - assert (x = 0%N) as -> by lia. rewrite pretty_N_go_0.
    destruct H as [H|H]; [lia|exact H].
Qed.

Lemma Number_safe' z : Z.abs z < 2 ^ 53 → Number z = z.
Proof. intros H. unfold Number. by destruct (Z.ltb_spec (Z.abs z) (2 ^ 53)); [|lia]. Qed.

(** A positive number, written and read. *)
Lemma read_positive (p : positive) rest :
  match rest with c :: _ => negb (isDigit c) | [] => true end = true →
  ∃ c s, js (pretty (N.pos p)) ++ rest = c :: s ∧ isDigit c = true
         ∧ isWhiteSpace c = false ∧ c ≠ 45%N ∧ c ≠ 43%N
         ∧ digitsFrom 0 (js (pretty (N.pos p)) ++ rest) = Z.pos p.
Proof.
  intros Hrest. unfold pretty, pretty_N. case_decide; [done|].
  destruct (pretty_N_go_head (N.pos p) "" (or_introl eq_refl)) as (c & s' & E & Hd).
  destruct (digitsFrom_pretty (N.pos p) "") as (k & Hk).
  exists (N_of_ascii c), (js s' ++ rest).
  split; [by rewrite E|]. split; [exact Hd|].
  assert (Hr : (48 <= N_of_ascii c <= 57)%N).
  { unfold isDigit in Hd. apply andb_true_iff in Hd as [H1 H2].
    apply N.leb_le in H1, H2. lia. }
  split.
  { unfold isWhiteSpace.
    repeat match goal with
           | |- context [(?u <=? ?v)%N] => destruct (N.leb_spec u v); simpl
           | |- context [(?u =? ?v)%N] => destruct (N.eqb_spec u v); simpl
           end; lia. }
  split; [lia|]. split; [lia|].
  rewrite Hk. simpl. by apply digitsFrom_stop.
Qed.

Lemma dropWhile_pad pad (s : list N) :
  forallb isWhiteSpace pad = true →
  dropWhile isWhiteSpace (pad ++ s) = dropWhile isWhiteSpace s.
Proof.
  induction pad as [|c pad IH]; simpl; [done|]. intros H.
  apply andb_true_iff in H as [Hc H]. rewrite Hc. by apply IH.
Qed.

Lemma digit_facts c :
  isDigit c = true → isWhiteSpace c = false ∧ (c =? 45)%N = false ∧ (c =? 43)%N = false.
Proof.
  unfold isDigit, isWhiteSpace. intros H. apply andb_true_iff in H as [H1 H2].
  apply N.leb_le in H1, H2.
  repeat split;
    repeat match goal with
           | |- context [(?u <=? ?v)%N] => destruct (N.leb_spec u v); simpl
           | |- context [(?u =? ?v)%N] => destruct (N.eqb_spec u v); simpl
           end; lia.
Qed.

Lemma parseInt_unsigned c s :
  isDigit c = true → parseInt (c :: s) = Some (Number (digitsFrom 0 (c :: s))).
Proof.
  intros Hd. destruct (digit_facts c Hd) as (Hw & H45 & H43).
  unfold parseInt. cbn [dropWhile]. rewrite Hw, H45, H43, Hd.
  by rewrite Z.mul_1_l.
Qed.

Lemma parseInt_negative c s :
  isDigit c = true →
  parseInt (45%N :: c :: s) = Some (Number (- digitsFrom 0 (c :: s))).
Proof.
  intros Hd. unfold parseInt. cbn [dropWhile].
  change (isWhiteSpace 45) with false. cbn iota. change (45 =? 45)%N with true.
  cbn iota. rewrite Hd.
  by replace (-1 * digitsFrom 0 (c :: s)) with (- digitsFrom 0 (c :: s)) by lia.
Qed.

Lemma parseInt_written e :
  wellWritten e = true → parseInt (written e) = Some (entry_id e).
Proof.
  unfold wellWritten, written. intros H.
  apply andb_true_iff in H as [H Hrest]. apply andb_true_iff in H as [H _].
  apply andb_true_iff in H as [Hpad Hsafe]. apply Z.ltb_lt in Hsafe.
  assert (Hparse : parseInt (js (pretty (entry_id e)) ++ entry_rest e)
                   = Some (entry_id e)).
  { destruct (entry_id e) as [|p|p] eqn:Ez.
    - change (js (pretty 0)) with [48%N]. cbn [app].
      rewrite parseInt_unsigned by done. cbn [digitsFrom].
      change (isDigit 48) with true. cbn iota.
      by rewrite (digitsFrom_stop _ _ Hrest).
    - change (pretty (Z.pos p)) with (pretty (N.pos p)).
      destruct (read_positive p (entry_rest e) Hrest)
        as (c & s & E & Hd & _ & _ & _ & Hv).
      rewrite E, (parseInt_unsigned c s Hd), <- E, Hv. by rewrite Number_safe'.
    - change (pretty (Z.neg p)) with ("-" +:+ pretty (N.pos p)).
      rewrite js_app. change (js "-") with [45%N]. cbn [app].
      destruct (read_positive p (entry_rest e) Hrest)
        as (c & s & E & Hd & _ & _ & _ & Hv).
      rewrite E, (parseInt_negative c s Hd), <- E, Hv.
      change (- Z.pos p) with (Z.neg p). by rewrite Number_safe'. }
  unfold parseInt in *. by rewrite (dropWhile_pad _ _ Hpad).
Qed.

(** What is written holds no comma and is not empty. *)
Lemma written_clean e :
  wellWritten e = true → written e ≠ [] ∧ ¬ In comma (written e).
Proof.
  unfold wellWritten, written. intros H.
  apply andb_true_iff in H as [H _]. apply andb_true_iff in H as [H Hrest].
  apply andb_true_iff in H as [Hpad _].
  assert (Hne : js (pretty (entry_id e)) ≠ []).
  { destruct (entry_id e) as [|p|p]; [done| |done].
    change (pretty (Z.pos p)) with (pretty (N.pos p)).
    unfold pretty, pretty_N. case_decide; [done|].
    destruct (pretty_N_go_head (N.pos p) "" (or_introl eq_refl)) as (c & s' & -> & _).
    done. }
  split.
  - intros E. apply app_eq_nil in E as [_ E]. apply app_eq_nil in E as [E _]. done.
  - rewrite !in_app_iff. intros [Hin|[Hin|Hin]].
    + rewrite forallb_forall in Hpad. by specialize (Hpad _ Hin).
    + assert (Hav : Keys.avoids "," (pretty (entry_id e)) = true).
      { apply avoids_pretty_Z_char; [|done].
        intros d. unfold pretty_N_char. by repeat case_match. }
      revert Hin Hav. generalize (pretty (entry_id e)). intros s.
      induction s as [|c s IH]; simpl; [tauto|]. intros [Hc|Hin] Hav.
      * apply andb_true_iff in Hav as [Hav _]. apply negb_true_iff in Hav.
        apply Ascii.eqb_neq in Hav. apply Hav.
        rewrite <- (ascii_N_embedding c), Hc. reflexivity.
      * apply andb_true_iff in Hav as [_ Hav]. by apply IH.
    + rewrite forallb_forall in Hrest. specialize (Hrest _ Hin).
      by rewrite N.eqb_refl in Hrest.
Qed.

Lemma idList_Some text :
  idList (Some text)
  = omap parseInt (List.filter (fun x => truthy (Some x)) (split comma text)).
Proof. unfold idList. by destruct text. Qed.

Lemma writtenField_clean f :
  wellWrittenField f = true → ¬ In comma (writtenField f).
Proof.
  destruct f as [e|]; simpl; [|tauto]. intros H. by apply written_clean.
Qed.

Lemma read_fields fields :
  forallb wellWrittenField fields = true →
  omap parseInt (List.filter (fun x => truthy (Some x)) (map writtenField fields))
  = omap (fmap entry_id) fields.
Proof.
  induction fields as [|f fields IH]; [done|]. intros H.
  apply andb_true_iff in H as [Hf H]. specialize (IH H).
  destruct f as [e|]; cbn [map writtenField List.filter]; [|exact IH].
  destruct (written_clean e Hf) as [Hne _].
  destruct (written e) as [|c s] eqn:E; [done|]. cbn [truthy].
  rewrite <- E. cbn [omap list_omap]. rewrite (parseInt_written e Hf).
  cbn [fmap option_fmap option_map entry_id]. f_equal. exact IH.
Qed.

Lemma Trimmed_dropWhile s : Trimmed (dropWhile isWhiteSpace s).
Proof.
  induction s as [|c s IH]; simpl; [done|].
  destruct (isWhiteSpace c) eqn:E; [exact IH|exact E].
Qed.

Lemma dropWhile_Trimmed s : Trimmed s → dropWhile isWhiteSpace s = s.
Proof. destruct s as [|c s]; simpl; [done|]. by intros ->. Qed.

Lemma dropWhile_suffix (p : N → bool) s : ∃ k, s = k ++ dropWhile p s.
Proof.
  induction s as [|c s [k IH]]; simpl; [by exists []|].
  destruct (p c); [|by exists []]. exists (c :: k). simpl. by f_equal.
Qed.

Lemma Trimmed_prefix s k : Trimmed (s ++ k) → Trimmed s.
Proof. by destruct s. Qed.

Lemma trim_parts s :
  ∃ d, trim s = rev d ∧ Trimmed d ∧ Trimmed (rev d) ∧ ∃ k1 k2, s = k1 ++ rev d ++ k2.
Proof.
  unfold trim. set (g := dropWhile isWhiteSpace s).
  exists (dropWhile isWhiteSpace (rev g)). split; [done|].
  split; [apply Trimmed_dropWhile|].
  destruct (dropWhile_suffix isWhiteSpace (rev g)) as [k Hk].
  destruct (dropWhile_suffix isWhiteSpace s) as [k1 Hk1]. fold g in Hk1.
  assert (Hg : g = rev (dropWhile isWhiteSpace (rev g)) ++ rev k).
  { rewrite <- rev_app_distr, <- Hk. by rewrite rev_involutive. }
  split.
  - apply (Trimmed_prefix _ (rev k)). rewrite <- Hg. apply Trimmed_dropWhile.
  - exists k1, (rev k). by rewrite <- Hg.
Qed.

Lemma trim_trim s : trim (trim s) = trim s.
Proof.
  destruct (trim_parts s) as (d & E & Hd & Hr & _). rewrite E.
  unfold trim. rewrite (dropWhile_Trimmed _ Hr), rev_involutive.
  by rewrite (dropWhile_Trimmed _ Hd).
Qed.

Lemma trim_In c s : In c (trim s) → In c s.
Proof.
  destruct (trim_parts s) as (d & E & _ & _ & k1 & k2 & Hs). rewrite E.
  intros H. rewrite Hs, !in_app_iff. tauto.
Qed.

End ConfigFacts.

Section ConfigTheorems.
Import Js Config.

(** X19. The administrator list reads back what was written: for a
    value of [ADMIN_IDS] made of comma-separated fields, each either
    empty or an id below 2^53 in decimal, possibly after blanks and
    before text that holds no comma and does not go on with a digit,
    [adminIds] is the list of the ids in the order written, the empty
    fields left out. *)
Theorem admin_ids_read_back (fields : list (option Entry)) :
  forallb wellWrittenField fields = true →
  adminIds (Some (join comma (map writtenField fields)))
  = omap (fmap entry_id) fields.
Proof.
  intros H. unfold adminIds. rewrite idList_Some.
  destruct fields as [|f fields]; [done|].
  rewrite split_join; [by apply read_fields|done|].
  intros x Hx. apply in_map_iff in Hx as (g & <- & Hg).
  apply writtenField_clean. rewrite forallb_forall in H. by apply H.
Qed.

Lemma admin_ids_read_back_witness :
  adminIds (Some (js " 12,,-7 # ops,9007199254740991x"))
  = [12; -7; 9007199254740991].
Proof.
  exact (admin_ids_read_back
           [Some {| entry_pad := js " "; entry_id := 12; entry_rest := [] |};
            None;
            Some {| entry_pad := []; entry_id := -7; entry_rest := js " # ops" |};
            Some {| entry_pad := []; entry_id := 9007199254740991;
                    entry_rest := js "x" |}]
           eq_refl).
Defined.

(** X20. Every updates channel the configuration hands out is a name:
    not empty, with nothing left to trim at either end and no comma in
    it, whatever [UPDATES_CHANNEL] holds. *)
Theorem updates_channels_are_names (UPDATES_CHANNEL : option (list N)) (ch : list N) :
  In ch (getUpdatesChannels (updatesChannel UPDATES_CHANNEL)) →
  ch ≠ [] ∧ trim ch = ch ∧ ¬ In comma ch.
Proof.
  unfold getUpdatesChannels.
  destruct (negb (truthy (Some (updatesChannel UPDATES_CHANNEL)))); [intros []|].
  intros H. apply filter_In in H as [H Hne].
  apply in_map_iff in H as (f & <- & Hf).
  split; [by destruct (trim f)|]. split; [apply trim_trim|].
  intros Hc. apply trim_In in Hc. by apply (split_fields comma _ f Hf).
Qed.

Lemma updates_channels_are_names_witness :
  In (js "news") (getUpdatesChannels (updatesChannel (Some (js "main , news ,, "))))
  ∧ js "news" ≠ [] ∧ trim (js "news") = js "news" ∧ ¬ In comma (js "news").
Proof.
  assert (H : In (js "news")
                (getUpdatesChannels (updatesChannel (Some (js "main , news ,, "))))).
  { right. left. reflexivity. }
  exact (conj H (updates_channels_are_names _ _ H)).
Defined.

End ConfigTheorems.
